(** * Second_Brain: the chunker of [IngestAgent] and the lexical fallback
      ranker of [RetrieverAgent]

    A shallow embedding of [src/agents/ingest_agent.py] and of
    [RetrieverAgent._local_text_search] in [src/agents/retriever_agent.py].

    Conventions of the embedding.
    - A Python [str] is the list of its code points, [str := list N].
      Whitespace ([str.isspace], [\s]) is modelled on all of Unicode; the
      tables of [str.lower] and of [\w], which only the ranker uses, are
      those of the code points below 256.
    - Python integers are [Z]; [len] is [Z.of_nat (length _)].
    - A loop that need not terminate runs on fuel and returns [None] when the
      fuel is used up before the loop condition fails.
    - [uuid.uuid4()] only feeds the ["id"] string of a chunk; the record of the
      model keeps the deterministic components of that string
      ([source_id], [chunk_index]) and leaves the random suffix out.

    The file also embeds what surrounds these two: [process_file_bytes] and
    [detect_file_type_from_bytes] ([src/utils/file_parsers.py]),
    [EmbeddingAgent._hash_to_vector], the dictionaries that
    [VectorTool.upsert] and [VectorTool.search] build,
    [RetrieverAgent.retrieve], [RAGAgent] and the two entry points of
    [RootAgent].
    - The dictionaries passed between the agents are association lists
      from keys to values that are [None], a string or an integer.
    - What comes from outside the program is a parameter of the model: the
      pages that the PDF parser extracts, the decoded text of a file, the MD5
      digest, the answer of the vector store, and whether a call of [upsert]
      or the writing of a chunk file returns or raises.
    - A call ends with a value, with an exception, or (on exhausted fuel) not
      at all: [run] where all three occur, [option] where only the first
      two do. *)

From Stdlib Require Import Ascii String.
From Stdlib Require Import List ZArith Lia Bool Arith.
From Stdlib Require Import Sorted Permutation DecimalString.
Import ListNotations.

Set Implicit Arguments.
Set Warnings "-notation-for-abbreviation".

(** A character is its code point. *)
Definition char := N.

Definition str := list char.

(** Literals: [lit "abc"] is the Python string ['abc']. *)
Definition lit (s : string) : str := map N_of_ascii (list_ascii_of_string s).

(** ** Python's string primitives *)
Module Py.

Definition len (s : str) : Z := Z.of_nat (length s).

(** [str.isspace] of one character, which is also the class [\s] of [re] on
    [str] patterns and the set that [str.strip] removes: U+0009 to U+000D,
    U+001C to U+0020, U+0085, U+00A0, U+1680, U+2000 to U+200A, U+2028,
    U+2029, U+202F, U+205F and U+3000. *)
Definition isspace (c : char) : bool :=
  (((9 <=? c) && (c <=? 13)) || ((28 <=? c) && (c <=? 32))
   || (c =? 133) || (c =? 160) || (c =? 5760)
   || ((8192 <=? c) && (c <=? 8202))
   || (c =? 8232) || (c =? 8233) || (c =? 8239) || (c =? 8287)
   || (c =? 12288))%N.

(** U+0020 *)
Definition space : char := 32%N.

Definition is_space_char (c : char) : bool := N.eqb c space.

(** The truth value of a string: [if s]. *)
Definition truthy (s : str) : bool :=
  match s with [] => false | _ :: _ => true end.

Fixpoint lstrip (s : str) : str :=
  match s with
  | [] => []
  | c :: s' => if isspace c then lstrip s' else s
  end.

Definition rstrip (s : str) : str := rev (lstrip (rev s)).

(** [s.strip()] *)
Definition strip (s : str) : str := rstrip (lstrip s).

(** [" ".join(l)] *)
Fixpoint join (l : list str) : str :=
  match l with
  | [] => []
  | [x] => x
  | x :: rest => x ++ space :: join rest
  end.

(** Index normalisation of slices and of the [start], [end] arguments of
    [str.rfind]: a negative index counts from the end, and the result is
    clipped to [0 .. n]. *)
Definition clip (n i : Z) : Z :=
  if (i <? 0)%Z then Z.max 0 (i + n) else Z.min i n.

(** [s[i:j]] *)
Definition slice (s : str) (i j : Z) : str :=
  let a := clip (len s) i in
  let b := clip (len s) j in
  firstn (Z.to_nat (b - a)) (skipn (Z.to_nat a) s).

(** Position of the last SPACE of a list, if any. *)
Fixpoint rindex_space (s : str) : option nat :=
  match s with
  | [] => None
  | c :: s' =>
      match rindex_space s' with
      | Some j => Some (S j)
      | None => if is_space_char c then Some 0%nat else None
      end
  end.

(** [s.rfind(" ", i, j)] *)
Definition rfind_space (s : str) (i j : Z) : Z :=
  let a := clip (len s) i in
  match rindex_space (slice s i j) with
  | Some k => (a + Z.of_nat k)%Z
  | None => (-1)%Z
  end.

(** [str.lower] of one character (code points below 256: the ASCII capitals
    and the capitals of Latin-1, U+00D7 excepted). *)
Definition lower_char (c : char) : char :=
  if (((65 <=? c) && (c <=? 90))
      || ((192 <=? c) && (c <=? 222) && negb (c =? 215)))%N
  then (c + 32)%N else c.

Definition lower (s : str) : str := map lower_char s.

Fixpoint startswith (s sub : str) : bool :=
  match sub, s with
  | [], _ => true
  | _ :: _, [] => false
  | a :: sub', b :: s' => N.eqb a b && startswith s' sub'
  end.

(** The scan of [str.count] for a non-empty [sub]: [skip] characters are
    still covered by the occurrence found last, so that occurrences do not
    overlap. *)
Fixpoint count_scan (sub : str) (skip : nat) (s : str) : nat :=
  match s with
  | [] => 0
  | _ :: s' =>
      match skip with
      | S k => count_scan sub k s'
      | O => if startswith s sub
             then S (count_scan sub (length sub - 1) s')
             else count_scan sub 0 s'
      end
  end.

(** [s.count(sub)]; the empty string occurs [len(s) + 1] times. *)
Definition count (s sub : str) : nat :=
  match sub with
  | [] => S (length s)
  | _ :: _ => count_scan sub 0 s
  end.

(** The class [\w] of [re] on [str] patterns, for code points below 256. *)
Definition isword (c : char) : bool :=
  (((48 <=? c) && (c <=? 57)) || ((65 <=? c) && (c <=? 90)) || (c =? 95)
   || ((97 <=? c) && (c <=? 122))
   || (c =? 170) || (c =? 178) || (c =? 179) || (c =? 181) || (c =? 185)
   || (c =? 186) || ((188 <=? c) && (c <=? 190))
   || ((192 <=? c) && (c <=? 214)) || ((216 <=? c) && (c <=? 246))
   || ((248 <=? c) && (c <=? 255)))%N.

(** [re.findall(r"\w+", s)]: the maximal runs of word characters; [acc] is
    the current run, reversed. *)
Fixpoint findall_scan (acc : str) (s : str) : list str :=
  match s with
  | [] => if truthy acc then [rev acc] else []
  | c :: s' =>
      if isword c then findall_scan (c :: acc) s'
      else (if truthy acc then [rev acc] else []) ++ findall_scan [] s'
  end.

Definition findall_words (s : str) : list str := findall_scan [] s.

End Py.

(** ** [ingest_agent.py] *)
Module Ingest.
Import Py.
Local Open Scope Z_scope.

(** A chunk dictionary: ["text"] and the four entries of ["meta"]. *)
Record chunk : Type := mk_chunk {
  text : str;
  source_id : str;
  chunk_index : Z;
  page : option Z;
  char_len : Z
}.

(** [(?<=[.!?])]: the characters allowed just before a split point,
    U+002E, U+0021 and U+003F. *)
Definition is_terminator (c : char) : bool :=
  (N.eqb c 46 || N.eqb c 33 || N.eqb c 63)%N.

(** [_SENTENCE_SPLIT_RE.split(s)] for the pattern [(?<=[.!?])\s+], as a
    left-to-right scan.  [in_sep] says that the scan is inside a match of
    [\s+]; [after_term] that the previous character is one of [.!?]; [acc]
    holds the current piece, reversed.  A match starts at a whitespace
    character preceded by a terminator and extends over the whole run of
    whitespace; the pieces between the matches are returned, the last one
    included even when it is empty. *)
Fixpoint re_split_scan (in_sep after_term : bool) (acc : str) (s : str)
  : list str :=
  match s with
  | [] => [rev acc]
  | c :: s' =>
      if isspace c then
        if in_sep then re_split_scan true false acc s'
        else if after_term then rev acc :: re_split_scan true false [] s'
        else re_split_scan false false (c :: acc) s'
      else re_split_scan false (is_terminator c) (c :: acc) s'
  end.

Definition re_split (s : str) : list str := re_split_scan false false [] s.

Definition _split_into_sentences (t : str) : list str :=
  let sentences := re_split (strip t) in
  map strip (filter (fun s => truthy s && truthy (strip s)) sentences).

Section Agent.
(** The two attributes of an [IngestAgent]. *)
Variables chunk_size_chars min_chunk_chars : Z.

(** One iteration of the [while start < n] loop of [_split_long_text];
    the state is [(start, parts)]. *)
Definition split_step (t : str) (st : Z * list str) : Z * list str :=
  let '(start, parts) := st in
  let n := len t in
  let end0 := Z.min (start + chunk_size_chars) n in
  let end1 :=
    if end0 <? n then
      let last_space := rfind_space t start end0 in
      if last_space >? start then last_space else end0
    else end0 in
  let part := strip (slice t start end1) in
  (end1, if truthy part then parts ++ [part] else parts).

Fixpoint split_loop (fuel : nat) (t : str) (st : Z * list str)
  : option (list str) :=
  if fst st <? len t then
    match fuel with
    | O => None
    | S fuel' => split_loop fuel' t (split_step t st)
    end
  else Some (snd st).

Definition _split_long_text_fuel (fuel : nat) (t : str)
  : option (list str) :=
  if len t <=? chunk_size_chars then Some [t]
  else split_loop fuel t (0, []).

(** [len(text)] iterations are enough whenever every iteration advances
    [start]; see [split_loop_fuel_enough]. *)
Definition _split_long_text (t : str) : option (list str) :=
  _split_long_text_fuel (length t) t.

(** The local variables of [_aggregate_sentences_to_chunks] during its
    first loop. *)
Record agg_state : Type := mk_state {
  chunks : list chunk;
  buffer : list str;
  buffer_len : Z;
  idx : Z
}.

Definition new_chunk (sid : str) (pg : option Z) (i : Z) (t : str)
  : chunk :=
  mk_chunk t sid i pg (len t).

(** [chunks.append({...}); idx += 1] *)
Definition push_chunk (sid : str) (pg : option Z) (st : agg_state)
           (t : str) : agg_state :=
  mk_state (chunks st ++ [new_chunk sid pg (idx st) t])
           (buffer st) (buffer_len st) (idx st + 1).

(** [text = " ".join(buffer).strip()] followed by [if text: ...]. *)
Definition flush_buffer (sid : str) (pg : option Z) (st : agg_state)
  : agg_state :=
  let t := strip (join (buffer st)) in
  if truthy t then push_chunk sid pg st t else st.

Definition set_buffer (st : agg_state) (b : list str) (bl : Z)
  : agg_state :=
  mk_state (chunks st) b bl (idx st).

(** The body of [for sent in sentences]. *)
Definition emit_step (sid : str) (pg : option Z) (st : agg_state)
           (sent : str) : option agg_state :=
  let s_len := len sent in
  if s_len >? chunk_size_chars then
    let st1 :=
      match buffer st with
      | [] => st
      | _ :: _ => set_buffer (flush_buffer sid pg st) [] 0
      end in
    match _split_long_text sent with
    | None => None
    | Some parts => Some (fold_left (push_chunk sid pg) parts st1)
    end
  else if buffer_len st + s_len + 1 <=? chunk_size_chars then
    Some (set_buffer st (buffer st ++ [sent]) (buffer_len st + s_len + 1))
  else
    Some (set_buffer (flush_buffer sid pg st) [sent] (s_len + 1)).

Fixpoint emit_loop (sid : str) (pg : option Z) (st : agg_state)
         (sentences : list str) : option agg_state :=
  match sentences with
  | [] => Some st
  | sent :: rest =>
      match emit_step sid pg st sent with
      | None => None
      | Some st' => emit_loop sid pg st' rest
      end
  end.

(** The chunks before the merge pass: the first loop and the flush of the
    last buffer.  (The source does not increment [idx] after this last
    flush; [idx] is not read any more.) *)
Definition emit_chunks (sid : str) (pg : option Z) (sentences : list str)
  : option (list chunk) :=
  match emit_loop sid pg (mk_state [] [] 0 0) sentences with
  | None => None
  | Some st =>
      Some (chunks (match buffer st with
                    | [] => st
                    | _ :: _ => flush_buffer sid pg st
                    end))
  end.

(** [prev["text"] = (prev["text"] + " " + c["text"]).strip()] and
    [prev["meta"]["char_len"] = len(prev["text"])]. *)
Definition absorb (prev c : chunk) : chunk :=
  let t := strip (text prev ++ space :: text c) in
  mk_chunk t (source_id prev) (chunk_index prev) (page prev) (len t).

Definition mergeable (prev c : chunk) : bool :=
  (char_len prev <? min_chunk_chars)
  && (char_len prev + 1 + char_len c <=? chunk_size_chars).

(** The body of [for c in chunks]; [merged[-1]] is the last element. *)
Definition merge_step (merged : list chunk) (c : chunk) : list chunk :=
  match rev merged with
  | [] => merged ++ [c]
  | prev :: before =>
      if mergeable prev c then rev before ++ [absorb prev c]
      else merged ++ [c]
  end.

Definition merge_pass (cs : list chunk) : list chunk :=
  fold_left merge_step cs [].

Definition _aggregate_sentences_to_chunks
           (sentences : list str) (sid : str) (pg : option Z)
  : option (list chunk) :=
  match emit_chunks sid pg sentences with
  | None => None
  | Some cs => Some (merge_pass cs)
  end.

(** [process_text] with [source_id] given. *)
Definition process_text (t : str) (sid : str) : option (list chunk) :=
  match _split_into_sentences t with
  | [] => Some [mk_chunk t sid 0 None (len t)]
  | sentences => _aggregate_sentences_to_chunks sentences sid None
  end.

End Agent.

End Ingest.

(** ** [retriever_agent.py]: the local text search *)
Module Retriever.
Import Py.

(** A chunk as it is read back from a JSON file: [ch.get(...)] may find no
    entry, and ["meta"] may be absent. *)
Record stored_meta : Type := mk_meta {
  meta_source_id : option str;
  meta_chunk_index : option Z;
  meta_page : option Z
}.

Record stored : Type := mk_stored {
  st_id : option str;
  st_text : option str;
  st_meta : option stored_meta
}.

(** The dictionary [chunk_obj] returned for a hit. *)
Record hit : Type := mk_hit {
  text : option str;
  source_id : option str;
  chunk_index : option Z;
  page : option Z;
  chunk_id : option str
}.

(** [ch.get("meta", {}).get(key)] *)
Definition meta_get {A : Type} (f : stored_meta -> option A) (ch : stored)
  : option A :=
  match st_meta ch with
  | Some m => f m
  | None => None
  end.

Definition chunk_obj (ch : stored) : hit :=
  mk_hit (st_text ch) (meta_get meta_source_id ch)
         (meta_get meta_chunk_index ch) (meta_get meta_page ch) (st_id ch).

(** The tuples [(score, tie_breaker, chunk_dict)] kept in the heap. *)
Definition entry : Type := nat * nat * hit.

Definition e_score (e : entry) : nat := fst (fst e).
Definition e_tie (e : entry) : nat := snd (fst e).
Definition e_hit (e : entry) : hit := snd e.

(** Python's [<] on two such tuples whose tie-breakers differ: the score
    decides, then the tie-breaker; the dictionaries are never compared. *)
Definition entry_lt (a b : entry) : bool :=
  (e_score a <? e_score b)
  || ((e_score a =? e_score b) && (e_tie a <? e_tie b)).

(** The heap of [heapq] is modelled by its content, kept in ascending order
    (an ascending list is one of the layouts satisfying the heap
    invariant): [heap[0]], the smallest entry, is the head, and the
    operations below have the content that the library documents.  The
    search reads the heap only through [heap[0]], [len(heap)] and the sorted
    list of [nlargest], none of which depends on the layout. *)
Definition heap : Type := list entry.

(** [heapq.heappush(heap, item)] *)
Fixpoint heappush (h : heap) (item : entry) : heap :=
  match h with
  | [] => [item]
  | e :: h' => if entry_lt e item then e :: heappush h' item else item :: h
  end.

(** [heapq.heappushpop(heap, item)]: when the smallest entry is below
    [item] it is replaced by [item]; otherwise [item] itself is the one
    popped and the heap is unchanged. *)
Definition heappushpop (h : heap) (item : entry) : heap :=
  match h with
  | [] => []
  | e :: h' => if entry_lt e item then heappush h' item else h
  end.

(** [heapq.nlargest(n, heap)], that is [sorted(heap, reverse=True)[:n]]. *)
Definition nlargest (n : nat) (h : heap) : list entry := firstn n (rev h).

(** [score] of one lower-cased text. *)
Definition score_of (q : str) (terms : list str) (t : str) : nat :=
  fold_left (fun score term => score + count t term) terms
            (0 + count t q * 10).

(** The body of [for ch in chunks]; the state is the heap and the next
    value of [tie_counter]. *)
Definition scan_chunk (q : str) (terms : list str) (top_k : Z)
           (st : heap * nat) (ch : stored) : heap * nat :=
  let '(h, tie) := st in
  let t := lower (match st_text ch with Some t => t | None => [] end) in
  if negb (truthy t) then st
  else
    let score := score_of q terms t in
    if score <=? 0 then st
    else
      let item : entry := (score, tie, chunk_obj ch) in
      if (Z.of_nat (length h) <? top_k)%Z
      then (heappush h item, S tie)
      else (heappushpop h item, S tie).

(** One file of [glob.glob(...)]: [None] when [open] or [json.load]
    raises, in which case the file is skipped. *)
Definition scan_file (q : str) (terms : list str) (top_k : Z)
           (st : heap * nat) (f : option (list stored)) : heap * nat :=
  match f with
  | None => st
  | Some chs => fold_left (scan_chunk q terms top_k) chs st
  end.

(** [query.strip().lower()] *)
Definition normalize (query : str) : str := lower (strip query).

(** The list [largest] of [_local_text_search]; the corpus is [None] when
    [DATA_DIR] does not exist, and otherwise the files in the order of
    [glob.glob]. *)
Definition ranked (corpus : option (list (option (list stored))))
           (query : str) (top_k : Z) : list entry :=
  match corpus with
  | None => []
  | Some files =>
      let q := normalize query in
      if negb (truthy q) then []
      else
        let terms := findall_words q in
        let h := fst (fold_left (scan_file q terms top_k) files ([], 0)) in
        match h with
        | [] => []
        | _ :: _ => nlargest (length h) h
        end
  end.

Definition _local_text_search (corpus : option (list (option (list stored))))
           (query : str) (top_k : Z) : list hit :=
  map e_hit (ranked corpus query top_k).

End Retriever.

(** ** Notions used in the statements *)
Module Spec.
Import Py Ingest.

(** The non-whitespace content of a text, in order. *)
Definition nonws (s : str) : str := filter (fun c => negb (isspace c)) s.

(** No whitespace at the front. *)
Definition starts_clean (s : str) : bool :=
  match s with
  | [] => true
  | c :: _ => negb (isspace c)
  end.

(** A text that [strip] leaves alone and that is not empty. *)
Definition tidy (s : str) : Prop :=
  s <> [] /\ starts_clean s = true /\ starts_clean (rev s) = true.

(** [sum(len(s) + 1 for s in l)], the value of [buffer_len] for the
    buffer [l]. *)
Fixpoint sum_len1 (l : list str) : Z :=
  match l with
  | [] => 0%Z
  | s :: l' => (len s + 1 + sum_len1 l')%Z
  end.

(** What a part made by the loop of [_split_long_text] is: the stripped
    slice of a window of at most [csc] characters, and not empty. *)
Definition window_part (csc : Z) (t p : str) : Prop :=
  exists a b, (0 <= a <= b)%Z /\ (b <= len t)%Z /\ (b - a <= csc)%Z
              /\ p = strip (slice t a b) /\ p <> [].

(** The chunks made from the texts [ts], numbered from [i] on. *)
Fixpoint number (sid : str) (pg : option Z) (i : Z) (ts : list str)
  : list chunk :=
  match ts with
  | [] => []
  | t :: ts' => new_chunk sid pg i t :: number sid pg (i + 1) ts'
  end.

(** The text that flushing the buffer [b] emits, if any. *)
Definition flushed (b : list str) : list str :=
  let t := strip (join b) in if truthy t then [t] else [].

(** Where the text of a chunk comes from, before the merge pass: a buffer
    of sentences that fits, or a window of an oversized sentence. *)
Definition origin (csc : Z) (sents : list str) (t : str) : Prop :=
  (exists b, b <> [] /\ incl b sents /\ (sum_len1 b <= csc + 1)%Z
             /\ t = strip (join b) /\ t <> [])
  \/ (exists s, In s sents /\ (csc < len s)%Z /\ window_part csc s t).

(** The invariant of the first loop of [_aggregate_sentences_to_chunks]. *)
Definition agg_inv (csc : Z) (sid : str) (pg : option Z)
           (sents : list str) (st : agg_state) : Prop :=
  chunks st = number sid pg 0 (map text (chunks st))
  /\ idx st = Z.of_nat (length (chunks st))
  /\ Forall (origin csc sents) (map text (chunks st))
  /\ incl (buffer st) sents
  /\ buffer_len st = sum_len1 (buffer st)
  /\ (buffer_len st <= csc + 1)%Z.

(** The merge pass as a recursion on the chunks still to come, [prev]
    being [merged[-1]]. *)
Fixpoint merge_from (csc mcc : Z) (prev : chunk) (cs : list chunk)
  : list chunk :=
  match cs with
  | [] => [prev]
  | c :: cs' =>
      if mergeable csc mcc prev c then merge_from csc mcc (absorb prev c) cs'
      else prev :: merge_from csc mcc c cs'
  end.

(** A chunk whose text is stripped and not empty, with its length
    recorded. *)
Definition wf_chunk (c : chunk) : Prop :=
  tidy (text c) /\ char_len c = len (text c).

(** No pair of neighbours that the merge pass would still have to merge:
    both below [mcc] with a combined length within [csc]. *)
Fixpoint no_mergeable_pair (csc mcc : Z) (l : list chunk) : Prop :=
  match l with
  | x :: (y :: _) as l' =>
      ~ (char_len x < mcc /\ char_len y < mcc
         /\ char_len x + 1 + char_len y <= csc)%Z
      /\ no_mergeable_pair csc mcc l'
  | _ => True
  end.


(** No terminator followed by whitespace inside the text: the pattern of
    [_SENTENCE_SPLIT_RE] matches nowhere. *)
Fixpoint no_break (s : str) : bool :=
  match s with
  | c :: (d :: _) as s' =>
      negb (is_terminator c && isspace d) && no_break s'
  | _ => true
  end.

Definition starts_nonspace (s : str) : bool :=
  match s with
  | [] => false
  | c :: _ => negb (isspace c)
  end.

(** Wherever the pattern matches, it matches one SPACE followed by a
    character that is not whitespace; [aft] says that the character before
    the text is a terminator. *)
Fixpoint single_breaks (aft : bool) (s : str) : bool :=
  match s with
  | [] => true
  | c :: r =>
      (if aft && isspace c then is_space_char c && starts_nonspace r
       else true)
      && single_breaks (is_terminator c) r
  end.

(** The sentences that [_split_into_sentences] returns. *)
Definition good (s : str) : Prop := tidy s /\ no_break s = true.

(** The texts that the chunker emits for such sentences. *)
Definition nice (s : str) : Prop := tidy s /\ single_breaks false s = true.

(** Is the last character of the reversed text [acc] a terminator? *)
Definition head_term (acc : str) : bool :=
  match acc with
  | [] => false
  | c :: _ => is_terminator c
  end.

(** [i, i+1, ..., i+n-1] *)
Fixpoint zseq (i : Z) (n : nat) : list Z :=
  match n with
  | O => []
  | S n' => i :: zseq (i + 1) n'
  end.

(** Consecutive values: no gap between neighbours. *)
Fixpoint contiguous (l : list Z) : Prop :=
  match l with
  | x :: (y :: _) as l' => y = (x + 1)%Z /\ contiguous l'
  | _ => True
  end.


End Spec.

Module RankSpec.
Import Py Retriever.

(** The order of the heap, as a proposition. *)
Definition below (a b : entry) : Prop := entry_lt a b = true.

(** All the chunks of the corpus, in the order of the scan; a file that
    cannot be read contributes nothing. *)
Definition corpus_chunks (files : list (option (list stored)))
  : list stored :=
  concat (map (fun f => match f with Some chs => chs | None => [] end)
              files).

(** The score and the hit of a chunk that takes part in the ranking: its
    text is not empty and its score is positive. *)
Definition candidate (q : str) (terms : list str) (ch : stored)
  : option (nat * hit) :=
  let t := lower (match st_text ch with Some t => t | None => [] end) in
  if negb (truthy t) then None
  else if score_of q terms t <=? 0 then None
       else Some (score_of q terms t, chunk_obj ch).

Fixpoint candidates_of (q : str) (terms : list str) (chs : list stored)
  : list (nat * hit) :=
  match chs with
  | [] => []
  | ch :: chs' =>
      match candidate q terms ch with
      | Some c => c :: candidates_of q terms chs'
      | None => candidates_of q terms chs'
      end
  end.

(** The candidates with the values of the tie counter, from [tie] on. *)
Fixpoint tag (tie : nat) (l : list (nat * hit)) : list entry :=
  match l with
  | [] => []
  | (sc, h) :: l' => (sc, tie, h) :: tag (S tie) l'
  end.

(** The entries offered to the heap by the scan of the corpus. *)
Definition offered (files : list (option (list stored))) (query : str)
  : list entry :=
  let q := normalize query in
  tag 0 (candidates_of q (findall_words q) (corpus_chunks files)).

(** What the loop does with one entry. *)
Definition offer (top_k : Z) (h : heap) (item : entry) : heap :=
  if (Z.of_nat (length h) <? top_k)%Z then heappush h item
  else heappushpop h item.

(** The score as the specification words it. *)
Definition score_sum (q : str) (terms : list str) (t : str) : nat :=
  10 * count t q + list_sum (map (count t) terms).

(** The heap [h] holds the best of the entries seen so far, [dropped]
    holding the others. *)
Definition heap_inv (top_k : Z) (seen : list entry) (h : heap)
           (dropped : list entry) : Prop :=
  Permutation seen (h ++ dropped)
  /\ StronglySorted below h
  /\ Forall (fun d => Forall (below d) h) dropped
  /\ ((Z.of_nat (length h) < top_k)%Z -> dropped = [])
  /\ (Z.of_nat (length h) <= Z.max 0 top_k)%Z.

(** Scores never increase along the list. *)
Definition score_descending (l : list entry) : Prop :=
  StronglySorted (fun a b => e_score b <= e_score a) l.

(** Entries of equal score stand in the order in which the scan met
    them. *)
Definition ties_in_encounter_order (l : list entry) : Prop :=
  forall i j e1 e2,
    nth_error l i = Some e1 -> nth_error l j = Some e2 -> i < j ->
    e_score e1 = e_score e2 -> e_tie e1 < e_tie e2.

(** Of two entries of equal score, the one met first is kept whenever the
    one met later is. *)
Definition earlier_kept (all kept : list entry) : Prop :=
  forall e1 e2,
    In e1 all -> In e2 all ->
    e_score e1 = e_score e2 -> e_tie e1 < e_tie e2 ->
    In e2 kept -> In e1 kept.

(** The text of the chunk holds the phrase once and each of its two words
    once. *)
Definition once_each (ch : stored) : Prop :=
  match st_text ch with
  | Some t =>
      count (lower t) (lit "brown fox") = 1
      /\ count (lower t) (lit "brown") = 1
      /\ count (lower t) (lit "fox") = 1
  | None => False
  end.

End RankSpec.

(** ** [utils/file_parsers.py] and [IngestAgent.process_file_bytes] *)
Module Files.
Import Py Ingest.

(** A [bytes] object is the list of its bytes. *)
Definition bytes := list N.

(** [a == b] on strings and on bytes. *)
Fixpoint seq_eqb (a b : list N) : bool :=
  match a, b with
  | [], [] => true
  | x :: a', y :: b' => N.eqb x y && seq_eqb a' b'
  | _, _ => false
  end.

(** [s.endswith(suffix)] *)
Definition endswith (s suffix : str) : bool :=
  seq_eqb (skipn (length s - length suffix) s) suffix.

Definition detect_file_type_from_bytes (file_bytes : bytes) (filename : str)
  : str :=
  if seq_eqb (firstn 4 file_bytes) (lit "%PDF") then lit "pdf"
  else if endswith (lower filename) (lit ".pdf") then lit "pdf"
  else lit "text".

(** How a call ends: with a value, with an exception, or not at all. *)
Inductive run (A : Type) : Type :=
| Returns (a : A)
| Raises
| Loops.

Arguments Raises {A}.
Arguments Loops {A}.

Section FileAgent.
Variables chunk_size_chars min_chunk_chars : Z.

(** [parse_pdf_bytes]: the page texts that [pdfplumber] extracts, a page
    without text giving [""]; [None] when the library raises. *)
Variable parse_pdf_bytes : bytes -> option (list str).

(** [file_bytes.decode("utf-8")], with [errors="replace"] when that
    raises. *)
Variable decode_text : bytes -> str.

Definition parse_text_bytes (file_bytes : bytes) : list str :=
  [decode_text file_bytes].

(** [for p_idx, page_text in enumerate(pages)], from page [p_idx] on. *)
Fixpoint pdf_loop (sid : str) (p_idx : Z) (pages : list str)
         (result_chunks : list chunk) : option (list chunk) :=
  match pages with
  | [] => Some result_chunks
  | page_text :: rest =>
      if negb (truthy page_text) || negb (truthy (strip page_text))
      then pdf_loop sid (p_idx + 1) rest result_chunks
      else
        let sentences := _split_into_sentences page_text in
        match _aggregate_sentences_to_chunks
                chunk_size_chars min_chunk_chars sentences sid (Some p_idx)
        with
        | None => None
        | Some page_chunks =>
            pdf_loop sid (p_idx + 1) rest (result_chunks ++ page_chunks)
        end
  end.

(** [for t in texts] *)
Fixpoint text_loop (sid : str) (texts : list str)
         (result_chunks : list chunk) : option (list chunk) :=
  match texts with
  | [] => Some result_chunks
  | t :: rest =>
      match process_text chunk_size_chars min_chunk_chars t sid with
      | None => None
      | Some chunks => text_loop sid rest (result_chunks ++ chunks)
      end
  end.

(** [process_file_bytes]; [fresh] is the value of [uuid.uuid4().hex[:8]]. *)
Definition process_file_bytes (fresh : str) (file_bytes : bytes)
           (filename : str) : run (list chunk) :=
  let ftype := detect_file_type_from_bytes file_bytes filename in
  let source_id :=
    if truthy filename then filename else lit "file-" ++ fresh in
  if seq_eqb ftype (lit "pdf") then
    match parse_pdf_bytes file_bytes with
    | None => Raises
    | Some pages =>
        match pdf_loop source_id 0 pages [] with
        | None => Loops
        | Some result_chunks => Returns result_chunks
        end
    end
  else
    match text_loop source_id (parse_text_bytes file_bytes) [] with
    | None => Loops
    | Some result_chunks => Returns result_chunks
    end.

End FileAgent.

End Files.

Module FileSpec.
Import Py Ingest Files.

(** The pages that [process_file_bytes] does not skip, with their
    numbers, from page [p_idx] on. *)
Fixpoint kept_pages (p_idx : Z) (pages : list str) : list (Z * str) :=
  match pages with
  | [] => []
  | page_text :: rest =>
      if truthy (strip page_text)
      then (p_idx, page_text) :: kept_pages (p_idx + 1) rest
      else kept_pages (p_idx + 1) rest
  end.

(** The page number of a chunk, [-1] standing for [None]. *)
Definition page_no (c : chunk) : Z :=
  match page c with
  | Some p => p
  | None => (-1)%Z
  end.

(** Chunk [a] comes before chunk [b] in the order of (page, chunk_index). *)
Definition page_index_lt (a b : chunk) : Prop :=
  (page_no a < page_no b
   \/ (page_no a = page_no b /\ chunk_index a < chunk_index b))%Z.

(** No pair of neighbours that the merge pass would merge. *)
Fixpoint settled (csc mcc : Z) (l : list chunk) : Prop :=
  match l with
  | x :: (y :: _) as l' =>
      mergeable csc mcc x y = false /\ settled csc mcc l'
  | _ => True
  end.

End FileSpec.

(** ** Dictionaries of chunk properties *)
Module Dict.
Import Py.

(** The values that the properties of a chunk take: [None], a string or an
    integer. *)
Inductive value : Type :=
| VNone
| VStr (s : str)
| VInt (z : Z).

(** A dictionary with string keys; a literal [{"a": x, "b": y}] is
    [[("a", x); ("b", y)]]. *)
Definition dict := list (string * value).

Fixpoint find (d : dict) (k : string) : option value :=
  match d with
  | [] => None
  | (k', v) :: d' => if String.eqb k k' then Some v else find d' k
  end.

(** [d.get(k, default)] *)
Definition get_default (d : dict) (k : string) (default : value) : value :=
  match find d k with
  | Some v => v
  | None => default
  end.

(** [d.get(k)] *)
Definition get (d : dict) (k : string) : value := get_default d k VNone.

(** The truth value of a value: [if v]. *)
Definition truthy_value (v : value) : bool :=
  match v with
  | VNone => false
  | VStr s => truthy s
  | VInt z => negb (z =? 0)%Z
  end.

(** [a or b] *)
Definition or_ (a b : value) : value := if truthy_value a then a else b.

(** [str(z)] of an integer. *)
Definition decimal (z : Z) : str := lit (NilZero.string_of_int (Z.to_int z)).

(** The text that an f-string puts for [{v}]. *)
Definition str_of (v : value) : str :=
  match v with
  | VNone => lit "None"
  | VStr s => s
  | VInt z => decimal z
  end.

Definition of_str (o : option str) : value :=
  match o with
  | Some s => VStr s
  | None => VNone
  end.

Definition of_int (o : option Z) : value :=
  match o with
  | Some z => VInt z
  | None => VNone
  end.

(** [sep.join(l)] *)
Fixpoint join_with (sep : str) (l : list str) : str :=
  match l with
  | [] => []
  | [x] => x
  | x :: rest => x ++ sep ++ join_with sep rest
  end.

(** [s.split(sep)] for a separator of one character. *)
Fixpoint split_on (sep : char) (s : str) : list str :=
  match s with
  | [] => [[]]
  | c :: s' =>
      if N.eqb c sep then [] :: split_on sep s'
      else match split_on sep s' with
           | x :: r => (c :: x) :: r
           | [] => [[c]]
           end
  end.

(** [l * k] on lists. *)
Definition repeat_list {A : Type} (l : list A) (k : Z) : list A :=
  concat (repeat l (Z.to_nat k)).

(** [l[:j]] on lists. *)
Definition slice_to {A : Type} (l : list A) (j : Z) : list A :=
  firstn (Z.to_nat (clip (Z.of_nat (length l)) j)) l.

End Dict.

(** ** [EmbeddingAgent] *)
Module EmbeddingAgent.
Import Py Dict.

Section Agent.
(** The floating-point numbers, and [b / 255] for a byte [b]. *)
Variable float : Type.
Variable div255 : N -> float.

(** The bytes of [hashlib.md5(text.encode("utf-8"))]; [None] when the
    encoding raises. *)
Variable md5_digest : str -> option (list N).

Variable dim : Z.

Definition _hash_to_vector (text : str) : option (list float) :=
  match md5_digest text with
  | None => None
  | Some digest =>
      let nums := map div255 digest in
      if (Z.of_nat (length nums) =? 0)%Z then None
      else
        Some (slice_to
                (repeat_list nums (dim / Z.of_nat (length nums) + 1)) dim)
  end.

Fixpoint embed_texts (texts : list str) : option (list (list float)) :=
  match texts with
  | [] => Some []
  | t :: rest =>
      match _hash_to_vector t with
      | None => None
      | Some v =>
          match embed_texts rest with
          | None => None
          | Some vs => Some (v :: vs)
          end
      end
  end.

End Agent.

End EmbeddingAgent.

(** ** [VectorTool]: what goes to and comes from the vector store *)
Module VectorTool.
Import Py Dict.

(** The properties that [upsert] sends for a chunk. *)
Definition upsert_properties (id : str) (metadata : dict) (text : str)
  : dict :=
  [("text", VStr text);
   ("source_id", get metadata "source_id");
   ("chunk_index", get metadata "chunk_index");
   ("page", get metadata "page");
   ("chunk_id", VStr id)]%string.

Section Store.
Variable float : Type.

(** What the GraphQL endpoint answers to a query vector and a limit:
    [None] when the status is not 200 or when reading the body raises, and
    otherwise the objects under [data.Get.Chunk]. *)
Variable store : list float -> Z -> option (list dict).

Definition search (vector : list float) (top_k : Z) : list dict :=
  match store vector top_k with
  | None => []
  | Some objs =>
      map (fun obj =>
             [("text", get obj "text");
              ("source_id", get obj "source_id");
              ("chunk_index", get obj "chunk_index");
              ("page", get obj "page")]%string) objs
  end.

End Store.

End VectorTool.

(** ** [RetrieverAgent.retrieve] *)
Module RetrieverAgent.
Import Py Dict.

(** The dictionary that [_local_text_search] returns for a hit. *)
Definition hit_dict (h : Retriever.hit) : dict :=
  [("text", of_str (Retriever.text h));
   ("source_id", of_str (Retriever.source_id h));
   ("chunk_index", of_int (Retriever.chunk_index h));
   ("page", of_int (Retriever.page h));
   ("chunk_id", of_str (Retriever.chunk_id h))]%string.

Definition normalized_hit (h : dict) : dict :=
  [("text", get h "text");
   ("source_id", get h "source_id");
   ("chunk_index", get h "chunk_index");
   ("page", get h "page");
   ("chunk_id", or_ (or_ (get h "chunk_id") (get h "id")) VNone)]%string.

Section Agent.
Variable float : Type.
Variable div255 : N -> float.
Variable md5_digest : str -> option (list N).
Variable store : list float -> Z -> option (list dict).

(** [retrieve], with the embedder of the root agent ([dim = 128]); [None]
    when the embedding raises. *)
Definition retrieve (corpus : option (list (option (list Retriever.stored))))
           (query : str) (top_k : Z) : option (list dict) :=
  match EmbeddingAgent.embed_texts div255 md5_digest 128 [query] with
  | Some (qvec :: _) =>
      let hits := VectorTool.search store qvec top_k in
      let normalized := map normalized_hit hits in
      match normalized with
      | _ :: _ => Some normalized
      | [] =>
          Some (map hit_dict
                    (Retriever._local_text_search corpus query top_k))
      end
  | _ => None
  end.

End Agent.

End RetrieverAgent.

(** ** [RAGAgent] *)
Module RAGAgent.
Import Py Dict.

Definition label (h : dict) (t : str) : str :=
  lit "Source (" ++ str_of (get h "source_id") ++ lit ":"
      ++ str_of (get h "chunk_index") ++ lit "): " ++ t.

Definition apology : str :=
  lit "I couldn't find relevant information in your memory.".

(** The dictionary [{"answer": ..., "sources": ...}]. *)
Record reply : Type := mk_reply {
  answer : str;
  sources : list dict
}.

Definition source_of (h : dict) : dict :=
  [("chunk_id", get h "chunk_id");
   ("source_id", get h "source_id");
   ("chunk_index", get h "chunk_index");
   ("page", get h "page")]%string.

Section Agent.
Variable max_context_chars : Z.

(** [for h in hits] of [_build_context]; [None] when [len(t)] raises
    because [t] is an integer. *)
Fixpoint context_loop (hits : list dict) (ctx_parts : list str) (total : Z)
  : option (list str) :=
  match hits with
  | [] => Some ctx_parts
  | h :: rest =>
      match get_default h "text" (VStr []) with
      | VNone => context_loop rest ctx_parts total
      | VInt z =>
          if (z =? 0)%Z then context_loop rest ctx_parts total else None
      | VStr t =>
          if negb (truthy t) then context_loop rest ctx_parts total
          else if (total + len t >? max_context_chars)%Z then
                 let remaining := (max_context_chars - total)%Z in
                 if (remaining <=? 0)%Z then Some ctx_parts
                 else
                   let t' := slice t 0 remaining in
                   context_loop rest (ctx_parts ++ [label h t'])
                                (total + len t')%Z
               else context_loop rest (ctx_parts ++ [label h t])
                                 (total + len t)%Z
      end
  end.

Definition _build_context (query : str) (hits : list dict) : option str :=
  match context_loop hits [] 0%Z with
  | Some ctx_parts => Some (join_with [10; 10]%N ctx_parts)
  | None => None
  end.

Definition generate_answer (query : str) (hits : list dict)
  : option reply :=
  match _build_context query hits with
  | None => None
  | Some context =>
      let answer :=
        if negb (truthy context) then apology
        else
          let excerpt := split_on 46%N context in
          let first := strip (nth 0 excerpt []) in
          let second :=
            if (Z.of_nat (length excerpt) >? 1)%Z then strip (nth 1 excerpt [])
            else [] in
          strip (first ++ lit ". " ++ second) in
      Some (mk_reply answer (map source_of hits))
  end.

End Agent.

End RAGAgent.

(** ** [RootAgent] *)
Module RootAgent.
Import Py Dict Ingest Files.

(** What a call of [handle_ingest] leaves behind: how it ends, the number
    of calls of [VectorTool.upsert] it made, and the chunk file it wrote,
    under the source id that names it. *)
Record outcome : Type := mk_outcome {
  result : run dict;
  upsert_calls : nat;
  written : option (str * list chunk)
}.

Section Agent.
Variable float : Type.
Variable div255 : N -> float.
Variable md5_digest : str -> option (list N).
Variable store : list float -> Z -> option (list dict).
Variable parse_pdf_bytes : bytes -> option (list str).
Variable decode_text : bytes -> str.

(** Whether the [i]-th call of [VectorTool.upsert] returns rather than
    raises, and whether the chunk file of a source id can be written. *)
Variable upsert_returns : nat -> bool.
Variable write_returns : str -> bool.

(** [for c, vec in zip(chunks, vectors)], from call [i] on: the number of
    calls made, and whether all of them returned. *)
Fixpoint upsert_all (i : nat) (chunks : list chunk) : nat * bool :=
  match chunks with
  | [] => (i, true)
  | _ :: rest =>
      if upsert_returns i then upsert_all (S i) rest else (S i, false)
  end.

(** [handle_ingest]; the [IngestAgent] of the root agent has the default
    sizes, and [fresh] is the value of [uuid.uuid4().hex[:8]] that names
    the source. *)
Definition handle_ingest (fresh : str) (content : option str)
           (file_bytes : option bytes) (filename : str) : outcome :=
  let chunks :=
    match file_bytes with
    | Some (b :: fb) =>
        process_file_bytes 800 200 parse_pdf_bytes decode_text fresh
                           (b :: fb) filename
    | _ =>
        match content with
        | None => Raises
        | Some text =>
            match process_text 800 200 text (lit "txt-" ++ fresh) with
            | Some chunks => Returns chunks
            | None => Loops
            end
        end
    end in
  match chunks with
  | Raises => mk_outcome Raises 0 None
  | Loops => mk_outcome Loops 0 None
  | Returns [] =>
      mk_outcome (Returns [("status", VStr (lit "error"));
                           ("ingested_chunks", VInt 0)]%string) 0 None
  | Returns ((c0 :: _) as chunks) =>
      let source_id := Ingest.source_id c0 in
      match EmbeddingAgent.embed_texts div255 md5_digest 128
                                       (map Ingest.text chunks) with
      | None => mk_outcome Raises 0 None
      | Some vectors =>
          let '(calls, all_returned) := upsert_all 0 chunks in
          if all_returned && write_returns source_id
          then mk_outcome
                 (Returns [("status", VStr (lit "ok"));
                           ("ingested_chunks", VInt (Z.of_nat (length chunks)));
                           ("source_id", VStr source_id)]%string)
                 calls (Some (source_id, chunks))
          else mk_outcome Raises calls None
      end
  end.

(** [handle_query]; the [RAGAgent] of the root agent has the default
    [max_context_chars = 2000].  [None] when a step raises. *)
Definition handle_query (corpus : option (list (option (list Retriever.stored))))
           (query : str) (top_k : Z) : option RAGAgent.reply :=
  match RetrieverAgent.retrieve div255 md5_digest store corpus query top_k
  with
  | None => None
  | Some hits => RAGAgent.generate_answer 2000 query hits
  end.

End Agent.

End RootAgent.

Module RagSpec.
Import Py Dict RAGAgent.

(** [h.get("text", "")] *)
Definition text_of (h : dict) : value := get_default h "text" (VStr []).

(** The text of the hit is not an integer other than [0], on which
    [len] would raise. *)
Definition readable (h : dict) : Prop :=
  match text_of h with
  | VInt z => z = 0%Z
  | _ => True
  end.

(** The hit has no text to show. *)
Definition no_text (h : dict) : Prop := truthy_value (text_of h) = false.

(** [takes hits ex]: the excerpts [ex] are taken from hits of [hits], in
    their order; each is a non-empty beginning of the text of its hit, and
    only the last one may leave the rest of the text out. *)
Inductive takes : list dict -> list (dict * str) -> Prop :=
| takes_nil hits : takes hits []
| takes_skip h hits ex : takes hits ex -> takes (h :: hits) ex
| takes_keep h hits ex t rest :
    text_of h = VStr (t ++ rest) -> t <> [] ->
    (rest <> [] -> ex = []) ->
    takes hits ex -> takes (h :: hits) ((h, t) :: ex).

(** The dictionary that [VectorTool.search] makes of an object of the
    answer. *)
Definition properties (obj : dict) : dict :=
  [("text", get obj "text");
   ("source_id", get obj "source_id");
   ("chunk_index", get obj "chunk_index");
   ("page", get obj "page")]%string.

Definition sum_len (ex : list (dict * str)) : Z :=
  fold_right (fun p a => (len (snd p) + a)%Z) 0%Z ex.

Definition labelled (ex : list (dict * str)) : list str :=
  map (fun p => label (fst p) (snd p)) ex.

End RagSpec.

Module MergeSpec.
Import Py Ingest.

(** The text of a chunk after the merge pass has absorbed the chunks
    [absorbed] into it, one after the other. *)
Definition glued (t : str) (absorbed : list chunk) : str :=
  fold_left (fun acc a => strip (acc ++ space :: text a)) absorbed t.

(** The returned chunk [c] stands for a group of emitted chunks: it keeps
    the index of the first of them and holds the texts of all. *)
Definition stands_for (group : list chunk) (c : chunk) : Prop :=
  match group with
  | [] => False
  | h :: absorbed =>
      chunk_index c = chunk_index h /\ text c = glued (text h) absorbed
  end.

(** The chunks of the groups that were absorbed into another. *)
Definition absorbed_of (groups : list (list chunk)) : list chunk :=
  concat (map (@tl chunk) groups).

End MergeSpec.

Module SearchSpec.
Import Py.

(** [sub in s]: the string [sub] occurs in [s]. *)
Definition occurs (sub s : str) : Prop := exists a b, s = a ++ sub ++ b.

End SearchSpec.

(** * Properties *)

(** ** Facts about the string primitives *)
Module PyFacts.
Import Py Spec.

Lemma isspace_space : isspace space = true.
Proof. reflexivity. Qed.

Lemma len_nil : len [] = 0%Z.
Proof. reflexivity. Qed.

Lemma len_cons c s : len (c :: s) = (len s + 1)%Z.
Proof. unfold len; simpl length; lia. Qed.

Lemma len_app a b : len (a ++ b) = (len a + len b)%Z.
Proof. unfold len; rewrite length_app; lia. Qed.

Lemma len_nonneg s : (0 <= len s)%Z.
Proof. unfold len; lia. Qed.

Lemma truthy_true s : truthy s = true <-> s <> [].
Proof. destruct s; simpl; split; congruence. Qed.

Lemma truthy_false s : truthy s = false <-> s = [].
Proof. destruct s; simpl; split; congruence. Qed.

(** *** [lstrip], [rstrip], [strip] *)

Lemma lstrip_split s :
  exists w, s = w ++ lstrip s /\ forallb isspace w = true.
Proof.
  induction s as [|c s IH]; simpl.
  - exists []; auto.
  - destruct (isspace c) eqn:E.
    + destruct IH as (w & Hw & Hs).
      exists (c :: w); simpl; rewrite E, Hs; split; [congruence | reflexivity].
    + exists []; auto.
Qed.

Lemma lstrip_starts_clean s : starts_clean (lstrip s) = true.
Proof.
  induction s as [|c s IH]; simpl; auto.
  destruct (isspace c) eqn:E; auto. simpl. now rewrite E.
Qed.

Lemma lstrip_id s : starts_clean s = true -> lstrip s = s.
Proof.
  destruct s as [|c s]; simpl; auto.
  destruct (isspace c); simpl; [discriminate | reflexivity].
Qed.

Lemma lstrip_spaces w s : forallb isspace w = true -> lstrip (w ++ s) = lstrip s.
Proof.
  induction w as [|c w IH]; simpl; auto.
  destruct (isspace c); simpl; [auto | discriminate].
Qed.

Lemma lstrip_all_space w : forallb isspace w = true -> lstrip w = [].
Proof.
  intros H. rewrite <- (app_nil_r w). now rewrite lstrip_spaces.
Qed.

Lemma rstrip_split s :
  exists w, s = rstrip s ++ w /\ forallb isspace w = true.
Proof.
  unfold rstrip. destruct (lstrip_split (rev s)) as (w & Hw & Hs).
  exists (rev w). split.
  - rewrite <- rev_app_distr, <- Hw. now rewrite rev_involutive.
  - rewrite forallb_forall in *. intros x Hx. apply Hs. now apply in_rev.
Qed.

(** [strip] removes a whitespace prefix and a whitespace suffix. *)
Lemma strip_split s :
  exists w1 w2, s = w1 ++ strip s ++ w2
                /\ forallb isspace w1 = true /\ forallb isspace w2 = true.
Proof.
  unfold strip.
  destruct (lstrip_split s) as (w1 & H1 & Hw1).
  destruct (rstrip_split (lstrip s)) as (w2 & H2 & Hw2).
  exists w1, w2. repeat split; auto. now rewrite <- H2.
Qed.

Lemma starts_clean_prefix a b :
  starts_clean (a ++ b) = true -> a <> [] -> starts_clean a = true.
Proof. destruct a; simpl; congruence. Qed.

Lemma strip_starts_clean s : starts_clean (strip s) = true.
Proof.
  unfold strip. destruct (rstrip_split (lstrip s)) as (w & Hw & _).
  destruct (rstrip (lstrip s)) as [|c r] eqn:E; auto.
  apply starts_clean_prefix with (b := w); [|discriminate].
  rewrite <- Hw. apply lstrip_starts_clean.
Qed.

Lemma strip_ends_clean s : starts_clean (rev (strip s)) = true.
Proof.
  unfold strip, rstrip. rewrite rev_involutive. apply lstrip_starts_clean.
Qed.

Lemma strip_tidy s : strip s <> [] -> tidy (strip s).
Proof.
  intros H. repeat split; auto using strip_starts_clean, strip_ends_clean.
Qed.

Lemma strip_id s :
  starts_clean s = true -> starts_clean (rev s) = true -> strip s = s.
Proof.
  intros H1 H2. unfold strip, rstrip.
  rewrite (lstrip_id s H1), (lstrip_id (rev s) H2). apply rev_involutive.
Qed.

Lemma tidy_strip s : tidy s -> strip s = s.
Proof. intros (_ & H1 & H2). now apply strip_id. Qed.

Lemma strip_length s : (length (strip s) <= length s)%nat.
Proof.
  destruct (strip_split s) as (w1 & w2 & H & _).
  rewrite H at 2. rewrite !length_app. lia.
Qed.

Lemma strip_len s : (len (strip s) <= len s)%Z.
Proof. unfold len. pose proof (strip_length s). lia. Qed.

Lemma strip_nil : strip [] = [].
Proof. reflexivity. Qed.

(** *** Non-whitespace content *)

Lemma nonws_app a b : nonws (a ++ b) = nonws a ++ nonws b.
Proof. apply filter_app. Qed.

Lemma nonws_spaces w : forallb isspace w = true -> nonws w = [].
Proof.
  induction w as [|c w IH]; simpl; auto.
  destruct (isspace c); simpl; [auto | discriminate].
Qed.

Lemma nonws_strip s : nonws (strip s) = nonws s.
Proof.
  destruct (strip_split s) as (w1 & w2 & H & H1 & H2).
  rewrite H at 2. rewrite !nonws_app, (nonws_spaces _ H1), (nonws_spaces _ H2).
  now rewrite app_nil_r.
Qed.

Lemma nonws_join l : nonws (join l) = nonws (concat l).
Proof.
  induction l as [|x l IH]; auto.
  destruct l as [|y l].
  - simpl. now rewrite app_nil_r.
  - change (join (x :: y :: l)) with (x ++ space :: join (y :: l)).
    change (concat (x :: y :: l)) with (x ++ concat (y :: l)).
    rewrite !nonws_app, <- IH. reflexivity.
Qed.

(** *** [join] *)

Lemma join_cons x l : l <> [] -> join (x :: l) = x ++ space :: join l.
Proof. destruct l; [congruence | reflexivity]. Qed.

Lemma len_join l : l <> [] -> len (join l) = (sum_len1 l - 1)%Z.
Proof.
  induction l as [|x l IH]; [congruence|]. intros _.
  destruct l as [|y l].
  - simpl. lia.
  - rewrite join_cons by discriminate.
    rewrite len_app, len_cons, IH by discriminate.
    change (sum_len1 (x :: y :: l)) with (len x + 1 + sum_len1 (y :: l))%Z.
    lia.
Qed.

Lemma sum_len1_app a b : sum_len1 (a ++ b) = (sum_len1 a + sum_len1 b)%Z.
Proof. induction a as [|x a IH]; simpl; lia. Qed.


End PyFacts.

(** ** The chunker *)
Module IngestFacts.
Import Py Spec PyFacts Ingest.
Local Open Scope Z_scope.

(** *** Slices within bounds *)

Lemma clip_id n i : 0 <= i <= n -> clip n i = i.
Proof. intros H. unfold clip. destruct (Z.ltb_spec i 0); lia. Qed.

Lemma slice_inside (t : str) a b :
  0 <= a <= b -> b <= len t ->
  slice t a b = firstn (Z.to_nat (b - a)) (skipn (Z.to_nat a) t).
Proof. intros H1 H2. unfold slice. rewrite !clip_id by lia. reflexivity. Qed.

Lemma slice_len (t : str) a b :
  0 <= a <= b -> b <= len t -> len (slice t a b) = b - a.
Proof.
  intros H1 H2. rewrite slice_inside by lia. unfold len in *.
  rewrite length_firstn, length_skipn. lia.
Qed.

Lemma slice_empty (t : str) a : 0 <= a <= len t -> slice t a a = [].
Proof.
  intros H. rewrite slice_inside by lia. now rewrite Z.sub_diag.
Qed.

(** The text from [a] on is the slice up to [b] followed by the text from
    [b] on. *)
Lemma skipn_slice (t : str) a b :
  0 <= a <= b -> b <= len t ->
  skipn (Z.to_nat a) t = slice t a b ++ skipn (Z.to_nat b) t.
Proof.
  intros H1 H2. rewrite slice_inside by lia.
  rewrite <- (firstn_skipn (Z.to_nat (b - a)) (skipn (Z.to_nat a) t)) at 1.
  f_equal. rewrite skipn_skipn. f_equal. lia.
Qed.

(** A slice is an infix of the text. *)
Lemma slice_infix (t : str) a b :
  0 <= a <= b -> b <= len t ->
  t = firstn (Z.to_nat a) t ++ slice t a b ++ skipn (Z.to_nat b) t.
Proof.
  intros H1 H2. rewrite <- skipn_slice by lia. now rewrite firstn_skipn.
Qed.

Lemma gtb_false a b : a <= b -> (a >? b) = false.
Proof. intros H. rewrite Z.gtb_ltb. apply Z.ltb_ge. lia. Qed.

Lemma gtb_true a b : (a >? b) = true -> b < a.
Proof. rewrite Z.gtb_ltb. apply Z.ltb_lt. Qed.

Lemma rindex_space_lt s k :
  rindex_space s = Some k -> (k < length s)%nat.
Proof.
  revert k. induction s as [|c s IH]; simpl; [discriminate|]. intros k.
  destruct (rindex_space s) as [j|].
  - intros [= <-]. specialize (IH j eq_refl). lia.
  - destruct (is_space_char c); [|discriminate]. intros [= <-]. lia.
Qed.

(** Inside the bounds, [rfind] answers [-1] or a position of the window. *)
Lemma rfind_space_range (t : str) a b :
  0 <= a <= b -> b <= len t ->
  rfind_space t a b = -1 \/ a <= rfind_space t a b < b.
Proof.
  intros H1 H2. unfold rfind_space. rewrite clip_id by lia.
  destruct (rindex_space (slice t a b)) as [k|] eqn:E; [right | now left].
  apply rindex_space_lt in E.
  pose proof (slice_len t H1 H2) as L. unfold len in L. lia.
Qed.

(** *** [_split_into_sentences] *)

Lemma scan_content s : forall in_sep aft acc,
  nonws (concat (re_split_scan in_sep aft acc s)) = nonws (rev acc ++ s).
Proof.
  induction s as [|c s IH]; intros in_sep aft acc; simpl.
  - now rewrite app_nil_r.
  - destruct (isspace c) eqn:E.
    + assert (N : nonws (rev acc ++ c :: s) = nonws (rev acc ++ s)).
      { rewrite !nonws_app. simpl. now rewrite E. }
      destruct in_sep; [|destruct aft].
      * now rewrite IH.
      * simpl. rewrite N, !nonws_app, IH. reflexivity.
      * rewrite IH. simpl. now rewrite <- app_assoc.
    + rewrite IH. simpl. now rewrite <- app_assoc.
Qed.

Lemma nonws_sentences_filter (l : list str) :
  nonws (concat (map strip
                     (filter (fun s => truthy s && truthy (strip s)) l)))
  = nonws (concat l).
Proof.
  induction l as [|p l IH]; simpl; auto.
  rewrite nonws_app, <- IH.
  destruct (truthy p && truthy (strip p)) eqn:E; simpl.
  - now rewrite nonws_app, nonws_strip.
  - replace (nonws p) with (@nil char); auto.
    apply andb_false_iff in E as [E|E]; apply truthy_false in E.
    + now subst.
    + now rewrite <- nonws_strip, E.
Qed.

(** Sentence splitting drops whitespace only. *)
Lemma split_into_sentences_content t :
  nonws (concat (_split_into_sentences t)) = nonws t.
Proof.
  unfold _split_into_sentences, re_split.
  rewrite nonws_sentences_filter, scan_content. simpl. apply nonws_strip.
Qed.

Lemma split_into_sentences_tidy t : Forall tidy (_split_into_sentences t).
Proof.
  unfold _split_into_sentences. apply Forall_forall. intros x Hx.
  apply in_map_iff in Hx as (p & <- & Hp).
  apply filter_In in Hp as (_ & Hp). apply andb_prop in Hp as (_ & Hp).
  apply strip_tidy. now apply truthy_true.
Qed.

Lemma no_break_app_inv a b :
  no_break (a ++ b) = true -> no_break a = true /\ no_break b = true.
Proof.
  induction a as [|x a IH]; simpl app; intros H.
  - auto.
  - destruct a as [|y a].
    + split; auto. destruct b; auto. simpl in H.
      now apply andb_prop in H.
    + change (negb (is_terminator x && isspace y)
              && no_break ((y :: a) ++ b) = true) in H.
      apply andb_prop in H as (H1 & H2). destruct (IH H2) as (A & B).
      split; auto.
      change (negb (is_terminator x && isspace y) && no_break (y :: a)
              = true).
      now rewrite H1, A.
Qed.

Lemma no_break_infix a b c : no_break (a ++ b ++ c) = true -> no_break b = true.
Proof.
  intros H. apply no_break_app_inv in H as (_ & H).
  now apply no_break_app_inv in H.
Qed.

Lemma no_break_strip s : no_break s = true -> no_break (strip s) = true.
Proof.
  destruct (strip_split s) as (w1 & w2 & H & _). intros N.
  rewrite H in N. now apply no_break_infix in N.
Qed.

Lemma head_term_app (a b : str) : a <> [] -> head_term (a ++ b) = head_term a.
Proof. destruct a; [congruence | reflexivity]. Qed.

Lemma no_break_snoc a c :
  no_break a = true -> head_term (rev a) && isspace c = false ->
  no_break (a ++ [c]) = true.
Proof.
  induction a as [|x a IH]; intros N H.
  - reflexivity.
  - destruct a as [|y a].
    + simpl in *. now rewrite H.
    + change (negb (is_terminator x && isspace y) && no_break (y :: a)
              = true) in N.
      apply andb_prop in N as (N1 & N2).
      change (negb (is_terminator x && isspace y)
              && no_break ((y :: a) ++ [c]) = true).
      rewrite N1, IH; auto.
      change (rev (x :: y :: a)) with (rev (y :: a) ++ [x]) in H.
      rewrite head_term_app in H; auto.
      intros E. apply (f_equal (@rev char)) in E.
      rewrite rev_involutive in E. discriminate.
Qed.

(** The pieces between the matches contain no match. *)
Lemma scan_no_break s : forall in_sep aft acc,
  no_break (rev acc) = true ->
  (in_sep = false -> aft = head_term acc) ->
  Forall (fun p => no_break p = true) (re_split_scan in_sep aft acc s).
Proof.
  induction s as [|c s IH]; intros in_sep aft acc N A; simpl.
  - auto.
  - destruct (isspace c) eqn:E.
    + destruct in_sep; [|destruct aft].
      * apply IH; auto. discriminate.
      * constructor; auto.
      * apply IH; [|intros _].
        -- simpl. apply no_break_snoc; auto. rewrite rev_involutive.
           now rewrite <- (A eq_refl).
        -- simpl. unfold is_terminator.
           assert (T : isspace c = true -> (c =? 46)%N = false
                       /\ (c =? 33)%N = false /\ (c =? 63)%N = false).
           { intros H. repeat split; apply N.eqb_neq; intros ->; discriminate H. }
           destruct (T E) as (-> & -> & ->). reflexivity.
    + apply IH; auto. simpl. apply no_break_snoc; auto. now rewrite E, andb_false_r.
Qed.

Lemma split_into_sentences_good t : Forall good (_split_into_sentences t).
Proof.
  pose proof (split_into_sentences_tidy t) as T.
  rewrite Forall_forall in *. intros x Hx. split; auto.
  unfold _split_into_sentences in Hx.
  apply in_map_iff in Hx as (p & <- & Hp).
  apply filter_In in Hp as (Hp & _). apply no_break_strip.
  pose proof (@scan_no_break (strip t) false false [] eq_refl (fun _ => eq_refl))
    as F.
  rewrite Forall_forall in F. now apply F.
Qed.

(** *** Texts that split back into their own sentences *)



Lemma is_space_char_eq c : is_space_char c = true -> c = space.
Proof. apply N.eqb_eq. Qed.

Lemma starts_clean_app (a b : str) :
  a <> [] -> starts_clean (a ++ b) = starts_clean a.
Proof. destruct a; [congruence | reflexivity]. Qed.

Lemma rev_not_nil (a : str) : a <> [] -> rev a <> [].
Proof.
  intros H E. apply H. rewrite <- (rev_involutive a), E. reflexivity.
Qed.

Lemma tidy_starts_nonspace s : tidy s -> starts_nonspace s = true.
Proof. intros (H & H1 & _). destruct s; [congruence | exact H1]. Qed.

Lemma no_break_single_breaks s : forall aft,
  no_break s = true -> (aft = true -> starts_clean s = true) ->
  single_breaks aft s = true.
Proof.
  induction s as [|c s IH]; intros aft N A; simpl.
  - reflexivity.
  - rewrite IH.
    + destruct aft; simpl; auto.
      specialize (A eq_refl). simpl in A.
      apply negb_true_iff in A. now rewrite A.
    + destruct s; auto. simpl in N. now apply andb_prop in N.
    + intros T. destruct s as [|d s]; auto. simpl in N |- *.
      apply andb_prop in N as (N & _). rewrite T in N. simpl in N. exact N.
Qed.

Lemma good_nice s : good s -> nice s.
Proof.
  intros (T & N). split; auto. apply no_break_single_breaks; auto.
  discriminate.
Qed.

Lemma single_breaks_glue a : forall aft b,
  a <> [] -> starts_clean (rev a) = true -> tidy b ->
  single_breaks aft a = true -> single_breaks false b = true ->
  single_breaks aft (a ++ space :: b) = true.
Proof.
  induction a as [|x a IH]; intros aft b Ha Hr Tb Sa Sb; [congruence|].
  destruct a as [|y a].
  - simpl in Hr. apply negb_true_iff in Hr.
    simpl. rewrite Hr, andb_false_r.
    change (is_terminator space) with false.
    rewrite Sb, (tidy_starts_nonspace Tb).
    destruct (is_terminator x); reflexivity.
  - simpl in Sa. apply andb_prop in Sa as (S1 & S2).
    change (x :: y :: a) with ([x] ++ (y :: a)) in Hr.
    rewrite rev_app_distr, starts_clean_app in Hr
      by (apply rev_not_nil; discriminate).
    simpl app. simpl single_breaks at 1. simpl starts_nonspace.
    rewrite S1. simpl andb. apply (IH _ b); auto. discriminate.
Qed.

Lemma tidy_glue (a b : str) : tidy a -> tidy b -> tidy (a ++ space :: b).
Proof.
  intros (Ha & Ha1 & Ha2) (Hb & Hb1 & Hb2). repeat split.
  - destruct a; [congruence | discriminate].
  - now rewrite starts_clean_app.
  - rewrite rev_app_distr. simpl rev. rewrite <- !app_assoc.
    rewrite starts_clean_app; auto using rev_not_nil.
Qed.

Lemma nice_glue a b : nice a -> nice b -> nice (a ++ space :: b).
Proof.
  intros (Ta & Sa) (Tb & Sb). split.
  - now apply tidy_glue.
  - destruct Ta as (Ha & _ & Hr). now apply single_breaks_glue.
Qed.

Lemma nice_join l : l <> [] -> Forall nice l -> nice (join l).
Proof.
  induction l as [|x l IH]; [congruence|]. intros _ F.
  inversion F; subst. destruct l as [|y l]; auto.
  rewrite join_cons by discriminate. apply nice_glue; auto.
  apply IH; auto. discriminate.
Qed.





Section Agent.
Variables chunk_size_chars min_chunk_chars : Z.

Notation split_step := (split_step chunk_size_chars).
Notation split_loop := (split_loop chunk_size_chars).
Notation _split_long_text_fuel := (_split_long_text_fuel chunk_size_chars).
Notation _split_long_text := (_split_long_text chunk_size_chars).
Notation window_part := (window_part chunk_size_chars).

(** *** [_split_long_text] *)

(** One iteration, for a positive chunk size: [start] advances, stays
    within the text, and at most one part, that of the window, is
    appended. *)
Lemma split_step_spec (t : str) start parts :
  1 <= chunk_size_chars -> 0 <= start < len t ->
  exists e,
    start < e <= len t /\ e - start <= chunk_size_chars
    /\ split_step t (start, parts)
       = (e, if truthy (strip (slice t start e))
             then parts ++ [strip (slice t start e)] else parts).
Proof.
  intros Hc Hs. unfold split_step.
  set (end0 := Z.min (start + chunk_size_chars) (len t)).
  assert (He0 : start < end0 <= len t) by (unfold end0; lia).
  assert (He0' : end0 - start <= chunk_size_chars) by (unfold end0; lia).
  destruct (end0 <? len t) eqn:E1.
  - destruct (rfind_space_range t (a := start) (b := end0)) as [R|R];
      try lia.
    + rewrite R, gtb_false by lia.
      exists end0. repeat split; lia || auto.
    + destruct (rfind_space t start end0 >? start) eqn:E2.
      * apply gtb_true in E2.
        exists (rfind_space t start end0). repeat split; lia || auto.
      * exists end0. repeat split; lia || auto.
  - exists end0. repeat split; lia || auto.
Qed.

(** Without a positive chunk size: with [chunk_size_chars = 0] an
    iteration changes nothing. *)
Lemma split_step_stuck (t : str) start parts :
  chunk_size_chars = 0 -> 0 <= start < len t ->
  split_step t (start, parts) = (start, parts).
Proof.
  intros Hc Hs. unfold split_step. rewrite Hc, Z.add_0_r.
  rewrite Z.min_l by lia.
  replace (start <? len t) with true by (symmetry; apply Z.ltb_lt; lia).
  unfold rfind_space. rewrite slice_empty by lia.
  simpl rindex_space. cbv iota.
  rewrite gtb_false by lia.
  rewrite slice_empty by lia. reflexivity.
Qed.

Lemma split_loop_eq fuel (t : str) start parts :
  split_loop fuel t (start, parts)
  = if start <? len t then
      match fuel with
      | O => None
      | S fuel' => split_loop fuel' t (split_step t (start, parts))
      end
    else Some parts.
Proof. destruct fuel; reflexivity. Qed.

Lemma split_loop_stuck fuel (t : str) start parts :
  chunk_size_chars = 0 -> 0 <= start < len t ->
  split_loop fuel t (start, parts) = None.
Proof.
  intros Hc Hs. induction fuel as [|f IH]; rewrite split_loop_eq;
    replace (start <? len t) with true by (symmetry; apply Z.ltb_lt; lia).
  - reflexivity.
  - rewrite split_step_stuck by assumption. exact IH.
Qed.

(** With a positive chunk size the loop ends within [len t - start]
    iterations; its parts are window parts and keep the non-whitespace
    content of the rest of the text. *)
Lemma split_loop_fuel_enough fuel (t : str) :
  1 <= chunk_size_chars ->
  forall start parts,
    0 <= start <= len t -> len t - start <= Z.of_nat fuel ->
    exists parts',
      split_loop fuel t (start, parts) = Some (parts ++ parts')
      /\ Forall (window_part t) parts'
      /\ nonws (concat parts') = nonws (skipn (Z.to_nat start) t).
Proof.
  intros Hc. induction fuel as [|f IH]; intros start parts Hs Hf;
    rewrite split_loop_eq.
  - assert (start = len t) by lia. subst start.
    exists []. rewrite Z.ltb_irrefl, app_nil_r.
    repeat split; auto. unfold len. rewrite Nat2Z.id, skipn_all.
    reflexivity.
  - destruct (start <? len t) eqn:E.
    + apply Z.ltb_lt in E.
      destruct (split_step_spec t parts Hc (conj (proj1 Hs) E))
        as (e & He & Hw & ->).
      rewrite (skipn_slice t (a := start) (b := e)) by lia.
      rewrite nonws_app, <- nonws_strip.
      destruct (truthy (strip (slice t start e))) eqn:T.
      * destruct (IH e (parts ++ [strip (slice t start e)]))
          as (ps & Hps & Hall & Hn); try lia.
        exists (strip (slice t start e) :: ps).
        rewrite Hps, <- app_assoc. repeat split; auto.
        -- constructor; auto. exists start, e.
           apply truthy_true in T. repeat split; auto; lia.
        -- simpl concat. rewrite nonws_app, Hn. reflexivity.
      * destruct (IH e parts) as (ps & Hps & Hall & Hn); try lia.
        exists ps. rewrite Hps. repeat split; auto.
        apply truthy_false in T. rewrite T. exact Hn.
    + apply Z.ltb_ge in E. assert (start = len t) by lia. subst start.
      exists []. rewrite app_nil_r. repeat split; auto.
      unfold len. rewrite Nat2Z.id, skipn_all. reflexivity.
Qed.

Lemma window_part_len (t p : str) :
  window_part t p -> len p <= chunk_size_chars.
Proof.
  intros (a & b & H1 & H2 & H3 & -> & _).
  pose proof (strip_len (slice t a b)).
  rewrite slice_len in H by lia. lia.
Qed.

Lemma window_part_tidy (t p : str) : window_part t p -> tidy p.
Proof.
  intros (a & b & H1 & H2 & H3 & -> & Hne). now apply strip_tidy.
Qed.

(** The parts of a text longer than the chunk size. *)
Lemma split_long_text_long (t : str) :
  1 <= chunk_size_chars -> chunk_size_chars < len t ->
  exists parts,
    _split_long_text t = Some parts
    /\ Forall (window_part t) parts
    /\ nonws (concat parts) = nonws t.
Proof.
  intros Hc Hl. unfold _split_long_text, Ingest._split_long_text_fuel.
  replace (len t <=? chunk_size_chars) with false
    by (symmetry; apply Z.leb_gt; lia).
  destruct (@split_loop_fuel_enough (length t) t Hc 0 [])
    as (ps & H & Hall & Hn).
  - pose proof (len_nonneg t). lia.
  - unfold len. lia.
  - exists ps. repeat split; auto.
Qed.

(** *** The first loop of [_aggregate_sentences_to_chunks] *)

Variables (sid : str) (pg : option Z).

Notation emit_step := (emit_step chunk_size_chars sid pg).
Notation emit_loop := (emit_loop chunk_size_chars sid pg).
Notation emit_chunks := (emit_chunks chunk_size_chars sid pg).
Notation number := (number sid pg).
Notation push_chunk := (push_chunk sid pg).
Notation flush_buffer := (flush_buffer sid pg).

Lemma number_app i a b :
  number i (a ++ b) = number i a ++ number (i + Z.of_nat (length a)) b.
Proof.
  revert i. induction a as [|x a IH]; intros i; simpl.
  - now rewrite Z.add_0_r.
  - rewrite IH. do 3 f_equal. lia.
Qed.

Lemma number_texts i ts : map text (number i ts) = ts.
Proof. revert i. induction ts as [|t ts IH]; intros i; simpl; congruence. Qed.

Lemma number_length i ts : length (number i ts) = length ts.
Proof. revert i. induction ts as [|t ts IH]; intros i; simpl; congruence. Qed.

Lemma push_fold parts st :
  fold_left push_chunk parts st
  = mk_state (chunks st ++ number (idx st) parts) (buffer st)
             (buffer_len st) (idx st + Z.of_nat (length parts)).
Proof.
  revert st. induction parts as [|p parts IH]; intros st.
  - simpl. rewrite app_nil_r, Z.add_0_r. now destruct st.
  - simpl fold_left. rewrite IH. unfold Ingest.push_chunk; simpl.
    rewrite <- app_assoc. simpl. f_equal. lia.
Qed.

Lemma flush_eq st :
  flush_buffer st
  = mk_state (chunks st ++ number (idx st) (flushed (buffer st)))
             (buffer st) (buffer_len st)
             (idx st + Z.of_nat (length (flushed (buffer st)))).
Proof.
  unfold Ingest.flush_buffer, flushed.
  destruct (truthy (strip (join (buffer st)))); simpl.
  - reflexivity.
  - rewrite app_nil_r, Z.add_0_r. now destruct st.
Qed.

Lemma flushed_nil : flushed [] = [].
Proof. reflexivity. Qed.

(** The three cases of the loop body. *)
Lemma emit_step_cases st sent st' :
  emit_step st sent = Some st' ->
  exists news,
    chunks st' = chunks st ++ number (idx st) news
    /\ idx st' = idx st + Z.of_nat (length news)
    /\ ((chunk_size_chars < len sent
         /\ (exists parts, _split_long_text sent = Some parts
                           /\ news = flushed (buffer st) ++ parts)
         /\ buffer st' = []
         /\ (buffer_len st' = 0
             \/ buffer st = [] /\ buffer_len st' = buffer_len st))
        \/ (len sent <= chunk_size_chars
            /\ buffer_len st + len sent + 1 <= chunk_size_chars
            /\ news = []
            /\ buffer st' = buffer st ++ [sent]
            /\ buffer_len st' = buffer_len st + len sent + 1)
        \/ (len sent <= chunk_size_chars
            /\ chunk_size_chars < buffer_len st + len sent + 1
            /\ news = flushed (buffer st)
            /\ buffer st' = [sent]
            /\ buffer_len st' = len sent + 1)).
Proof.
  unfold Ingest.emit_step.
  destruct (len sent >? chunk_size_chars) eqn:E1.
  - apply gtb_true in E1.
    destruct (_split_long_text sent) as [parts|] eqn:Es; [|discriminate].
    intros [= <-]. exists (flushed (buffer st) ++ parts).
    rewrite push_fold. destruct (buffer st) as [|b0 bs] eqn:Eb.
    + rewrite flushed_nil. simpl. repeat split; auto.
      left. repeat split; eauto.
    + unfold Ingest.set_buffer. rewrite flush_eq, Eb. simpl chunks.
      simpl idx. simpl buffer. simpl buffer_len.
      rewrite number_app, length_app, <- app_assoc. repeat split.
      * lia.
      * left. repeat split; eauto.
  - rewrite Z.gtb_ltb in E1. apply Z.ltb_ge in E1.
    destruct (buffer_len st + len sent + 1 <=? chunk_size_chars) eqn:E2.
    + apply Z.leb_le in E2. intros [= <-]. exists []. simpl.
      rewrite app_nil_r, Z.add_0_r. repeat split; auto.
      right; left. repeat split; auto.
    + apply Z.leb_gt in E2. intros [= <-].
      exists (flushed (buffer st)). unfold Ingest.set_buffer.
      rewrite flush_eq. simpl. repeat split; auto.
      right; right. repeat split; auto.
Qed.

Lemma split_long_text_parts (t : str) parts :
  1 <= chunk_size_chars -> chunk_size_chars < len t ->
  _split_long_text t = Some parts ->
  Forall (window_part t) parts /\ nonws (concat parts) = nonws t.
Proof.
  intros Hc Hl H.
  destruct (split_long_text_long t Hc Hl) as (ps & Hps & Hall & Hn).
  rewrite H in Hps. injection Hps as <-. auto.
Qed.

Lemma emit_step_total st sent :
  1 <= chunk_size_chars -> exists st', emit_step st sent = Some st'.
Proof.
  intros Hc. unfold Ingest.emit_step.
  destruct (len sent >? chunk_size_chars) eqn:E1.
  - apply gtb_true in E1.
    destruct (split_long_text_long sent Hc E1) as (ps & -> & _). eauto.
  - destruct (buffer_len st + len sent + 1 <=? chunk_size_chars); eauto.
Qed.

Lemma nonws_flushed b : nonws (concat (flushed b)) = nonws (concat b).
Proof.
  unfold flushed. destruct (truthy (strip (join b))) eqn:T.
  - simpl. now rewrite app_nil_r, nonws_strip, nonws_join.
  - apply truthy_false in T.
    rewrite <- (nonws_join b), <- (nonws_strip (join b)), T. reflexivity.
Qed.

Lemma flushed_origin sents b :
  incl b sents -> sum_len1 b <= chunk_size_chars + 1 ->
  Forall (origin chunk_size_chars sents) (flushed b).
Proof.
  intros Hi Hs. unfold flushed.
  destruct (truthy (strip (join b))) eqn:T; constructor; auto.
  apply truthy_true in T. left. exists b. repeat split; auto.
  intros ->. now apply T.
Qed.

Lemma parts_origin sents sent parts :
  In sent sents -> chunk_size_chars < len sent ->
  Forall (window_part sent) parts ->
  Forall (origin chunk_size_chars sents) parts.
Proof.
  intros Hi Hl. apply Forall_impl. intros p Hp. right. eauto.
Qed.

Lemma emit_step_inv sents st sent st' :
  1 <= chunk_size_chars -> In sent sents ->
  agg_inv chunk_size_chars sid pg sents st ->
  emit_step st sent = Some st' ->
  agg_inv chunk_size_chars sid pg sents st'.
Proof.
  intros Hc Hin (I1 & I2 & I3 & I4 & I5 & I6) H.
  destruct (emit_step_cases _ _ H) as (news & C1 & C2 & Hcase).
  assert (Hnews : Forall (origin chunk_size_chars sents) news).
  { destruct Hcase as [(Hl & (parts & Hp & ->) & _)
                      |[(_ & _ & -> & _)|(_ & _ & -> & _)]].
    - apply Forall_app. split.
      + apply flushed_origin; auto. lia.
      + eapply parts_origin; eauto.
        now apply (split_long_text_parts sent Hc Hl).
    - constructor.
    - apply flushed_origin; auto. lia. }
  unfold agg_inv. rewrite C1, C2, map_app, number_texts.
  split; [|split; [|split; [|split; [|split]]]].
  - rewrite number_app, <- I1, length_map, <- I2. reflexivity.
  - rewrite length_app, number_length. lia.
  - apply Forall_app. auto.
  - destruct Hcase as [(_ & _ & -> & _)
                      |[(_ & _ & _ & -> & _)|(_ & _ & _ & -> & _)]].
    + apply incl_nil_l.
    + apply incl_app; auto. now apply incl_cons; [|apply incl_nil_l].
    + now apply incl_cons; [|apply incl_nil_l].
  - destruct Hcase as [(_ & _ & -> & [->|(Hb & ->)])
                      |[(_ & _ & _ & -> & ->)|(_ & _ & _ & -> & ->)]].
    + reflexivity.
    + rewrite Hb in I5. exact I5.
    + rewrite sum_len1_app. simpl. lia.
    + simpl. lia.
  - destruct Hcase as [(_ & _ & _ & [->|(Hb & ->)])
                      |[(_ & ? & _ & _ & ->)|(? & _ & _ & _ & ->)]]; lia.
Qed.

Lemma emit_step_content st sent st' :
  1 <= chunk_size_chars ->
  emit_step st sent = Some st' ->
  nonws (concat (map text (chunks st')) ++ concat (buffer st'))
  = nonws (concat (map text (chunks st)) ++ concat (buffer st) ++ sent).
Proof.
  intros Hc H.
  destruct (emit_step_cases _ _ H) as (news & C1 & _ & Hcase).
  rewrite C1, map_app, number_texts, concat_app, !nonws_app.
  rewrite <- app_assoc. f_equal.
  destruct Hcase as [(Hl & (parts & Hp & ->) & -> & _)
                    |[(_ & _ & -> & -> & _)|(_ & _ & -> & -> & _)]].
  - rewrite concat_app, nonws_app, nonws_flushed. simpl. rewrite app_nil_r.
    f_equal. now apply (split_long_text_parts sent Hc Hl).
  - simpl. rewrite concat_app, nonws_app. simpl. now rewrite app_nil_r.
  - rewrite nonws_flushed. simpl. now rewrite app_nil_r.
Qed.

Lemma emit_loop_total rest st :
  1 <= chunk_size_chars -> exists st', emit_loop st rest = Some st'.
Proof.
  intros Hc. revert st. induction rest as [|sent rest IH]; intros st; simpl.
  - eauto.
  - destruct (emit_step_total st sent Hc) as (st1 & ->). apply IH.
Qed.

Lemma emit_loop_inv sents rest st st' :
  1 <= chunk_size_chars -> incl rest sents ->
  agg_inv chunk_size_chars sid pg sents st ->
  emit_loop st rest = Some st' ->
  agg_inv chunk_size_chars sid pg sents st'.
Proof.
  intros Hc. revert st. induction rest as [|sent rest IH]; intros st Hi I;
    simpl.
  - now intros [= <-].
  - destruct (emit_step st sent) as [st1|] eqn:E; [|discriminate].
    apply IH.
    + eapply incl_cons_inv; eauto.
    + eapply emit_step_inv; eauto. apply Hi. now left.
Qed.

Lemma emit_loop_content rest st st' :
  1 <= chunk_size_chars ->
  emit_loop st rest = Some st' ->
  nonws (concat (map text (chunks st')) ++ concat (buffer st'))
  = nonws (concat (map text (chunks st)) ++ concat (buffer st)
           ++ concat rest).
Proof.
  intros Hc. revert st. induction rest as [|sent rest IH]; intros st; simpl.
  - intros [= <-]. now rewrite app_nil_r.
  - destruct (emit_step st sent) as [st1|] eqn:E; [|discriminate].
    intros H. rewrite (IH _ H).
    rewrite (app_assoc (concat (map text (chunks st1)))), nonws_app.
    rewrite (emit_step_content _ _ Hc E), <- nonws_app, <- !app_assoc.
    reflexivity.
Qed.

Lemma agg_inv_init sents :
  1 <= chunk_size_chars ->
  agg_inv chunk_size_chars sid pg sents (mk_state [] [] 0 0).
Proof.
  intros Hc. unfold agg_inv; simpl. repeat split; auto.
  - apply incl_nil_l.
  - lia.
Qed.

(** The chunks before the merge pass: numbered from 0 in the order of
    emission, each with a known origin, and with the non-whitespace
    content of the sentences. *)
Lemma emit_chunks_spec sents cs :
  1 <= chunk_size_chars ->
  emit_chunks sents = Some cs ->
  exists texts,
    cs = number 0 texts
    /\ Forall (origin chunk_size_chars sents) texts
    /\ nonws (concat texts) = nonws (concat sents).
Proof.
  intros Hc. unfold Ingest.emit_chunks.
  destruct (emit_loop (mk_state [] [] 0 0) sents) as [st|] eqn:E;
    [|discriminate].
  intros [= <-].
  pose proof (emit_loop_inv Hc (incl_refl sents) (agg_inv_init sents Hc) E)
    as (I1 & I2 & I3 & I4 & I5 & I6).
  pose proof (emit_loop_content _ _ Hc E) as Hn. simpl in Hn.
  exists (map text (chunks st) ++ flushed (buffer st)). split; [|split].
  - rewrite number_app, <- I1, length_map, <- I2. simpl.
    destruct (buffer st) eqn:Eb.
    { rewrite flushed_nil. simpl. now rewrite app_nil_r. }
    rewrite flush_eq, Eb. reflexivity.
  - apply Forall_app. split; auto. apply flushed_origin; auto. lia.
  - rewrite concat_app, nonws_app, nonws_flushed, <- nonws_app. exact Hn.
Qed.

Lemma emit_chunks_total sents :
  1 <= chunk_size_chars -> exists cs, emit_chunks sents = Some cs.
Proof.
  intros Hc. unfold Ingest.emit_chunks.
  destruct (emit_loop_total sents (mk_state [] [] 0 0) Hc) as (st & ->).
  eauto.
Qed.

(** *** The merge pass *)

Notation mergeable := (mergeable chunk_size_chars min_chunk_chars).
Notation merge_step := (merge_step chunk_size_chars min_chunk_chars).
Notation merge_pass := (merge_pass chunk_size_chars min_chunk_chars).
Notation merge_from := (merge_from chunk_size_chars min_chunk_chars).

Lemma merge_fold cs done prev :
  fold_left merge_step cs (done ++ [prev]) = done ++ merge_from prev cs.
Proof.
  revert done prev. induction cs as [|c cs IH]; intros done prev; simpl.
  - reflexivity.
  - unfold Ingest.merge_step at 2. rewrite rev_app_distr. simpl.
    destruct (mergeable prev c).
    + rewrite rev_involutive. apply IH.
    + rewrite IH, <- app_assoc. reflexivity.
Qed.

Lemma merge_pass_nil : merge_pass [] = [].
Proof. reflexivity. Qed.

Lemma merge_pass_cons c cs : merge_pass (c :: cs) = merge_from c cs.
Proof. exact (merge_fold cs [] c). Qed.

Lemma absorb_wf p c :
  wf_chunk p -> wf_chunk c ->
  wf_chunk (absorb p c)
  /\ text (absorb p c) = text p ++ space :: text c
  /\ char_len (absorb p c) = char_len p + 1 + char_len c.
Proof.
  intros (Tp & Lp) (Tc & Lc).
  pose proof (tidy_glue Tp Tc) as T.
  unfold absorb, wf_chunk; simpl. rewrite (tidy_strip T).
  repeat split; try apply T.
  rewrite len_app, len_cons. lia.
Qed.

Lemma merge_from_head prev cs :
  exists h tl, merge_from prev cs = h :: tl
               /\ chunk_index h = chunk_index prev
               /\ (wf_chunk prev -> Forall wf_chunk cs ->
                   char_len prev <= char_len h).
Proof.
  revert prev. induction cs as [|c cs IH]; intros prev; simpl.
  - exists prev, []. repeat split; auto. lia.
  - destruct (mergeable prev c).
    + destruct (IH (absorb prev c)) as (h & tl & -> & Hi & Hl).
      exists h, tl. repeat split; auto.
      intros Wp Wc. inversion Wc; subst.
      destruct (absorb_wf Wp H1) as (W & _ & L).
      specialize (Hl W H2). destruct H1 as (_ & H1).
      pose proof (len_nonneg (text c)). lia.
    + exists prev, (merge_from c cs). repeat split; auto. lia.
Qed.

Lemma merge_from_wf prev cs :
  wf_chunk prev -> Forall wf_chunk cs -> Forall wf_chunk (merge_from prev cs).
Proof.
  revert prev. induction cs as [|c cs IH]; intros prev Wp Wc; simpl.
  - auto.
  - inversion Wc; subst. destruct (mergeable prev c).
    + apply IH; auto. now apply absorb_wf.
    + constructor; auto.
Qed.

(** The size bound is a precondition of every absorption. *)
Lemma merge_from_bound prev cs :
  wf_chunk prev -> Forall wf_chunk cs ->
  char_len prev <= chunk_size_chars ->
  Forall (fun c => char_len c <= chunk_size_chars) cs ->
  Forall (fun c => char_len c <= chunk_size_chars) (merge_from prev cs).
Proof.
  revert prev. induction cs as [|c cs IH]; intros prev Wp Wc Bp Bc; simpl.
  - auto.
  - inversion Wc; subst. inversion Bc; subst.
    destruct (mergeable prev c) eqn:M.
    + destruct (absorb_wf Wp H1) as (W & _ & L). apply IH; auto.
      unfold Ingest.mergeable in M. apply andb_prop in M as (_ & M).
      apply Z.leb_le in M. lia.
    + constructor; auto.
Qed.

Lemma merge_from_content prev cs :
  nonws (concat (map text (merge_from prev cs)))
  = nonws (concat (map text (prev :: cs))).
Proof.
  revert prev. induction cs as [|c cs IH]; intros prev; simpl.
  - reflexivity.
  - destruct (mergeable prev c).
    + rewrite IH. simpl. rewrite !nonws_app, nonws_strip, nonws_app.
      simpl. rewrite <- app_assoc. reflexivity.
    + simpl. rewrite !nonws_app, IH. simpl. now rewrite nonws_app.
Qed.

(** Indices are kept, never renumbered: the output carries a strictly
    increasing selection of the indices of the input. *)
Lemma merge_from_indices prev cs :
  StronglySorted Z.lt (map chunk_index (prev :: cs)) ->
  StronglySorted Z.lt (map chunk_index (merge_from prev cs))
  /\ incl (map chunk_index (merge_from prev cs))
          (map chunk_index (prev :: cs)).
Proof.
  revert prev. induction cs as [|c cs IH]; intros prev S; simpl.
  - split; auto. apply incl_refl.
  - simpl in S. apply StronglySorted_inv in S as (S1 & S2).
    inversion S2; subst.
    destruct (mergeable prev c).
    + destruct (IH (absorb prev c)) as (A & B).
      * simpl. constructor; auto. now apply StronglySorted_inv in S1.
      * split; auto. intros x Hx. apply B in Hx. simpl in Hx |- *. tauto.
    + destruct (IH c S1) as (A & B). split.
      * simpl. constructor; auto.
        apply Forall_forall. intros x Hx. apply B in Hx.
        rewrite Forall_forall in S2. apply S2. exact Hx.
      * simpl. intros x [Hx|Hx]; [now left | right]. now apply B.
Qed.

(** The merge pass leaves no pair of neighbours that it would merge. *)
Lemma merge_from_adjacent prev cs :
  wf_chunk prev -> Forall wf_chunk cs ->
  no_mergeable_pair chunk_size_chars min_chunk_chars (merge_from prev cs).
Proof.
  revert prev. induction cs as [|c cs IH]; intros prev Wp Wc.
  - simpl. auto.
  - inversion Wc; subst. simpl merge_from.
    destruct (mergeable prev c) eqn:M.
    + apply IH; auto. now apply absorb_wf.
    + specialize (IH c H1 H2).
      destruct (merge_from_head c cs) as (h & tl & E & _ & Hl).
      rewrite E in *. split; auto.
      intros (A & B & C). specialize (Hl H1 H2).
      unfold Ingest.mergeable in M. apply andb_false_iff in M as [M|M].
      * apply Z.ltb_ge in M. lia.
      * apply Z.leb_gt in M. lia.
Qed.


(** *** The chunks of [_aggregate_sentences_to_chunks] *)

Lemma origin_tidy sents t : origin chunk_size_chars sents t -> tidy t.
Proof.
  intros [(b & _ & _ & _ & -> & H)|(s0 & _ & _ & H)].
  - now apply strip_tidy.
  - eapply window_part_tidy; eauto.
Qed.

Lemma origin_bound sents t :
  origin chunk_size_chars sents t -> len t <= chunk_size_chars.
Proof.
  intros [(b & Hb & _ & Hs & -> & _)|(s0 & _ & _ & H)].
  - pose proof (strip_len (join b)). rewrite len_join in H by assumption.
    lia.
  - eapply window_part_len; eauto.
Qed.

Lemma window_part_good s0 p : good s0 -> window_part s0 p -> good p.
Proof.
  intros (_ & N) W. split; [eapply window_part_tidy; eauto|].
  destruct W as (a & b & H1 & H2 & _ & -> & _).
  apply no_break_strip.
  rewrite (slice_infix s0 H1 H2) in N. now apply no_break_infix in N.
Qed.

Lemma origin_nice sents t :
  Forall good sents -> origin chunk_size_chars sents t -> nice t.
Proof.
  intros G [(b & Hb & Hi & _ & -> & _)|(s0 & Hi & _ & W)].
  - assert (N : nice (join b)).
    { apply nice_join; auto. apply Forall_forall. intros x Hx.
      apply good_nice. rewrite Forall_forall in G. auto. }
    rewrite (tidy_strip (proj1 N)). exact N.
  - apply good_nice. apply window_part_good with s0; auto.
    rewrite Forall_forall in G. auto.
Qed.

Lemma number_wf i ts : Forall tidy ts -> Forall wf_chunk (number i ts).
Proof.
  intros F. revert i. induction F as [|t ts Ht F IH]; intros i; simpl;
    constructor; auto. split; auto.
Qed.

Lemma number_indices i ts :
  map chunk_index (number i ts) = zseq i (length ts).
Proof.
  revert i. induction ts as [|t ts IH]; intros i; simpl; auto.
  now rewrite IH.
Qed.

Lemma zseq_ge i n : Forall (fun x => i <= x) (zseq i n).
Proof.
  revert i. induction n as [|n IH]; intros i; simpl; constructor.
  - lia.
  - eapply Forall_impl; [|apply IH]. simpl. intros; lia.
Qed.

Lemma zseq_sorted i n : StronglySorted Z.lt (zseq i n).
Proof.
  revert i. induction n as [|n IH]; intros i; simpl; constructor; auto.
  eapply Forall_impl; [|apply zseq_ge]. simpl. intros; lia.
Qed.

Lemma number_char_len i ts :
  Forall (fun c => char_len c = len (text c)) (number i ts).
Proof.
  revert i. induction ts as [|t ts IH]; intros i; simpl; constructor; auto.
Qed.

Lemma number_forall_text (P : str -> Prop) i ts :
  Forall P ts -> Forall (fun c => P (text c)) (number i ts).
Proof.
  intros F. revert i. induction F; intros i; simpl; constructor; auto.
Qed.

Lemma merge_from_nice prev cs :
  wf_chunk prev -> Forall wf_chunk cs ->
  nice (text prev) -> Forall (fun c => nice (text c)) cs ->
  Forall (fun c => nice (text c)) (merge_from prev cs).
Proof.
  revert prev. induction cs as [|c cs IH]; intros prev Wp Wc Np Nc; simpl.
  - auto.
  - inversion Wc; subst. inversion Nc; subst.
    destruct (mergeable prev c).
    + destruct (absorb_wf Wp H1) as (W & T & _). apply IH; auto.
      rewrite T. now apply nice_glue.
    + constructor; auto.
Qed.

(** What [_aggregate_sentences_to_chunks] returns, for a positive chunk
    size. *)
Lemma aggregate_spec sents out :
  1 <= chunk_size_chars ->
  _aggregate_sentences_to_chunks chunk_size_chars min_chunk_chars
                                 sents sid pg = Some out ->
  exists texts,
    emit_chunks sents = Some (number 0 texts)
    /\ out = merge_pass (number 0 texts)
    /\ Forall wf_chunk (number 0 texts)
    /\ Forall wf_chunk out
    /\ Forall (fun c => char_len c <= chunk_size_chars) out
    /\ nonws (concat (map text out)) = nonws (concat sents)
    /\ StronglySorted Z.lt (map chunk_index out)
    /\ incl (map chunk_index out) (zseq 0 (length texts))
    /\ no_mergeable_pair chunk_size_chars min_chunk_chars out
    /\ (Forall good sents -> Forall (fun c => nice (text c)) out).
Proof.
  intros Hc. unfold _aggregate_sentences_to_chunks.
  destruct (emit_chunks sents) as [cs|] eqn:E; [|discriminate].
  intros [= <-].
  destruct (emit_chunks_spec _ Hc E) as (texts & -> & Ho & Hn).
  exists texts.
  assert (Ht : Forall tidy texts)
    by (eapply Forall_impl; [|exact Ho]; apply origin_tidy).
  assert (Hb : Forall (fun t => len t <= chunk_size_chars) texts)
    by (eapply Forall_impl; [|exact Ho]; apply origin_bound).
  pose proof (number_wf 0 Ht) as W.
  assert (B : Forall (fun c => char_len c <= chunk_size_chars)
                     (number 0 texts)).
  { pose proof (number_forall_text 0 Hb) as B.
    pose proof (number_char_len 0 texts) as L.
    rewrite Forall_forall in *. intros x Hx. rewrite (L x Hx). auto. }
  pose proof (number_indices 0 texts) as I.
  pose proof (number_texts 0 texts) as Tx.
  split; [reflexivity|]. split; [reflexivity|]. split; [exact W|].
  destruct (number 0 texts) as [|c cs] eqn:En.
  - rewrite merge_pass_nil. simpl in Tx. subst texts.
    repeat split; simpl; auto using incl_nil_l. constructor.
  - rewrite merge_pass_cons.
    pose proof W as W'. apply Forall_cons_iff in W' as (W1 & W2).
    apply Forall_cons_iff in B as (B1 & B2).
    destruct (@merge_from_indices c cs) as (S1 & S2).
    { rewrite I. apply zseq_sorted. }
    repeat split.
    + now apply merge_from_wf.
    + now apply merge_from_bound.
    + rewrite merge_from_content, Tx. exact Hn.
    + exact S1.
    + rewrite <- I. exact S2.
    + now apply merge_from_adjacent.
    + intros G.
      assert (N : Forall (fun c => nice (text c)) (c :: cs)).
      { rewrite <- En. apply number_forall_text.
        eapply Forall_impl; [|exact Ho]. intros a. now apply origin_nice. }
      apply Forall_cons_iff in N as (N1 & N2). now apply merge_from_nice.
Qed.

Lemma aggregate_total sents :
  1 <= chunk_size_chars ->
  exists out,
    _aggregate_sentences_to_chunks chunk_size_chars min_chunk_chars
                                   sents sid pg = Some out.
Proof.
  intros Hc. unfold _aggregate_sentences_to_chunks.
  destruct (emit_chunks_total sents Hc) as (cs & ->). eauto.
Qed.

(** *** Chunk sizes that are not positive *)

Lemma clip_range n i : 0 <= n -> 0 <= clip n i <= n.
Proof. intros H. unfold clip. destruct (Z.ltb_spec i 0); lia. Qed.

(** [rfind] never answers a position beyond the text. *)
Lemma rfind_space_lt (t : str) i j : rfind_space t i j < len t.
Proof.
  unfold rfind_space, slice.
  pose proof (clip_range i (len_nonneg t)) as Hi.
  destruct (rindex_space _) as [k|] eqn:E.
  - apply rindex_space_lt in E.
    rewrite length_firstn, length_skipn in E. unfold len in *. lia.
  - pose proof (len_nonneg t). lia.
Qed.

Lemma split_step_nonpositive (t : str) start parts :
  chunk_size_chars <= 0 -> start < len t ->
  fst (split_step t (start, parts)) < len t.
Proof.
  intros Hc Hs. unfold Ingest.split_step. simpl fst.
  set (end0 := Z.min (start + chunk_size_chars) (len t)).
  assert (end0 < len t) by (unfold end0; lia).
  replace (end0 <? len t) with true by (symmetry; apply Z.ltb_lt; lia).
  destruct (rfind_space t start end0 >? start); auto.
  apply rfind_space_lt.
Qed.

(** With a chunk size that is not positive the loop never ends. *)
Lemma split_loop_nonpositive fuel (t : str) :
  chunk_size_chars <= 0 ->
  forall start parts, start < len t ->
                      split_loop fuel t (start, parts) = None.
Proof.
  intros Hc. induction fuel as [|f IH]; intros start parts Hs;
    rewrite split_loop_eq;
    replace (start <? len t) with true by (symmetry; apply Z.ltb_lt; lia).
  - reflexivity.
  - pose proof (split_step_nonpositive t parts Hc Hs) as H.
    destruct (split_step t (start, parts)) as (e, ps). now apply IH.
Qed.

Lemma split_long_text_nonpositive fuel (t : str) :
  chunk_size_chars <= 0 -> t <> [] ->
  _split_long_text_fuel fuel t = None.
Proof.
  intros Hc Ht. unfold Ingest._split_long_text_fuel.
  assert (0 < len t) by (destruct t; [congruence | rewrite len_cons;
                         pose proof (len_nonneg t); lia]).
  replace (len t <=? chunk_size_chars) with false
    by (symmetry; apply Z.leb_gt; lia).
  now apply split_loop_nonpositive.
Qed.

(** More fuel does not change a result. *)
Lemma split_loop_mono f (t : str) : forall f' st r,
  (f <= f')%nat -> split_loop f t st = Some r ->
  split_loop f' t st = Some r.
Proof.
  induction f as [|f IH]; intros f' (start, parts) r Hf;
    rewrite !split_loop_eq; destruct (start <? len t); auto;
    try discriminate.
  destruct f' as [|f']; [lia|]. apply IH. lia.
Qed.

(** *** [process_text] *)

Notation process_text := (process_text chunk_size_chars min_chunk_chars).

Lemma sentences_nil_iff t : _split_into_sentences t = [] <-> nonws t = [].
Proof.
  pose proof (split_into_sentences_content t) as C.
  pose proof (split_into_sentences_tidy t) as T.
  destruct (_split_into_sentences t) as [|s0 l]; split; auto.
  - now rewrite <- C.
  - intros N. rewrite N in C. apply Forall_cons_iff in T as (T & _).
    destruct T as (H & H1 & _). destruct s0 as [|c s0]; [congruence|].
    simpl in H1, C. apply negb_true_iff in H1.
    rewrite nonws_app in C. simpl in C. rewrite H1 in C. discriminate.
Qed.

Lemma process_text_fallback t sid0 :
  _split_into_sentences t = [] ->
  process_text t sid0 = Some [mk_chunk t sid0 0 None (len t)].
Proof. unfold Ingest.process_text. now intros ->. Qed.

Lemma process_text_aggregate t sid0 :
  _split_into_sentences t <> [] ->
  process_text t sid0
  = _aggregate_sentences_to_chunks chunk_size_chars min_chunk_chars
                                   (_split_into_sentences t) sid0 None.
Proof.
  unfold Ingest.process_text.
  destruct (_split_into_sentences t); [congruence | reflexivity].
Qed.

End Agent.

(** With sentences to process and a chunk size that is not positive,
    [process_text] does not return. *)
Lemma process_text_nonpositive csc mcc t sid :
  csc <= 0 -> _split_into_sentences t <> [] ->
  process_text csc mcc t sid = None.
Proof.
  intros Hc Hs. rewrite process_text_aggregate by assumption.
  pose proof (split_into_sentences_tidy t) as T.
  destruct (_split_into_sentences t) as [|s0 l]; [congruence|].
  apply Forall_cons_iff in T as ((H & _) & _).
  unfold _aggregate_sentences_to_chunks, emit_chunks. simpl emit_loop.
  unfold emit_step.
  assert (0 < len s0) by (destruct s0; [congruence | rewrite len_cons;
                          pose proof (len_nonneg s0); lia]).
  replace (len s0 >? csc) with true
    by (symmetry; rewrite Z.gtb_ltb; apply Z.ltb_lt; lia).
  unfold _split_long_text.
  now rewrite split_long_text_nonpositive.
Qed.

(** The two ways in which [process_text] returns. *)
Lemma process_text_cases csc mcc t sid out :
  process_text csc mcc t sid = Some out ->
  (_split_into_sentences t = [] /\ out = [mk_chunk t sid 0 None (len t)])
  \/ (_split_into_sentences t <> [] /\ 1 <= csc
      /\ _aggregate_sentences_to_chunks csc mcc (_split_into_sentences t)
                                        sid None = Some out).
Proof.
  intros H. destruct (_split_into_sentences t) as [|s0 l] eqn:E.
  - left. rewrite process_text_fallback in H by assumption.
    injection H as <-. auto.
  - right. assert (N : _split_into_sentences t <> []) by (rewrite E; discriminate).
    split; [discriminate|]. split.
    + destruct (Z_le_gt_dec csc 0) as [L|L]; [|lia].
      rewrite (@process_text_nonpositive csc mcc t sid L N) in H.
      discriminate.
    + rewrite process_text_aggregate in H by assumption. now rewrite E in H.
Qed.



Lemma process_text_total csc mcc t sid :
  1 <= csc -> exists out, process_text csc mcc t sid = Some out.
Proof.
  intros Hc. destruct (_split_into_sentences t) as [|s0 l] eqn:E.
  - rewrite process_text_fallback by assumption. eauto.
  - rewrite process_text_aggregate by (rewrite E; discriminate).
    now apply aggregate_total.
Qed.

End IngestFacts.

(** ** The claims about the chunker *)
Module ChunkerClaims.
Import Py Spec PyFacts Ingest IngestFacts.
Local Open Scope Z_scope.

(** [test_chunking_in_agent] of [tests/test_ingest.py]: with
    [chunk_size_chars = 10] and the default [min_chunk_chars], the text of
    the test gives at least two chunks, whatever the source identifier. *)
Example test_chunking_in_agent (sid : str) :
  exists out,
    process_text 10 200
      (lit "Hello world. This is a test. We will chunk this text into small pieces.")
      sid = Some out
    /\ (2 <= length out)%nat
    /\ Forall (fun c => char_len c <= 10) out.
Proof.
  eexists. split; [vm_compute; reflexivity|]. split.
  - simpl. lia.
  - repeat constructor; discriminate.
Qed.

(** C10, as amended.  With [chunk_size_chars >= 1], every iteration of the
    loop of [_split_long_text] strictly increases [start] and keeps it
    within the text, so that the function returns after at most
    [len(text)] iterations; every returned part has at most
    [chunk_size_chars] characters and is not empty unless the input itself
    is empty.  With [chunk_size_chars = 0] and a non-empty input, an
    iteration leaves the state as it is and the function never returns. *)
Theorem split_long_text_terminates csc (t : str) :
  (1 <= csc ->
   (forall start parts,
       0 <= start < len t ->
       start < fst (split_step csc t (start, parts)) <= len t)
   /\ exists parts,
       (forall fuel, (length t <= fuel)%nat ->
                     _split_long_text_fuel csc fuel t = Some parts)
       /\ _split_long_text csc t = Some parts
       /\ Forall (fun p => len p <= csc /\ (t <> [] -> p <> [])) parts)
  /\ (csc = 0 -> t <> [] ->
      (forall start parts,
          0 <= start < len t ->
          split_step csc t (start, parts) = (start, parts))
      /\ forall fuel, _split_long_text_fuel csc fuel t = None).
Proof.
  split.
  - intros Hc. split.
    + intros start parts Hs.
      destruct (split_step_spec t parts Hc Hs) as (e & He & _ & ->).
      simpl. lia.
    + unfold _split_long_text, _split_long_text_fuel.
      destruct (len t <=? csc) eqn:E.
      * apply Z.leb_le in E. exists [t]. repeat split; auto.
      * apply Z.leb_gt in E.
        destruct (@split_loop_fuel_enough csc (length t) t Hc 0 [])
          as (ps & H & Hall & _).
        { pose proof (len_nonneg t). lia. }
        { unfold len. lia. }
        exists ps. simpl in H. repeat split.
        -- intros fuel Hf. eapply split_loop_mono; eauto.
        -- exact H.
        -- eapply Forall_impl; [|exact Hall]. intros p Hp. split.
           ++ eapply window_part_len; eauto.
           ++ intros _. now destruct Hp as (a & b & _ & _ & _ & _ & Hp).
  - intros Hc Ht. split.
    + intros start parts Hs. now apply split_step_stuck.
    + intros fuel. apply split_long_text_nonpositive; auto. lia.
Qed.

Lemma split_long_text_terminates_witness :
  (exists parts,
      (forall fuel, (length (lit "ab cd ef") <= fuel)%nat ->
                    _split_long_text_fuel 3 fuel (lit "ab cd ef")
                    = Some parts)
      /\ _split_long_text 3 (lit "ab cd ef") = Some parts
      /\ Forall (fun p => len p <= 3 /\ (lit "ab cd ef" <> [] -> p <> []))
                parts)
  /\ forall fuel, _split_long_text_fuel 0 fuel (lit "ab") = None.
Proof.
  split.
  - apply (proj1 (split_long_text_terminates 3 (lit "ab cd ef"))). lia.
  - apply (proj2 (split_long_text_terminates 0 (lit "ab"))).
    + reflexivity.
    + discriminate.
Defined.

(** C10 as stated fails on the empty string, which the early return hands
    back as a part. *)
Lemma split_long_text_empty_part_counterexample :
  ~ (forall csc (t : str),
        1 <= csc ->
        exists parts, _split_long_text csc t = Some parts
                      /\ Forall (fun p => p <> [] /\ len p <= csc) parts).
Proof.
  intros H. destruct (H 1 [] ltac:(lia)) as (parts & E & F).
  vm_compute in E. injection E as <-.
  apply Forall_cons_iff in F as ((F & _) & _). now apply F.
Qed.

(** C5.  The texts of the chunks that [process_text] returns hold, in
    order, exactly the non-whitespace characters of the input; and
    [process_text] does return when [chunk_size_chars >= 1]. *)
Theorem chunker_keeps_non_whitespace csc mcc (t sid : str) :
  (forall out, process_text csc mcc t sid = Some out ->
               nonws (concat (map text out)) = nonws t)
  /\ (1 <= csc -> exists out, process_text csc mcc t sid = Some out).
Proof.
  split; [|apply process_text_total].
  intros out H. destruct (process_text_cases _ _ _ _ H)
    as [(_ & ->)|(_ & Hc & A)].
  - simpl. now rewrite app_nil_r.
  - destruct (aggregate_spec _ _ _ _ Hc A)
      as (texts & _ & _ & _ & _ & _ & Hn & _).
    rewrite Hn. apply split_into_sentences_content.
Qed.

Lemma chunker_keeps_non_whitespace_witness :
  nonws (concat (map text
    [mk_chunk (lit "Hi there.") (lit "doc") 0 None 9;
     mk_chunk (lit "Bye now.") (lit "doc") 1 None 8]))
  = nonws (lit "  Hi there.   Bye now. ")
  /\ exists out,
      process_text 10 4 (lit "  Hi there.   Bye now. ") (lit "doc")
      = Some out.
Proof.
  split.
  - apply (proj1 (chunker_keeps_non_whitespace
                    10 4 (lit "  Hi there.   Bye now. ") (lit "doc"))).
    vm_compute. reflexivity.
  - apply (proj2 (chunker_keeps_non_whitespace
                    10 4 (lit "  Hi there.   Bye now. ") (lit "doc"))).
    lia.
Defined.

(** C4, as amended.  With [chunk_size_chars >= 1], [process_text] returns,
    and [char_len] is the length of the text of every chunk; when the
    input holds a character that is not whitespace, every chunk has
    [char_len <= chunk_size_chars], the chunks made by the merge pass and
    by the slicer of oversized sentences included; an input without such a
    character comes back verbatim as the single chunk of index 0. *)
Theorem char_len_bounded csc mcc (t sid : str) :
  1 <= csc ->
  exists out,
    process_text csc mcc t sid = Some out
    /\ Forall (fun c => char_len c = len (text c)) out
    /\ (nonws t <> [] -> Forall (fun c => char_len c <= csc) out)
    /\ (nonws t = [] -> out = [mk_chunk t sid 0 None (len t)]).
Proof.
  intros Hc. destruct (process_text_total mcc t sid Hc) as (out & H).
  exists out. split; auto.
  destruct (process_text_cases _ _ _ _ H) as [(E & ->)|(E & _ & A)].
  - apply sentences_nil_iff in E. split; [|split].
    + repeat constructor.
    + intros N. now destruct N.
    + reflexivity.
  - destruct (aggregate_spec _ _ _ _ Hc A)
      as (texts & _ & _ & _ & W & B & _).
    split; [|split].
    + eapply Forall_impl; [|exact W]. now intros c (_ & L).
    + intros _. exact B.
    + intros N. apply sentences_nil_iff in N. now destruct E.
Qed.

Lemma char_len_bounded_witness :
  exists out,
    process_text 10 200 (lit "Hello world. This is a test.") (lit "doc")
    = Some out
    /\ Forall (fun c => char_len c = len (text c)) out
    /\ (nonws (lit "Hello world. This is a test.") <> [] ->
        Forall (fun c => char_len c <= 10) out)
    /\ (nonws (lit "Hello world. This is a test.") = [] ->
        out = [mk_chunk (lit "Hello world. This is a test.") (lit "doc")
                        0 None (len (lit "Hello world. This is a test."))]).
Proof.
  apply (char_len_bounded 200 (lit "Hello world. This is a test.")
                          (lit "doc")).
  lia.
Defined.

(** C4 as stated fails on a whitespace-only input longer than the chunk
    size: the fallback returns it verbatim. *)
Lemma char_len_fallback_counterexample :
  ~ (forall csc mcc (t sid : str) out,
        1 <= csc -> process_text csc mcc t sid = Some out ->
        Forall (fun c => char_len c <= csc) out).
Proof.
  intros H.
  specialize (H 1 200 (lit "  ") (lit "doc") _ ltac:(lia) eq_refl).
  apply Forall_cons_iff in H as (H & _). vm_compute in H. now apply H.
Qed.

(** The merge pass groups the chunks it is given: every chunk it returns
    stands for a run of consecutive chunks, the first of which gives it
    its index. *)
Lemma merge_from_groups csc mcc cs : forall prev,
  exists groups,
    concat groups = prev :: cs
    /\ Forall2 MergeSpec.stands_for groups (merge_from csc mcc prev cs).
Proof.
  induction cs as [|c cs IH]; intros prev.
  - exists [[prev]]. split; [reflexivity|].
    repeat constructor.
  - simpl merge_from. destruct (mergeable csc mcc prev c).
    + destruct (IH (absorb prev c)) as (groups & Ec & F).
      destruct F as [|g out gs outs St F]; [discriminate|].
      destruct g as [|h ab]; [destruct St|].
      simpl in Ec. injection Ec as -> Ec.
      exists ((prev :: c :: ab) :: gs). split.
      * simpl. now rewrite Ec.
      * constructor; auto.
    + destruct (IH c) as (groups & Ec & F).
      exists ([prev] :: groups). split.
      * simpl. now rewrite Ec.
      * constructor; auto. split; reflexivity.
Qed.

Lemma merge_pass_groups csc mcc cs :
  exists groups,
    concat groups = cs
    /\ Forall2 MergeSpec.stands_for groups (merge_pass csc mcc cs).
Proof.
  destruct cs as [|c cs].
  - exists []. split; [reflexivity | constructor].
  - rewrite merge_pass_cons. apply merge_from_groups.
Qed.

(** The indices given are those kept and those of the absorbed chunks. *)
Lemma groups_indices groups out :
  Forall2 MergeSpec.stands_for groups out ->
  Permutation (map chunk_index (concat groups))
              (map chunk_index out
               ++ map chunk_index (MergeSpec.absorbed_of groups)).
Proof.
  induction 1 as [|g c gs outs St F IH]; [constructor|].
  destruct g as [|h ab]; [destruct St|]. destruct St as (St & _).
  unfold MergeSpec.absorbed_of in *. simpl.
  rewrite St, !map_app. constructor.
  eapply Permutation_trans; [apply Permutation_app_head; exact IH|].
  apply Permutation_app_swap_app.
Qed.

Lemma sorted_lt_nodup l : StronglySorted Z.lt l -> NoDup l.
Proof.
  induction 1 as [|a l S IH F]; constructor; auto.
  intros Hin. rewrite Forall_forall in F. specialize (F a Hin). lia.
Qed.

Lemma absorbed_indices_dropped groups out :
  Forall2 MergeSpec.stands_for groups out ->
  NoDup (map chunk_index (concat groups)) ->
  Forall (fun a => ~ In (chunk_index a) (map chunk_index out))
         (MergeSpec.absorbed_of groups).
Proof.
  intros F N. apply groups_indices in F.
  apply (Permutation_NoDup F) in N.
  apply Forall_forall. intros a Ha Hin.
  apply (in_map chunk_index) in Ha.
  apply in_split in Ha as (l1 & l2 & E). rewrite E, app_assoc in N.
  apply NoDup_remove_2 in N. apply N.
  apply in_or_app. left. apply in_or_app. now left.
Qed.

(** C2, as amended.  The chunks that [process_text] returns carry strictly
    increasing, hence unique, values of [chunk_index], the first being 0;
    before the merge pass the chunks are numbered 0, 1, 2, ... in the
    order of emission, and every index returned is one of these.  The
    merge pass never assigns an index: the emitted chunks fall into runs
    of consecutive chunks, one run for each returned chunk, which carries
    the index that the first chunk of its run had at emission and the
    texts of the whole run; the index of every other chunk of a run, an
    absorbed chunk, occurs nowhere in what is returned, so the returned
    indices may have gaps. *)
Theorem chunk_index_increasing csc mcc (t sid : str) out :
  process_text csc mcc t sid = Some out ->
  StronglySorted Z.lt (map chunk_index out)
  /\ (exists c rest, out = c :: rest /\ chunk_index c = 0)
  /\ (_split_into_sentences t <> [] ->
      exists emitted,
        emit_chunks csc sid None (_split_into_sentences t) = Some emitted
        /\ out = merge_pass csc mcc emitted
        /\ map chunk_index emitted = zseq 0 (length emitted)
        /\ incl (map chunk_index out) (map chunk_index emitted)
        /\ exists groups,
             concat groups = emitted
             /\ Forall2 MergeSpec.stands_for groups out
             /\ Forall (fun a => ~ In (chunk_index a) (map chunk_index out))
                       (MergeSpec.absorbed_of groups)).
Proof.
  intros H. destruct (process_text_cases _ _ _ _ H)
    as [(E & ->)|(E & Hc & A)].
  - repeat split.
    + simpl. repeat constructor.
    + eauto.
    + congruence.
  - destruct (aggregate_spec _ _ _ _ Hc A)
      as (texts & He & Ho & _ & _ & _ & Hn & S & I & _).
    split; [exact S|]. split.
    + destruct texts as [|x texts].
      * exfalso. simpl in Hn.
        rewrite Ho in Hn. simpl in Hn.
        rewrite split_into_sentences_content in Hn.
        symmetry in Hn. apply sentences_nil_iff in Hn. congruence.
      * simpl in Ho. rewrite merge_pass_cons in Ho.
        destruct (merge_from_head csc mcc (new_chunk sid None 0 x)
                                  (number sid None (0 + 1) texts))
          as (h & tl & Eh & Hi & _).
        exists h, tl. split; [rewrite Ho; exact Eh | exact Hi].
    + intros _. exists (number sid None 0 texts).
      rewrite number_indices, number_length.
      split; [exact He|]. split; [exact Ho|]. split; [reflexivity|].
      split; [exact I|].
      destruct (merge_pass_groups csc mcc (number sid None 0 texts))
        as (groups & Eg & F).
      rewrite <- Ho in F. exists groups.
      split; [exact Eg|]. split; [exact F|].
      apply absorbed_indices_dropped; [exact F|].
      rewrite Eg, number_indices. apply sorted_lt_nodup, zseq_sorted.
Qed.

Lemma chunk_index_increasing_witness :
  let t := lit "aaaa. bbbb. cccc." in
  let out := [mk_chunk (lit "aaaa. bbbb.") (lit "doc") 0 None 11;
              mk_chunk (lit "cccc.") (lit "doc") 2 None 5] in
  StronglySorted Z.lt (map chunk_index out)
  /\ (exists c rest, out = c :: rest /\ chunk_index c = 0)
  /\ (_split_into_sentences t <> [] ->
      exists emitted,
        emit_chunks 11 (lit "doc") None (_split_into_sentences t)
        = Some emitted
        /\ out = merge_pass 11 200 emitted
        /\ map chunk_index emitted = zseq 0 (length emitted)
        /\ incl (map chunk_index out) (map chunk_index emitted)
        /\ exists groups,
             concat groups = emitted
             /\ Forall2 MergeSpec.stands_for groups out
             /\ Forall (fun a => ~ In (chunk_index a) (map chunk_index out))
                       (MergeSpec.absorbed_of groups)).
Proof.
  apply (@chunk_index_increasing 11 200 (lit "aaaa. bbbb. cccc.") (lit "doc")).
  vm_compute. reflexivity.
Defined.

(** C2 as stated fails: the merge pass leaves a gap where it absorbed a
    chunk. *)
Lemma chunk_index_gap_counterexample :
  ~ (forall csc mcc (t sid : str) out,
        process_text csc mcc t sid = Some out ->
        StronglySorted Z.lt (map chunk_index out)
        /\ contiguous (map chunk_index out)).
Proof.
  intros H.
  specialize (H 11 200 (lit "aaaa. bbbb. cccc.") (lit "doc") _ eq_refl).
  destruct H as (_ & H). vm_compute in H. destruct H as (H & _).
  discriminate H.
Qed.







End ChunkerClaims.

(** ** The lexical ranker *)
Module RetrieverFacts.
Import Py Retriever RankSpec.

(** *** The order on the entries *)

Lemma below_trans a b c : below a b -> below b c -> below a c.
Proof.
  unfold below, entry_lt. intros H1 H2.
  apply orb_true_iff in H1. apply orb_true_iff in H2.
  apply orb_true_iff.
  rewrite !andb_true_iff, !Nat.ltb_lt, !Nat.eqb_eq in *. lia.
Qed.

Lemma below_asym a b : below a b -> below b a -> False.
Proof.
  unfold below, entry_lt. intros H1 H2.
  apply orb_true_iff in H1. apply orb_true_iff in H2.
  rewrite !andb_true_iff, !Nat.ltb_lt, !Nat.eqb_eq in *. lia.
Qed.

(** Two entries with different tie-breakers are comparable. *)
Lemma below_total a b :
  e_tie a <> e_tie b -> entry_lt a b = false -> below b a.
Proof.
  unfold below, entry_lt. intros Ht H.
  apply orb_false_iff in H as (H1 & H2). apply Nat.ltb_ge in H1.
  apply orb_true_iff. rewrite andb_true_iff, !Nat.ltb_lt, Nat.eqb_eq.
  apply andb_false_iff in H2 as [H2|H2].
  - apply Nat.eqb_neq in H2. lia.
  - apply Nat.ltb_ge in H2. lia.
Qed.

Lemma below_score a b : below a b -> e_score a <= e_score b.
Proof.
  unfold below, entry_lt. intros H. apply orb_true_iff in H.
  rewrite andb_true_iff, Nat.ltb_lt, Nat.eqb_eq in H. lia.
Qed.

(** *** The heap operations *)

Lemma heappush_perm h x : Permutation (heappush h x) (x :: h).
Proof.
  induction h as [|e h IH]; simpl; auto.
  destruct (entry_lt e x); auto.
  rewrite IH. apply perm_swap.
Qed.

Lemma heappush_length h x : length (heappush h x) = S (length h).
Proof. apply (Permutation_length (heappush_perm h x)). Qed.

Lemma heappush_sorted h x :
  StronglySorted below h ->
  Forall (fun e => e_tie e <> e_tie x) h ->
  StronglySorted below (heappush h x).
Proof.
  induction h as [|e h IH]; intros S D; simpl.
  - repeat constructor.
  - apply StronglySorted_inv in S as (S1 & S2).
    apply Forall_cons_iff in D as (D1 & D2).
    destruct (entry_lt e x) eqn:E.
    + constructor; auto.
      rewrite (heappush_perm h x). constructor; auto.
    + apply below_total in E; auto. constructor.
      * constructor; auto.
      * constructor; auto.
        eapply Forall_impl; [|exact S2]. intros y. now apply below_trans.
Qed.

(** *** The bounded heap keeps the best entries *)

Lemma heap_inv_nil top_k : heap_inv top_k [] [] [].
Proof.
  unfold heap_inv; simpl. repeat split; auto.
  - constructor.
  - lia.
Qed.

Lemma perm_snoc (seen l : list entry) x :
  Permutation seen l -> Permutation (seen ++ [x]) (x :: l).
Proof.
  intros P. apply Permutation_trans with (x :: seen).
  - apply Permutation_sym, Permutation_cons_append.
  - now constructor.
Qed.

Lemma offer_inv top_k seen h dropped x :
  heap_inv top_k seen h dropped ->
  Forall (fun e => e_tie e <> e_tie x) seen ->
  exists dropped', heap_inv top_k (seen ++ [x]) (offer top_k h x) dropped'.
Proof.
  intros (P & S & F & E & L) D.
  assert (Dh : Forall (fun e => e_tie e <> e_tie x) h).
  { rewrite Forall_forall in *. intros e He. apply D.
    apply (Permutation_in _ (Permutation_sym P)), in_or_app. now left. }
  unfold offer. destruct (Z.of_nat (length h) <? top_k)%Z eqn:C.
  - apply Z.ltb_lt in C. rewrite (E C) in *. rewrite app_nil_r in P.
    exists []. unfold heap_inv. rewrite app_nil_r, heappush_length.
    repeat split; auto.
    + apply Permutation_trans with (x :: h).
      * now apply perm_snoc.
      * apply Permutation_sym, heappush_perm.
    + now apply heappush_sorted.
    + lia.
  - apply Z.ltb_ge in C. destruct h as [|e h]; simpl heappushpop.
    + exists (x :: dropped). unfold heap_inv. simpl in *.
      repeat split; auto.
      * now apply perm_snoc.
      * intros. lia.
    + apply StronglySorted_inv in S as (S1 & S2).
      apply Forall_cons_iff in Dh as (D1 & D2).
      destruct (entry_lt e x) eqn:Ex.
      * exists (e :: dropped). unfold heap_inv.
        rewrite heappush_length. simpl length in *. repeat split.
        -- apply Permutation_trans with (x :: (e :: h) ++ dropped).
           ++ now apply perm_snoc.
           ++ apply Permutation_trans with ((x :: h) ++ e :: dropped).
              ** simpl. constructor. apply Permutation_middle.
              ** apply Permutation_app_tail, Permutation_sym, heappush_perm.
        -- now apply heappush_sorted.
        -- constructor.
           ++ apply (Permutation_Forall (Permutation_sym (heappush_perm h x))).
              constructor; auto.
           ++ rewrite Forall_forall in F |- *. intros d Hd.
              specialize (F d Hd). apply Forall_cons_iff in F as (F1 & F2).
              apply (Permutation_Forall (Permutation_sym (heappush_perm h x))).
              constructor; auto.
              now apply below_trans with e.
        -- intros. lia.
        -- lia.
      * apply below_total in Ex; auto.
        exists (x :: dropped). unfold heap_inv. repeat split; auto.
        -- apply Permutation_trans with (x :: (e :: h) ++ dropped).
           ++ now apply perm_snoc.
           ++ apply (Permutation_middle (e :: h) dropped x).
        -- constructor; auto.
        -- constructor; auto. constructor; auto.
           eapply Forall_impl; [|exact S2]. intros y. now apply below_trans.
        -- intros. simpl length in *. lia.
Qed.

Lemma tag_ties l : forall n, Forall (fun e => n <= e_tie e) (tag n l).
Proof.
  induction l as [|(sc, hh) l IH]; intros n; simpl; constructor.
  - unfold e_tie; simpl; lia.
  - eapply Forall_impl; [|apply IH]. simpl. intros; lia.
Qed.

Lemma tag_app a : forall n b,
  tag n (a ++ b) = tag n a ++ tag (n + length a) b.
Proof.
  induction a as [|(sc, hh) a IH]; intros n b; simpl.
  - now rewrite Nat.add_0_r.
  - rewrite IH, Nat.add_succ_r. reflexivity.
Qed.

Lemma offer_fold_inv top_k l : forall n seen h dropped,
  heap_inv top_k seen h dropped ->
  Forall (fun e => e_tie e < n) seen ->
  exists dropped',
    heap_inv top_k (seen ++ tag n l) (fold_left (offer top_k) (tag n l) h)
             dropped'.
Proof.
  induction l as [|(sc, hh) l IH]; intros n seen h dropped I T; simpl.
  - rewrite app_nil_r. eauto.
  - destruct (@offer_inv top_k seen h dropped (sc, n, hh) I) as (d1 & I1).
    { eapply Forall_impl; [|exact T]. unfold e_tie; simpl. intros; lia. }
    destruct (IH (S n) _ _ _ I1) as (d2 & I2).
    { apply Forall_app. split.
      - eapply Forall_impl; [|exact T]. simpl. intros; lia.
      - repeat constructor. }
    rewrite <- app_assoc in I2. eauto.
Qed.

(** *** The scan of the corpus *)

Lemma scan_chunk_candidate q terms top_k h tie ch :
  scan_chunk q terms top_k (h, tie) ch
  = match candidate q terms ch with
    | Some (sc, hh) => (offer top_k h (sc, tie, hh), S tie)
    | None => (h, tie)
    end.
Proof.
  unfold scan_chunk, candidate, offer.
  destruct (negb (truthy (lower _))); auto.
  destruct (score_of q terms _ <=? 0); auto.
  destruct (Z.of_nat (length h) <? top_k)%Z; auto.
Qed.

Lemma scan_chunks_fold q terms top_k chs : forall h tie,
  fold_left (scan_chunk q terms top_k) chs (h, tie)
  = (fold_left (offer top_k) (tag tie (candidates_of q terms chs)) h,
     tie + length (candidates_of q terms chs)).
Proof.
  induction chs as [|ch chs IH]; intros h tie;
    cbn [fold_left candidates_of].
  - simpl. now rewrite Nat.add_0_r.
  - rewrite scan_chunk_candidate.
    destruct (candidate q terms ch) as [(sc, hh)|]; rewrite IH; simpl; auto.
Qed.

Lemma candidates_of_app q terms a b :
  candidates_of q terms (a ++ b)
  = candidates_of q terms a ++ candidates_of q terms b.
Proof.
  induction a as [|ch a IH]; simpl; auto.
  destruct (candidate q terms ch); simpl; now rewrite IH.
Qed.

Lemma scan_files_fold q terms top_k files : forall h tie,
  fold_left (scan_file q terms top_k) files (h, tie)
  = (fold_left (offer top_k)
               (tag tie (candidates_of q terms (corpus_chunks files))) h,
     tie + length (candidates_of q terms (corpus_chunks files))).
Proof.
  induction files as [|f files IH]; intros h tie.
  - simpl. now rewrite Nat.add_0_r.
  - simpl fold_left. unfold corpus_chunks. simpl map. simpl concat.
    fold (corpus_chunks files). rewrite candidates_of_app, tag_app.
    rewrite fold_left_app, length_app.
    destruct f as [chs|]; simpl scan_file.
    + rewrite scan_chunks_fold, IH. f_equal. lia.
    + simpl. rewrite IH, Nat.add_0_r. reflexivity.
Qed.

Lemma nlargest_all h : nlargest (length h) h = rev h.
Proof.
  unfold nlargest. rewrite <- length_rev. apply firstn_all.
Qed.

(** The list [largest] is the heap after the scan, largest entry first. *)
Lemma ranked_eq files query top_k :
  ranked (Some files) query top_k
  = if truthy (normalize query)
    then rev (fold_left (offer top_k) (offered files query) [])
    else [].
Proof.
  unfold ranked, offered. destruct (truthy (normalize query)); auto.
  simpl negb. cbv iota. rewrite scan_files_fold. simpl fst.
  destruct (fold_left _ _ _) as [|e h] eqn:E; auto.
  apply nlargest_all.
Qed.

Lemma ranked_inv files query top_k :
  normalize query <> [] ->
  exists h dropped,
    ranked (Some files) query top_k = rev h
    /\ heap_inv top_k (offered files query) h dropped.
Proof.
  intros N. rewrite ranked_eq.
  apply PyFacts.truthy_true in N. rewrite N.
  destruct (@offer_fold_inv top_k
              (candidates_of (normalize query)
                             (findall_words (normalize query))
                             (corpus_chunks files))
              0 [] [] [] (heap_inv_nil top_k) (Forall_nil _))
    as (d & I).
  simpl in I. eauto.
Qed.

(** *** Consequences for the list of hits *)

Lemma sorted_snoc (R : entry -> entry -> Prop) l x :
  StronglySorted R l -> Forall (fun y => R y x) l ->
  StronglySorted R (l ++ [x]).
Proof.
  induction l as [|a l IH]; intros S F; simpl.
  - repeat constructor.
  - apply StronglySorted_inv in S as (S1 & S2).
    apply Forall_cons_iff in F as (F1 & F2).
    constructor; auto. apply Forall_app. auto.
Qed.

Lemma sorted_rev (R : entry -> entry -> Prop) l :
  StronglySorted R l -> StronglySorted (fun a b => R b a) (rev l).
Proof.
  induction l as [|a l IH]; intros S; simpl.
  - constructor.
  - apply StronglySorted_inv in S as (S1 & S2).
    apply sorted_snoc; auto.
    apply Forall_forall. intros y Hy. apply in_rev in Hy.
    rewrite Forall_forall in S2. auto.
Qed.

(** A strictly sorted list is determined by its elements. *)
Lemma sorted_perm_unique l1 : forall l2,
  Permutation l1 l2 ->
  StronglySorted (fun a b => below b a) l1 ->
  StronglySorted (fun a b => below b a) l2 ->
  l1 = l2.
Proof.
  induction l1 as [|a l1 IH]; intros l2 P S1 S2.
  - apply Permutation_nil in P. now subst.
  - destruct l2 as [|b l2].
    + apply Permutation_sym, Permutation_nil in P. discriminate.
    + apply StronglySorted_inv in S1 as (S1 & F1).
      apply StronglySorted_inv in S2 as (S2 & F2).
      assert (a = b).
      { assert (Ha : In a (b :: l2))
          by (apply (Permutation_in _ P); now left).
        assert (Hb : In b (a :: l1))
          by (apply (Permutation_in _ (Permutation_sym P)); now left).
        destruct Ha as [Ha|Ha]; auto. destruct Hb as [Hb|Hb]; auto.
        rewrite Forall_forall in F1, F2.
        exfalso. apply (below_asym (F1 _ Hb) (F2 _ Ha)). }
      subst b. f_equal. apply IH; auto.
      now apply Permutation_cons_inv in P.
Qed.

Lemma tag_nth l : forall n i e,
  nth_error (tag n l) i = Some e -> e_tie e = n + i.
Proof.
  induction l as [|(sc, hh) l IH]; intros n i e H.
  - destruct i; discriminate.
  - destruct i as [|i]; simpl in H.
    + injection H as <-. unfold e_tie; simpl. lia.
    + apply IH in H. lia.
Qed.

Lemma tag_in l : forall n e,
  In e (tag n l) -> In (e_score e, e_hit e) l.
Proof.
  induction l as [|(sc, hh) l IH]; intros n e H; simpl in *; auto.
  destruct H as [<-|H]; [now left | right]. eapply IH; eauto.
Qed.

Lemma tag_length l : forall n, length (tag n l) = length l.
Proof.
  induction l as [|(sc, hh) l IH]; intros n; simpl; auto.
Qed.

Lemma candidates_of_in q terms chs c :
  In c (candidates_of q terms chs) ->
  exists ch, In ch chs /\ candidate q terms ch = Some c.
Proof.
  induction chs as [|ch chs IH]; simpl; [tauto|].
  destruct (candidate q terms ch) as [c0|] eqn:E.
  - intros [<-|H]; eauto. destruct (IH H) as (ch' & ? & ?). eauto.
  - intros H. destruct (IH H) as (ch' & ? & ?). eauto.
Qed.

(** A chunk takes part exactly when its lower-cased text is not empty and
    its score is positive. *)
Lemma candidate_some q terms ch sc hh :
  candidate q terms ch = Some (sc, hh) ->
  exists t, st_text ch = Some t /\ lower t <> []
            /\ sc = score_of q terms (lower t) /\ 0 < sc
            /\ hh = chunk_obj ch.
Proof.
  unfold candidate. destruct (st_text ch) as [t|]; [|discriminate].
  destruct (truthy (lower t)) eqn:T; [|discriminate]. simpl.
  destruct (score_of q terms (lower t) <=? 0) eqn:E; [discriminate|].
  intros [= <- <-]. exists t. apply Nat.leb_gt in E.
  apply PyFacts.truthy_true in T. auto.
Qed.

Lemma startswith_length s : forall sub,
  startswith s sub = true -> length sub <= length s.
Proof.
  induction s as [|b s IH]; intros [|a sub] H; simpl in *;
    try lia; try discriminate.
  apply andb_prop in H as (_ & H). apply IH in H. lia.
Qed.

Lemma count_scan_bound sub s : forall skip,
  count_scan sub skip s * length sub <= length s - skip.
Proof.
  induction s as [|b s IH]; intros skip.
  - simpl. lia.
  - destruct skip as [|k]; cbn [count_scan].
    + destruct (startswith (b :: s) sub) eqn:E.
      * apply startswith_length in E. specialize (IH (length sub - 1)).
        simpl length in *. rewrite Nat.mul_succ_l. lia.
      * specialize (IH 0). simpl length. lia.
    + specialize (IH k). simpl length. lia.
Qed.

(** The occurrences counted do not overlap: together they fit into the
    text. *)
Lemma count_nonoverlap s sub :
  sub <> [] -> count s sub * length sub <= length s.
Proof.
  intros H. destruct sub as [|a sub]; [congruence|]. unfold count.
  pose proof (count_scan_bound (a :: sub) s 0). lia.
Qed.

Lemma fold_count_sum t terms : forall a,
  fold_left (fun score term => score + count t term) terms a
  = a + list_sum (map (count t) terms).
Proof.
  induction terms as [|x terms IH]; intros a; simpl.
  - lia.
  - rewrite IH. lia.
Qed.

Lemma score_of_sum q terms t : score_of q terms t = score_sum q terms t.
Proof.
  unfold score_of, score_sum. rewrite fold_count_sum. lia.
Qed.

Lemma heap_inv_in top_k seen h dropped e :
  heap_inv top_k seen h dropped -> In e h -> In e seen.
Proof.
  intros (P & _) H. apply (Permutation_in _ (Permutation_sym P)).
  apply in_or_app. now left.
Qed.

(** Of two offered entries, the one that is above the other in the order
    of the heap is kept whenever the other one is. *)
Lemma heap_inv_keeps_larger top_k seen h dropped e1 e2 :
  heap_inv top_k seen h dropped ->
  In e2 seen -> below e1 e2 -> In e1 h -> In e2 h.
Proof.
  intros (P & _ & F & _) H2 B H1.
  apply (Permutation_in _ P), in_app_or in H2 as [H2|H2]; auto.
  rewrite Forall_forall in F. specialize (F _ H2).
  rewrite Forall_forall in F. exfalso. apply (below_asym B (F _ H1)).
Qed.

(** An entry that is above all the others comes first in the list, once
    there is room for one entry. *)
Lemma heap_inv_top top_k seen h dropped m :
  heap_inv top_k seen h dropped ->
  (1 <= top_k)%Z ->
  In m seen ->
  (forall y, In y seen -> y = m \/ below y m) ->
  exists rest, rev h = m :: rest.
Proof.
  intros I K Hm Hmax. pose proof I as (P & S & F & E & L).
  assert (Irr : ~ below m m) by (intros B; apply (below_asym B B)).
  assert (Hh : In m h).
  { apply (Permutation_in _ P), in_app_or in Hm as [Hm|Hm]; auto.
    exfalso. destruct h as [|y h].
    - rewrite E in Hm by (simpl; lia). exact Hm.
    - rewrite Forall_forall in F. specialize (F _ Hm).
      apply Forall_cons_iff in F as (F & _).
      destruct (Hmax y) as [->|B]; auto.
      + eapply heap_inv_in; eauto. now left.
      + apply (below_asym F B). }
  apply in_split in Hh as (a & b & ->).
  destruct b as [|y b].
  - exists (rev a). rewrite rev_app_distr. reflexivity.
  - exfalso.
    assert (B : below m y).
    { clear -S. induction a as [|x a IH]; simpl in S;
        apply StronglySorted_inv in S as (S1 & S2).
      - apply Forall_cons_iff in S2. tauto.
      - auto. }
    destruct (Hmax y) as [->|B']; auto.
    + eapply heap_inv_in; eauto. apply in_or_app. right. right. now left.
    + apply (below_asym B B').
Qed.

End RetrieverFacts.

(** ** The claims about the ranker *)
Module RankerClaims.
Import Py Retriever RankSpec RetrieverFacts.

Lemma ranked_empty_query files query top_k :
  normalize query = [] -> ranked (Some files) query top_k = [].
Proof. intros E. rewrite ranked_eq, E. reflexivity. Qed.

Lemma ranked_strict corpus query top_k :
  StronglySorted (fun a b => below b a) (ranked corpus query top_k).
Proof.
  destruct corpus as [files|]; [|constructor].
  destruct (normalize query) as [|c q] eqn:E.
  - rewrite ranked_empty_query by assumption. constructor.
  - destruct (@ranked_inv files query top_k) as (h & d & -> & I).
    { rewrite E. discriminate. }
    apply sorted_rev. apply I.
Qed.

(** C1.  The failing input: one chunk file holding the texts ['a fox'] and
    ['fox b'], in this order, and the query ['fox'].  Both chunks score 11.
    With [top_k = 2] the search returns the chunk met second before the
    chunk met first, and with [top_k = 1] it returns the chunk met second
    alone, the chunk met first having been evicted.  The claim, like the
    comment before the call of [heapq.nlargest] ("score descending then tie
    ascending"), asks for the order of the scan among equal scores and for
    the earlier candidate to be kept: the tie-breaker enters the heap with
    the wrong sign. *)
Theorem tie_order_failing_input :
  let d := mk_stored (Some (lit "d")) (Some (lit "a fox")) None in
  let e := mk_stored (Some (lit "e")) (Some (lit "fox b")) None in
  map e_score (offered [Some [d; e]] (lit "fox")) = [11; 11]
  /\ map e_tie (offered [Some [d; e]] (lit "fox")) = [0; 1]
  /\ _local_text_search (Some [Some [d; e]]) (lit "fox") 2
     = [chunk_obj e; chunk_obj d]
  /\ _local_text_search (Some [Some [d; e]]) (lit "fox") 1 = [chunk_obj e].
Proof. cbv zeta. repeat split. Qed.

(** Hence the code does not do what C1 says: with room for both chunks
    of equal score, the one met later comes first; with room for one, the
    one met first is evicted. *)
Lemma tie_order_counterexample :
  ~ (forall files query top_k,
        score_descending (ranked (Some files) query top_k)
        /\ ties_in_encounter_order (ranked (Some files) query top_k))
  /\ ~ (forall files query top_k,
           score_descending (ranked (Some files) query top_k)
           /\ earlier_kept (offered files query)
                           (ranked (Some files) query top_k)).
Proof.
  split; intros H.
  - destruct (H [Some [mk_stored (Some (lit "d")) (Some (lit "a fox")) None;
                       mk_stored (Some (lit "e")) (Some (lit "fox b")) None]]
                (lit "fox") 2%Z) as (_ & T).
    specialize (T 0 1 _ _ eq_refl eq_refl). vm_compute in T.
    specialize (T (le_n 1) eq_refl). apply Nat.nle_succ_0 in T. exact T.
  - destruct (H [Some [mk_stored (Some (lit "d")) (Some (lit "a fox")) None;
                       mk_stored (Some (lit "e")) (Some (lit "fox b")) None]]
                (lit "fox") 1%Z) as (_ & K).
    specialize (K (11, 0, mk_hit (Some (lit "a fox")) None None None
                                 (Some (lit "d")))
                  (11, 1, mk_hit (Some (lit "fox b")) None None None
                                 (Some (lit "e")))).
    vm_compute in K.
    destruct K as [K|[]]; auto. discriminate K.
Qed.

(** C9.  The search returns an empty list, and not an error, whenever the
    normalized query is empty, whatever the corpus, and whenever the
    corpus directory is missing; in particular for the empty query and
    [top_k = 5]. *)
Theorem empty_query_or_no_corpus corpus query top_k :
  (normalize query = [] -> _local_text_search corpus query top_k = [])
  /\ _local_text_search None query top_k = []
  /\ _local_text_search corpus (lit "") 5%Z = [].
Proof.
  assert (H : forall q, normalize q = [] ->
                        _local_text_search corpus q top_k = []
                        /\ _local_text_search corpus q 5%Z = []).
  { intros q E. unfold _local_text_search.
    destruct corpus as [files|]; [|split; reflexivity].
    rewrite !ranked_empty_query by assumption. split; reflexivity. }
  split; [|split].
  - intros E. now apply H.
  - reflexivity.
  - now apply (H (lit "")).
Qed.

Lemma empty_query_or_no_corpus_witness :
  _local_text_search
    (Some [Some [mk_stored (Some (lit "d")) (Some (lit "a fox")) None]])
    (lit "   ") 5%Z = [].
Proof.
  apply (proj1 (empty_query_or_no_corpus
           (Some [Some [mk_stored (Some (lit "d")) (Some (lit "a fox")) None]])
           (lit "   ") 5%Z)).
  reflexivity.
Defined.

Lemma tag_scores l bound : forall n,
  (forall c, In c l -> fst c < bound) ->
  forall e, In e (tag n l) -> e_score e < bound.
Proof.
  intros n H e He. apply tag_in in He. apply (H _ He).
Qed.

Lemma count_nil sub : sub <> [] -> count [] sub = 0.
Proof. destruct sub; [congruence | reflexivity]. Qed.

Lemma once_each_candidate ch :
  once_each ch ->
  candidate (lit "brown fox") [lit "brown"; lit "fox"] ch
  = Some (12, chunk_obj ch).
Proof.
  unfold once_each, candidate. destruct (st_text ch) as [t|]; [|tauto].
  intros (H1 & H2 & H3).
  assert (T : truthy (lower t) = true)
    by (destruct (lower t); [discriminate H1 | reflexivity]).
  assert (S : score_of (lit "brown fox") [lit "brown"; lit "fox"] (lower t)
              = 12)
    by (unfold score_of; cbn [fold_left]; now rewrite H1, H2, H3).
  rewrite T, S. reflexivity.
Qed.

(** C7, as amended.  The score of a text is ten times the number of
    non-overlapping occurrences of the normalized query in it plus, for
    every word of the query, the number of non-overlapping occurrences of
    that word (the occurrences counted fit into the text side by side);
    every entry of the result comes from a chunk whose
    lower-cased text is not empty and whose score, computed in this way,
    is positive; and for the query ["brown fox"], a chunk whose text holds
    the phrase once and each word once scores 12 and comes first whenever
    every other candidate of the corpus scores less than 12 and
    [top_k >= 1]. *)
Theorem score_and_ranking files query top_k :
  let q := normalize query in
  let terms := findall_words q in
  (forall t, score_of q terms t
             = 10 * count t q + list_sum (map (count t) terms))
  /\ (forall t sub, sub <> [] -> count t sub * length sub <= length t)
  /\ (forall e,
         In e (ranked (Some files) query top_k) ->
         0 < e_score e
         /\ exists ch t,
             In ch (corpus_chunks files) /\ st_text ch = Some t
             /\ lower t <> []
             /\ e_score e = score_of q terms (lower t)
             /\ e_hit e = chunk_obj ch)
  /\ (forall pre ch post,
         q = lit "brown fox" ->
         corpus_chunks files = pre ++ ch :: post ->
         once_each ch ->
         (forall c, In c (candidates_of q terms (pre ++ post)) -> fst c < 12) ->
         (1 <= top_k)%Z ->
         exists tie rest,
           ranked (Some files) query top_k = (12, tie, chunk_obj ch) :: rest).
Proof.
  intros q terms. split; [|split; [|split]].
  - intros t. apply score_of_sum.
  - intros t sub. apply count_nonoverlap.
  - intros e He. destruct (normalize query) as [|c0 q0] eqn:E.
    + rewrite ranked_empty_query in He by assumption. destruct He.
    + destruct (@ranked_inv files query top_k) as (h & d & Hr & I).
      { rewrite E. discriminate. }
      rewrite Hr in He. apply in_rev in He.
      apply (@heap_inv_in _ _ _ _ _ I) in He. unfold offered in He.
      apply tag_in, candidates_of_in in He as (ch & Hch & Hc).
      apply candidate_some in Hc as (t & Ht & Hl & Hs & Hp & Hh).
      split; [exact Hp|]. exists ch, t. rewrite E in Hs.
      subst q terms. auto.
  - intros pre ch post Hq Hc Ho Hlt Hk. subst q terms.
    destruct (@ranked_inv files query top_k) as (h & d & Hr & I).
    { rewrite Hq. discriminate. }
    rewrite Hr. rewrite Hq in Hlt.
    change (findall_words (lit "brown fox"))
      with [lit "brown"; lit "fox"] in Hlt.
    set (Q := lit "brown fox") in *. set (T := [lit "brown"; lit "fox"]) in *.
    set (n := length (candidates_of Q T pre)).
    assert (Eo : offered files query
                 = tag 0 (candidates_of Q T pre)
                   ++ (12, n, chunk_obj ch)
                      :: tag (S n) (candidates_of Q T post)).
    { unfold offered. rewrite Hq.
      change (findall_words Q) with T.
      rewrite Hc, candidates_of_app, tag_app. cbn [candidates_of].
      unfold Q, T. rewrite (@once_each_candidate ch Ho). reflexivity. }
    destruct (@heap_inv_top top_k _ h d (12, n, chunk_obj ch) I Hk)
      as (rest & Hrest).
    + rewrite Eo. apply in_or_app. right. now left.
    + intros y Hy. rewrite Eo in Hy.
      assert (L : forall k0 l0,
                 In y (tag k0 (candidates_of Q T l0)) ->
                 incl l0 (pre ++ post) -> below y (12, n, chunk_obj ch)).
      { intros k0 l0 Hy0 Hi. apply tag_in in Hy0.
        assert (Hs : e_score y < 12).
        { apply (Hlt (e_score y, e_hit y)).
          apply candidates_of_in in Hy0 as (c1 & Hc1 & Hc2).
          apply Hi in Hc1. clear -Hc1 Hc2.
          induction (pre ++ post) as [|x l IH]; simpl in *; [tauto|].
          destruct Hc1 as [->|Hc1].
          - rewrite Hc2. now left.
          - destruct (candidate Q T x); [right|]; auto. }
        unfold below, entry_lt. apply Nat.ltb_lt in Hs.
        change (e_score (12, n, chunk_obj ch)) with 12. now rewrite Hs. }
      apply in_app_or in Hy as [Hy|[Hy|Hy]].
      * right. apply L in Hy; auto. apply incl_appl, incl_refl.
      * now left.
      * right. apply L in Hy; auto. apply incl_appr, incl_refl.
    + exists n, rest. exact Hrest.
Qed.

Lemma score_and_ranking_witness :
  let a := mk_stored (Some (lit "a")) (Some (lit "The quick Brown fox"))
                     None in
  let b := mk_stored (Some (lit "b")) (Some (lit "a fox")) None in
  (0 < 12
   /\ exists ch t,
       In ch (corpus_chunks [Some [a; b]]) /\ st_text ch = Some t
       /\ lower t <> []
       /\ 12 = score_of (normalize (lit " Brown Fox "))
                        (findall_words (normalize (lit " Brown Fox ")))
                        (lower t)
       /\ chunk_obj a = chunk_obj ch)
  /\ exists tie rest,
      ranked (Some [Some [a; b]]) (lit " Brown Fox ") 5%Z
      = (12, tie, chunk_obj a) :: rest.
Proof.
  intros a b.
  pose proof (score_and_ranking [Some [a; b]] (lit " Brown Fox ") 5%Z)
    as (_ & _ & H2 & H3).
  split.
  - apply (H2 (12, 0, chunk_obj a)). vm_compute. now left.
  - apply (H3 [] a [b]).
    + reflexivity.
    + reflexivity.
    + vm_compute. auto.
    + vm_compute. intros c [<-|[]]. simpl. lia.
    + lia.
Defined.

(** C7 as stated fails: the one chunk that holds the phrase once and each
    word once is outranked by a chunk that holds one of the words thirteen
    times. *)
Lemma brown_fox_outranked_counterexample :
  ~ (forall files ch,
        In ch (corpus_chunks files) ->
        once_each ch ->
        (forall ch', In ch' (corpus_chunks files) -> once_each ch' ->
                     ch' = ch) ->
        exists tie rest,
          ranked (Some files) (lit "brown fox") 5%Z
          = (12, tie, chunk_obj ch) :: rest).
Proof.
  intros H.
  destruct (H [Some [mk_stored (Some (lit "a"))
                               (Some (lit "the quick brown fox")) None;
                     mk_stored (Some (lit "b"))
                               (Some (lit "fox fox fox fox fox fox fox fox fox fox fox fox fox"))
                               None]]
              (mk_stored (Some (lit "a")) (Some (lit "the quick brown fox"))
                         None))
    as (tie & rest & E).
  - left. reflexivity.
  - vm_compute. auto.
  - intros ch' [<-|[<-|[]]] Ho; auto.
    vm_compute in Ho. destruct Ho as (Ho & _). discriminate Ho.
  - vm_compute in E. discriminate E.
Qed.

(** C8.  The result is a function of the query, of the corpus as
    enumerated and of [top_k]: two runs on equal inputs return the same
    list.  No two entries of the list [largest] compare equal, the
    tie-breakers being distinct, so that the order of the hits, among
    equal scores too, is the one arrangement of the kept entries that
    descends in (score, tie-breaker). *)
Theorem local_text_search_deterministic corpus query top_k :
  (forall corpus' query' top_k',
      corpus' = corpus -> query' = query -> top_k' = top_k ->
      _local_text_search corpus' query' top_k'
      = _local_text_search corpus query top_k)
  /\ StronglySorted (fun a b => below b a) (ranked corpus query top_k)
  /\ (forall l,
         Permutation l (ranked corpus query top_k) ->
         StronglySorted (fun a b => below b a) l ->
         l = ranked corpus query top_k).
Proof.
  split; [|split].
  - intros c' q' k' -> -> ->. reflexivity.
  - apply ranked_strict.
  - intros l P S. apply sorted_perm_unique; auto. apply ranked_strict.
Qed.

Lemma local_text_search_deterministic_witness :
  let corpus :=
    Some [Some [mk_stored (Some (lit "d")) (Some (lit "a fox")) None;
                mk_stored (Some (lit "e")) (Some (lit "fox b")) None]] in
  _local_text_search corpus (lit "fox") 2%Z
  = _local_text_search corpus (lit "fox") 2%Z
  /\ [(11, 1, mk_hit (Some (lit "fox b")) None None None (Some (lit "e")));
      (11, 0, mk_hit (Some (lit "a fox")) None None None (Some (lit "d")))]
     = ranked corpus (lit "fox") 2%Z.
Proof.
  intros corpus.
  pose proof (local_text_search_deterministic corpus (lit "fox") 2%Z)
    as (H1 & _ & H3).
  split.
  - apply H1; reflexivity.
  - apply H3.
    + vm_compute. apply Permutation_refl.
    + repeat constructor.
Defined.

End RankerClaims.

(** ** More on the chunker *)
Module ChunkerExtras.
Import Py Spec PyFacts Ingest IngestFacts Files FileSpec.
Local Open Scope Z_scope.

(** *** Where [_split_long_text] cuts *)

Lemma rindex_space_some s : forall k,
  rindex_space s = Some k ->
  nth_error s k = Some space
  /\ forall j, (k < j)%nat -> nth_error s j <> Some space.
Proof.
  induction s as [|c s IH]; intros k H; simpl in H; [discriminate|].
  destruct (rindex_space s) as [j0|] eqn:E.
  - injection H as <-. destruct (IH j0 eq_refl) as (A & B). split; auto.
    intros j Hj. destruct j as [|j]; [lia|]. simpl. apply B. lia.
  - destruct (is_space_char c) eqn:C; [|discriminate]. injection H as <-.
    apply is_space_char_eq in C. subst c. split; auto.
    intros j Hj. destruct j as [|j]; [lia|]. simpl. clear -E.
    revert j. induction s as [|d s IH]; intros j; simpl in E.
    + destruct j; discriminate.
    + destruct (rindex_space s); [discriminate|].
      destruct (is_space_char d) eqn:D; [discriminate|].
      destruct j as [|j]; simpl.
      * intros [= ->]. discriminate D.
      * now apply IH.
Qed.

Lemma rindex_space_none s :
  rindex_space s = None -> forall j, nth_error s j <> Some space.
Proof.
  induction s as [|d s IH]; intros E j; simpl in E.
  - destruct j; discriminate.
  - destruct (rindex_space s); [discriminate|].
    destruct (is_space_char d) eqn:D; [discriminate|].
    destruct j as [|j]; simpl.
    + intros [= ->]. discriminate D.
    + now apply IH.
Qed.

Lemma slice_nth (t : str) a b k :
  0 <= a <= b -> b <= len t -> (k < Z.to_nat (b - a))%nat ->
  nth_error (slice t a b) k = nth_error t (Z.to_nat a + k).
Proof.
  intros H1 H2 Hk. rewrite slice_inside by lia.
  rewrite nth_error_firstn.
  replace (k <? Z.to_nat (b - a))%nat with true
    by (symmetry; apply Nat.ltb_lt; lia).
  apply nth_error_skipn.
Qed.

(** X2.  With [chunk_size_chars >= 1], an iteration of the loop of
    [_split_long_text] that stops before the end of the text stops on a
    SPACE; it cuts at the hard end of the window, [chunk_size_chars]
    characters after [start], only when the window holds no SPACE after its
    first character. *)
Theorem split_step_cuts_at_space csc (t : str) start parts :
  1 <= csc -> 0 <= start < len t ->
  fst (split_step csc t (start, parts)) < len t ->
  nth_error t (Z.to_nat (fst (split_step csc t (start, parts)))) = Some space
  \/ (fst (split_step csc t (start, parts)) = start + csc
      /\ forall i, start < i < start + csc ->
                   nth_error t (Z.to_nat i) <> Some space).
Proof.
  intros Hc Hs. unfold split_step. simpl fst.
  set (end0 := Z.min (start + csc) (len t)).
  destruct (end0 <? len t) eqn:E1; [|unfold end0 in *; apply Z.ltb_ge in E1; lia].
  apply Z.ltb_lt in E1. assert (He : end0 = start + csc) by (unfold end0 in *; lia).
  assert (Hno : forall k0,
             (forall j, (k0 < j)%nat ->
                        nth_error (slice t start end0) j <> Some space) ->
             Z.of_nat k0 <= 0 ->
             forall i, start < i < start + csc ->
                       nth_error t (Z.to_nat i) <> Some space).
  { intros k0 H Hk i Hi.
    replace (Z.to_nat i) with (Z.to_nat start + Z.to_nat (i - start))%nat
      by lia.
    rewrite <- (@slice_nth t start end0) by lia. apply H. lia. }
  unfold rfind_space. rewrite clip_id by lia.
  destruct (rindex_space (slice t start end0)) as [k|] eqn:R.
  - destruct (rindex_space_some _ R) as (A & B).
    pose proof (rindex_space_lt _ R) as L.
    pose proof (@slice_len t start end0 ltac:(lia) ltac:(lia)) as Ls.
    unfold len in Ls.
    destruct (start + Z.of_nat k >? start) eqn:G.
    + intros _. left. rewrite <- A.
      rewrite (@slice_nth t start end0) by lia. f_equal. lia.
    + intros _. right. split; auto.
      apply (Hno k); auto. rewrite Z.gtb_ltb in G. apply Z.ltb_ge in G. lia.
  - rewrite gtb_false by lia. intros _. right. split; auto.
    apply (Hno 0%nat); [|lia]. intros j _.
    now apply rindex_space_none.
Qed.

Lemma split_step_cuts_at_space_witness :
  nth_error (lit "ab cd ef")
            (Z.to_nat (fst (split_step 4 (lit "ab cd ef") (0, []))))
  = Some space
  \/ (fst (split_step 4 (lit "ab cd ef") (0, [])) = 0 + 4
      /\ forall i, 0 < i < 0 + 4 ->
                   nth_error (lit "ab cd ef") (Z.to_nat i) <> Some space).
Proof.
  apply (@split_step_cuts_at_space 4 (lit "ab cd ef") 0 []).
  - lia.
  - vm_compute. split; [discriminate | reflexivity].
  - vm_compute. reflexivity.
Defined.

(** X1.  With [chunk_size_chars >= 1], [_split_long_text] returns, for every
    text, and its parts hold, in order, exactly the non-whitespace
    characters of the text; when the text is longer than
    [chunk_size_chars], no part is empty or starts or ends with
    whitespace. *)
Theorem split_long_text_keeps_content csc (t : str) :
  1 <= csc ->
  exists parts,
    _split_long_text csc t = Some parts
    /\ nonws (concat parts) = nonws t
    /\ (csc < len t -> Forall tidy parts).
Proof.
  intros Hc. destruct (Z_lt_le_dec csc (len t)) as [L|L].
  - destruct (split_long_text_long t Hc L) as (ps & H & F & N).
    exists ps. repeat split; auto. intros _.
    eapply Forall_impl; [|exact F]. intros p. apply window_part_tidy.
  - exists [t]. unfold _split_long_text, _split_long_text_fuel.
    replace (len t <=? csc) with true by (symmetry; apply Z.leb_le; lia).
    repeat split.
    + simpl. now rewrite app_nil_r.
    + lia.
Qed.

Lemma split_long_text_keeps_content_witness :
  exists parts,
    _split_long_text 4 (lit "ab  cd ef") = Some parts
    /\ nonws (concat parts) = nonws (lit "ab  cd ef")
    /\ (4 < len (lit "ab  cd ef") -> Forall tidy parts).
Proof.
  apply (@split_long_text_keeps_content 4 (lit "ab  cd ef")). lia.
Defined.

(** *** Sentences *)

Lemma scan_no_break_single s : forall aft acc,
  no_break s = true -> (aft = true -> starts_clean s = true) ->
  re_split_scan false aft acc s = [rev acc ++ s].
Proof.
  induction s as [|c s IH]; intros aft acc N A.
  - simpl. now rewrite app_nil_r.
  - assert (Ns : no_break s = true).
    { destruct s; auto. simpl in N. now apply andb_prop in N. }
    simpl re_split_scan. destruct (isspace c) eqn:E.
    + destruct aft.
      * specialize (A eq_refl). simpl in A. rewrite E in A. discriminate.
      * rewrite IH; auto; [|discriminate]. simpl. now rewrite <- app_assoc.
    + rewrite IH; auto.
      * simpl. now rewrite <- app_assoc.
      * intros T. destruct s as [|d s]; auto. simpl in N |- *.
        apply andb_prop in N as (N & _). rewrite T in N. exact N.
Qed.

Lemma good_sentence_fixed s : good s -> _split_into_sentences s = [s].
Proof.
  intros (T & N). unfold _split_into_sentences, re_split.
  rewrite (tidy_strip T), scan_no_break_single by (auto; discriminate).
  simpl. pose proof (tidy_strip T) as Es. destruct T as (T & _).
  apply truthy_true in T. rewrite Es, T. simpl. now rewrite Es.
Qed.

(** X3.  [_split_into_sentences] returns the empty list exactly when the
    text holds no character other than whitespace; every sentence it
    returns is not empty, neither starts nor ends with whitespace, and is
    one sentence: splitting it again gives the sentence itself. *)
Theorem sentences_are_sentences (t : str) :
  (_split_into_sentences t = [] <-> nonws t = [])
  /\ Forall (fun s => tidy s /\ _split_into_sentences s = [s])
            (_split_into_sentences t).
Proof.
  split; [apply sentences_nil_iff|].
  eapply Forall_impl; [|apply split_into_sentences_good].
  intros s G. split; [apply G | now apply good_sentence_fixed].
Qed.

(** *** The chunks of [_aggregate_sentences_to_chunks] *)

Lemma number_meta sid pg ts : forall i,
  Forall (fun c => source_id c = sid /\ page c = pg) (number sid pg i ts).
Proof.
  induction ts as [|x ts IH]; intros i; simpl; constructor; auto.
Qed.

Lemma merge_from_meta csc mcc sid (pg : option Z) cs : forall prev,
  source_id prev = sid /\ page prev = pg ->
  Forall (fun c => source_id c = sid /\ page c = pg) cs ->
  Forall (fun c => source_id c = sid /\ page c = pg)
         (merge_from csc mcc prev cs).
Proof.
  induction cs as [|c cs IH]; intros prev P F; simpl.
  - auto.
  - apply Forall_cons_iff in F as (F1 & F2).
    destruct (mergeable csc mcc prev c).
    + apply IH; auto.
    + constructor; auto.
Qed.

Lemma aggregate_meta_spec csc mcc sents (sid : str) pg :
  1 <= csc ->
  exists out,
    _aggregate_sentences_to_chunks csc mcc sents sid pg = Some out
    /\ Forall (fun c => source_id c = sid /\ page c = pg
                        /\ tidy (text c)
                        /\ char_len c = len (text c)
                        /\ char_len c <= csc) out.
Proof.
  intros Hc. destruct (aggregate_total mcc sid pg sents Hc) as (out & H).
  exists out. split; auto.
  destruct (aggregate_spec _ _ _ _ Hc H)
    as (texts & _ & Ho & _ & W & B & _).
  assert (M : Forall (fun c => source_id c = sid /\ page c = pg) out).
  { rewrite Ho. pose proof (number_meta sid pg texts 0) as F.
    destruct (number sid pg 0 texts) as [|c cs].
    - constructor.
    - rewrite merge_pass_cons. apply Forall_cons_iff in F as (F1 & F2).
      now apply merge_from_meta. }
  rewrite Forall_forall in *. intros c Hc0.
  destruct (M c Hc0) as (M1 & M2). destruct (W c Hc0) as (W1 & W2).
  repeat split; auto; apply W1.
Qed.

(** X4.  With [chunk_size_chars >= 1], [_aggregate_sentences_to_chunks]
    returns for every list of sentences, and every chunk it returns
    carries the source identifier and the page that were passed in, a text
    that is not empty and neither starts nor ends with whitespace, the
    length of that text as [char_len], and at most [chunk_size_chars]
    characters. *)
Theorem aggregate_chunks_well_formed csc mcc sents (sid : str) pg :
  1 <= csc ->
  exists out,
    _aggregate_sentences_to_chunks csc mcc sents sid pg = Some out
    /\ Forall (fun c => source_id c = sid /\ page c = pg
                        /\ tidy (text c)
                        /\ char_len c = len (text c)
                        /\ char_len c <= csc) out.
Proof. apply aggregate_meta_spec. Qed.

Lemma aggregate_chunks_well_formed_witness :
  exists out,
    _aggregate_sentences_to_chunks 10 4 [lit "Hi there."; lit "Bye."]
                                   (lit "doc") (Some 3) = Some out
    /\ Forall (fun c => source_id c = lit "doc" /\ page c = Some 3
                        /\ tidy (text c)
                        /\ char_len c = len (text c)
                        /\ char_len c <= 10) out.
Proof.
  apply (@aggregate_chunks_well_formed 10 4 [lit "Hi there."; lit "Bye."]
                                       (lit "doc") (Some 3)).
  lia.
Defined.

(** *** The merge pass is final *)

Lemma merge_from_settled csc mcc cs : forall prev,
  wf_chunk prev -> Forall wf_chunk cs ->
  settled csc mcc (merge_from csc mcc prev cs).
Proof.
  induction cs as [|c cs IH]; intros prev Wp Wc.
  - simpl. auto.
  - apply Forall_cons_iff in Wc as (W1 & W2). simpl merge_from.
    destruct (mergeable csc mcc prev c) eqn:M.
    + apply IH; auto. now apply absorb_wf.
    + specialize (IH c W1 W2).
      destruct (merge_from_head csc mcc c cs) as (h & tl & E & _ & Hl).
      rewrite E in *. split; auto. specialize (Hl W1 W2).
      unfold mergeable in *. apply andb_false_iff in M as [M|M].
      * rewrite M. reflexivity.
      * apply Z.leb_gt in M. apply andb_false_iff. right.
        apply Z.leb_gt. lia.
Qed.

Lemma settled_fixed csc mcc l : forall prev,
  settled csc mcc (prev :: l) -> merge_from csc mcc prev l = prev :: l.
Proof.
  induction l as [|c l IH]; intros prev S; simpl.
  - reflexivity.
  - simpl in S. destruct S as (M & S). rewrite M. f_equal. now apply IH.
Qed.

(** X5.  On chunks whose texts are not empty and stripped, as the first
    loop emits them, the merge pass is final: its result holds no pair of
    neighbours that it would merge (the earlier one below
    [min_chunk_chars] and the merged length within [chunk_size_chars]),
    and running the pass on its result changes nothing. *)
Theorem merge_pass_idempotent csc mcc cs :
  Forall wf_chunk cs ->
  settled csc mcc (merge_pass csc mcc cs)
  /\ merge_pass csc mcc (merge_pass csc mcc cs) = merge_pass csc mcc cs.
Proof.
  intros W. destruct cs as [|c cs].
  - rewrite merge_pass_nil. split; [exact I | reflexivity].
  - rewrite merge_pass_cons. apply Forall_cons_iff in W as (W1 & W2).
    pose proof (merge_from_settled csc mcc W1 W2) as S. split; auto.
    destruct (merge_from csc mcc c cs) as [|h tl] eqn:E.
    + reflexivity.
    + rewrite merge_pass_cons. now apply settled_fixed.
Qed.

Lemma merge_pass_idempotent_witness :
  let cs := [mk_chunk (lit "a") (lit "doc") 0 None 1;
             mk_chunk (lit "b") (lit "doc") 1 None 1;
             mk_chunk (lit "c") (lit "doc") 2 None 1] in
  settled 11 2 (merge_pass 11 2 cs)
  /\ merge_pass 11 2 (merge_pass 11 2 cs) = merge_pass 11 2 cs.
Proof.
  intros cs. apply (@merge_pass_idempotent 11 2 cs).
  repeat constructor; discriminate.
Defined.

(** *** [detect_file_type_from_bytes] *)

Lemma seq_eqb_refl a : seq_eqb a a = true.
Proof. induction a as [|x a IH]; simpl; auto. now rewrite N.eqb_refl. Qed.

Lemma seq_eqb_eq a : forall b, seq_eqb a b = true -> a = b.
Proof.
  induction a as [|x a IH]; intros [|y b] H; simpl in H; try discriminate.
  - reflexivity.
  - apply andb_prop in H as (H1 & H2). apply N.eqb_eq in H1.
    apply IH in H2. congruence.
Qed.

Lemma endswith_app (a suffix : str) : endswith (a ++ suffix) suffix = true.
Proof.
  unfold endswith. rewrite length_app.
  replace (length a + length suffix - length suffix)%nat with (length a)
    by lia.
  rewrite skipn_app, skipn_all, Nat.sub_diag. simpl. apply seq_eqb_refl.
Qed.

Lemma detect_pdf_or_text (file_bytes : bytes) (filename : str) :
  detect_file_type_from_bytes file_bytes filename = lit "pdf"
  \/ detect_file_type_from_bytes file_bytes filename = lit "text".
Proof.
  unfold detect_file_type_from_bytes.
  destruct (seq_eqb _ _); auto. destruct (endswith _ _); auto.
Qed.

(** X8.  [detect_file_type_from_bytes] answers ["pdf"] for every content
    that starts with the four bytes [%PDF], whatever the file name, and for
    every file name whose extension is [.pdf] in any mix of upper and lower
    case, whatever the content; it never answers anything but ["pdf"] or
    ["text"]. *)
Theorem detect_pdf (file_bytes : bytes) (filename : str) :
  (firstn 4 file_bytes = lit "%PDF" ->
   detect_file_type_from_bytes file_bytes filename = lit "pdf")
  /\ (forall stem ext,
         filename = stem ++ ext -> lower ext = lit ".pdf" ->
         detect_file_type_from_bytes file_bytes filename = lit "pdf")
  /\ (detect_file_type_from_bytes file_bytes filename = lit "pdf"
      \/ detect_file_type_from_bytes file_bytes filename = lit "text").
Proof.
  unfold detect_file_type_from_bytes. split; [|split].
  - intros ->. now rewrite seq_eqb_refl.
  - intros stem ext -> E.
    destruct (seq_eqb (firstn 4 file_bytes) (lit "%PDF")); auto.
    unfold lower in *. rewrite map_app, E, endswith_app. reflexivity.
  - apply detect_pdf_or_text.
Qed.

Lemma detect_pdf_witness :
  detect_file_type_from_bytes (lit "%PDF-1.7 ...") (lit "notes.txt")
  = lit "pdf"
  /\ detect_file_type_from_bytes (lit "plain") (lit "Report.PdF") = lit "pdf".
Proof.
  split.
  - apply (proj1 (detect_pdf (lit "%PDF-1.7 ...") (lit "notes.txt"))).
    reflexivity.
  - apply (proj1 (proj2 (detect_pdf (lit "plain") (lit "Report.PdF")))
             (lit "Report") (lit ".PdF")); reflexivity.
Defined.

(** *** The PDF branch of [process_file_bytes] *)

Lemma sorted_app (A : Type) (R : A -> A -> Prop) a : forall b,
  StronglySorted R a -> StronglySorted R b ->
  (forall x y, In x a -> In y b -> R x y) ->
  StronglySorted R (a ++ b).
Proof.
  induction a as [|x a IH]; intros b Sa Sb H; simpl; auto.
  apply StronglySorted_inv in Sa as (S1 & S2). constructor.
  - apply IH; auto. intros u v Hu Hv. apply H; auto. now right.
  - apply Forall_app. split; auto.
    apply Forall_forall. intros y Hy. apply H; auto. now left.
Qed.

Lemma blank_page_skipped (pt : str) :
  negb (truthy pt) || negb (truthy (strip pt)) = negb (truthy (strip pt)).
Proof. destruct pt; reflexivity. Qed.

Lemma blank_nonws (pt : str) : truthy (strip pt) = false -> nonws pt = [].
Proof.
  intros H. apply truthy_false in H. now rewrite <- nonws_strip, H.
Qed.

Lemma kept_pages_in pages : forall p i pt,
  In (i, pt) (kept_pages p pages) ->
  p <= i /\ nth_error pages (Z.to_nat (i - p)) = Some pt /\ strip pt <> [].
Proof.
  induction pages as [|x pages IH]; intros p i pt H; simpl in H; [tauto|].
  assert (R : forall H0 : In (i, pt) (kept_pages (p + 1) pages),
             p <= i /\ nth_error (x :: pages) (Z.to_nat (i - p)) = Some pt
             /\ strip pt <> []).
  { intros H0. destruct (IH _ _ _ H0) as (A & B & C). repeat split; auto.
    - lia.
    - replace (Z.to_nat (i - p)) with (S (Z.to_nat (i - (p + 1)))) by lia.
      exact B. }
  destruct (truthy (strip x)) eqn:E; auto.
  destruct H as [H|H]; auto. injection H as <- <-.
  rewrite Z.sub_diag. apply truthy_true in E. repeat split; auto. lia.
Qed.

Section Pdf.
Variables csc mcc : Z.
Variable sid : str.
Hypothesis Hcsc : 1 <= csc.

(** What the loop over the pages adds to [result_chunks]. *)
Lemma pdf_loop_spec pages : forall p acc,
  exists out,
    pdf_loop csc mcc sid p pages acc = Some (acc ++ out)
    /\ Forall (fun c => source_id c = sid /\ tidy (text c)
                        /\ char_len c = len (text c) /\ char_len c <= csc
                        /\ page c = Some (page_no c)
                        /\ exists pt, In (page_no c, pt) (kept_pages p pages))
              out
    /\ nonws (concat (map text out)) = nonws (concat pages)
    /\ StronglySorted page_index_lt out.
Proof.
  induction pages as [|pt pages IH]; intros p acc.
  - exists []. simpl. rewrite app_nil_r. repeat split; auto; constructor.
  - simpl pdf_loop. simpl kept_pages. rewrite blank_page_skipped.
    destruct (truthy (strip pt)) eqn:E; simpl negb; cbv iota.
    + destruct (@aggregate_meta_spec
                  csc mcc (_split_into_sentences pt) sid (Some p) Hcsc)
        as (pc & Hpc & Fpc).
      rewrite Hpc.
      destruct (aggregate_spec _ _ _ _ Hcsc Hpc)
        as (texts & _ & _ & _ & _ & _ & Hn & Hs & _).
      destruct (IH (p + 1) (acc ++ pc)) as (out & Ho & Fo & No & So).
      exists (pc ++ out). rewrite Ho, app_assoc. split; [reflexivity|].
      assert (Pp : forall c, In c pc -> page_no c = p).
      { intros c Hc0. rewrite Forall_forall in Fpc.
        destruct (Fpc c Hc0) as (_ & Hp & _). unfold page_no.
        now rewrite Hp. }
      assert (Po : forall c, In c out -> p + 1 <= page_no c).
      { intros c Hc0. rewrite Forall_forall in Fo.
        destruct (Fo c Hc0) as (_ & _ & _ & _ & _ & pt' & Hin).
        now apply kept_pages_in in Hin. }
      split; [|split].
      * apply Forall_app. split.
        -- apply Forall_forall. intros c Hc0. rewrite Forall_forall in Fpc.
           destruct (Fpc c Hc0) as (A & B & C & D & F).
           do 5 (split; [first [assumption | now rewrite (Pp c Hc0)]|]).
           exists pt. left. now rewrite (Pp c Hc0).
        -- eapply Forall_impl; [|exact Fo].
           intros c (A & B & C & D & F & pt' & Hin).
           do 5 (split; [assumption|]). exists pt'. now right.
      * rewrite map_app, concat_app, nonws_app, Hn, No.
        rewrite split_into_sentences_content. simpl. now rewrite nonws_app.
      * apply sorted_app; auto.
        -- clear -Hs Pp. induction pc as [|c pc IHp]; [constructor|].
           simpl in Hs. apply StronglySorted_inv in Hs as (S1 & S2).
           constructor.
           ++ apply IHp; auto. intros; apply Pp; now right.
           ++ apply Forall_forall. intros y Hy. right. split.
              ** rewrite (Pp c), (Pp y); auto; [now right | now left].
              ** rewrite Forall_forall in S2. apply S2.
                 now apply in_map.
        -- intros x y Hx Hy. left. rewrite (Pp x Hx).
           specialize (Po y Hy). lia.
    + destruct (IH (p + 1) acc) as (out & Ho & Fo & No & So).
      exists out. rewrite Ho. repeat split; auto.
      simpl. rewrite nonws_app, (blank_nonws _ E). exact No.
Qed.

End Pdf.

Lemma tidy_nonws s : tidy s -> nonws s <> [].
Proof.
  intros (H & H1 & _). destruct s as [|c s]; [congruence|].
  simpl in *. unfold nonws. simpl. rewrite H1. discriminate.
Qed.

Lemma nonws_nil_strip s : nonws s = [] <-> strip s = [].
Proof.
  split; intros H.
  - destruct (strip s) as [|c r] eqn:E; auto.
    assert (T : tidy (strip s)) by (apply strip_tidy; rewrite E; discriminate).
    apply tidy_nonws in T. rewrite nonws_strip in T. contradiction.
  - now rewrite <- nonws_strip, H.
Qed.

Lemma nonws_concat_nil (l : list str) :
  nonws (concat l) = [] <-> Forall (fun x => strip x = []) l.
Proof.
  induction l as [|x l IH]; simpl.
  - split; auto.
  - rewrite nonws_app, Forall_cons_iff, <- IH, <- nonws_nil_strip.
    split.
    + intros H. now apply app_eq_nil in H.
    + now intros (-> & ->).
Qed.

(** X6.  For a file taken for a PDF whose pages the parser delivers, and a
    positive chunk size, [process_file_bytes] returns, and every chunk it
    returns carries the source id of the call (the file name, or
    [file-] and the fresh id when the name is empty), a stripped non-empty
    text of at most [chunk_size_chars] characters measured by [char_len],
    and the zero-based number of a page of the file that is not blank. *)
Theorem pdf_chunks_per_page csc mcc parse_pdf_bytes decode_text fresh
        file_bytes filename pages :
  1 <= csc ->
  detect_file_type_from_bytes file_bytes filename = lit "pdf" ->
  parse_pdf_bytes file_bytes = Some pages ->
  exists out,
    process_file_bytes csc mcc parse_pdf_bytes decode_text fresh
                       file_bytes filename = Returns out
    /\ Forall (fun c =>
                 source_id c
                 = (if truthy filename then filename else lit "file-" ++ fresh)
                 /\ tidy (text c)
                 /\ char_len c = len (text c)
                 /\ char_len c <= csc
                 /\ exists i page_text,
                      page c = Some i /\ 0 <= i
                      /\ nth_error pages (Z.to_nat i) = Some page_text
                      /\ strip page_text <> []) out.
Proof.
  intros Hc Hd Hp. unfold process_file_bytes. rewrite Hd, Hp.
  change (seq_eqb (lit "pdf") (lit "pdf")) with true. cbv iota.
  set (sid := if truthy filename then filename else lit "file-" ++ fresh).
  destruct (pdf_loop_spec mcc sid Hc pages 0 []) as (out & Ho & Fo & _).
  rewrite Ho. exists out. split; [reflexivity|].
  eapply Forall_impl; [|exact Fo].
  intros c (A & B & C & D & F & pt & Hin).
  do 4 (split; [assumption|]).
  apply kept_pages_in in Hin as (G1 & G2 & G3).
  exists (page_no c), pt. rewrite Z.sub_0_r in G2. auto.
Qed.

Lemma pdf_chunks_per_page_witness :
  exists out,
    process_file_bytes 20 5 (fun _ => Some [lit "  "; lit "A b. C d."])
                       (fun b => b) (lit "0a1b2c3d")
                       (lit "%PDF-1.4") (lit "") = Returns out
    /\ Forall (fun c =>
                 source_id c = lit "file-0a1b2c3d"
                 /\ tidy (text c)
                 /\ char_len c = len (text c)
                 /\ char_len c <= 20
                 /\ exists i page_text,
                      page c = Some i /\ 0 <= i
                      /\ nth_error [lit "  "; lit "A b. C d."] (Z.to_nat i)
                         = Some page_text
                      /\ strip page_text <> []) out.
Proof.
  apply (@pdf_chunks_per_page 20 5 (fun _ => Some [lit "  "; lit "A b. C d."])
           (fun b => b) (lit "0a1b2c3d") (lit "%PDF-1.4") (lit "")
           [lit "  "; lit "A b. C d."]).
  - lia.
  - reflexivity.
  - reflexivity.
Defined.

(** X7.  Under the same conditions the chunks of a PDF keep exactly the
    non-whitespace characters of the pages, in order; they come sorted by
    page and, within a page, by [chunk_index], so that no two of them share
    both; and there are none at all exactly when every page is blank. *)
Theorem pdf_chunks_in_page_order csc mcc parse_pdf_bytes decode_text fresh
        file_bytes filename pages :
  1 <= csc ->
  detect_file_type_from_bytes file_bytes filename = lit "pdf" ->
  parse_pdf_bytes file_bytes = Some pages ->
  exists out,
    process_file_bytes csc mcc parse_pdf_bytes decode_text fresh
                       file_bytes filename = Returns out
    /\ nonws (concat (map text out)) = nonws (concat pages)
    /\ StronglySorted page_index_lt out
    /\ (out = [] <-> Forall (fun page_text => strip page_text = []) pages).
Proof.
  intros Hc Hd Hp. unfold process_file_bytes. rewrite Hd, Hp.
  change (seq_eqb (lit "pdf") (lit "pdf")) with true. cbv iota.
  set (sid := if truthy filename then filename else lit "file-" ++ fresh).
  destruct (pdf_loop_spec mcc sid Hc pages 0 []) as (out & Ho & Fo & No & So).
  rewrite Ho. exists out. split; [reflexivity|].
  split; [exact No|]. split; [exact So|].
  rewrite <- nonws_concat_nil, <- No. split.
  - now intros ->.
  - destruct out as [|c out]; auto. intros H. exfalso.
    apply Forall_cons_iff in Fo as ((_ & T & _) & _).
    apply tidy_nonws in T. simpl in H. rewrite nonws_app in H.
    now apply app_eq_nil in H.
Qed.

Lemma pdf_chunks_in_page_order_witness :
  exists out,
    process_file_bytes 20 5
                       (fun _ => Some [lit "One. Two."; lit ""; lit "Three."])
                       (fun b => b) (lit "0a1b2c3d")
                       (lit "scan") (lit "scan.PDF") = Returns out
    /\ nonws (concat (map text out))
       = nonws (concat [lit "One. Two."; lit ""; lit "Three."])
    /\ StronglySorted page_index_lt out
    /\ (out = [] <-> Forall (fun page_text => strip page_text = [])
                            [lit "One. Two."; lit ""; lit "Three."]).
Proof.
  apply (@pdf_chunks_in_page_order 20 5
           (fun _ => Some [lit "One. Two."; lit ""; lit "Three."])
           (fun b => b) (lit "0a1b2c3d") (lit "scan") (lit "scan.PDF")
           [lit "One. Two."; lit ""; lit "Three."]).
  - lia.
  - reflexivity.
  - reflexivity.
Defined.

(** *** The text branch and the ways a call can end *)

Lemma process_text_nonempty csc mcc t sid out :
  process_text csc mcc t sid = Some out -> out <> [].
Proof.
  intros H. destruct (process_text_cases _ _ _ _ H) as [(_ & ->)|(N & Hc & A)].
  - discriminate.
  - destruct (aggregate_spec _ _ _ _ Hc A)
      as (texts & _ & _ & _ & _ & _ & Hn & _).
    intros ->. simpl in Hn. rewrite split_into_sentences_content in Hn.
    apply N. apply sentences_nil_iff. now rewrite <- Hn.
Qed.

(** X9.  With a positive chunk size [process_file_bytes] always ends: it
    raises exactly when the file is taken for a PDF and the PDF parser
    raises, and otherwise returns.  For a file not taken for a PDF it
    returns what [process_text] makes of the decoded content under the
    source id of the call, which is never an empty list. *)
Theorem process_file_bytes_ends csc mcc parse_pdf_bytes decode_text fresh
        file_bytes filename :
  1 <= csc ->
  let r := process_file_bytes csc mcc parse_pdf_bytes decode_text fresh
                              file_bytes filename in
  r <> Loops
  /\ (r = Raises <->
      detect_file_type_from_bytes file_bytes filename = lit "pdf"
      /\ parse_pdf_bytes file_bytes = None)
  /\ (detect_file_type_from_bytes file_bytes filename = lit "text" ->
      exists out,
        r = Returns out /\ out <> []
        /\ process_text csc mcc (decode_text file_bytes)
             (if truthy filename then filename else lit "file-" ++ fresh)
           = Some out).
Proof.
  intros Hc r. subst r. unfold process_file_bytes.
  set (sid := if truthy filename then filename else lit "file-" ++ fresh).
  destruct (detect_pdf_or_text file_bytes filename) as [E|E];
    rewrite E.
  - change (seq_eqb (lit "pdf") (lit "pdf")) with true. cbv iota.
    destruct (parse_pdf_bytes file_bytes) as [pages|].
    + destruct (pdf_loop_spec mcc sid Hc pages 0 []) as (out & Ho & _).
      rewrite Ho. split; [discriminate|]. split.
      * split; [discriminate | intros (_ & ?); discriminate].
      * discriminate.
    + split; [discriminate|]. split; [tauto | discriminate].
  - change (seq_eqb (lit "text") (lit "pdf")) with false. cbv iota.
    unfold parse_text_bytes. simpl text_loop.
    destruct (process_text_total mcc (decode_text file_bytes) sid Hc)
      as (out & Ho).
    rewrite Ho. simpl. split; [discriminate|]. split.
    + split; [discriminate | intros (? & _); discriminate].
    + intros _. exists out. repeat split; auto.
      eapply process_text_nonempty; eauto.
Qed.

Lemma process_file_bytes_ends_witness :
  process_file_bytes 20 5 (fun _ => None) (fun b => b) (lit "0a1b2c3d")
                     (lit "%PDF broken") (lit "x.pdf") = Raises.
Proof.
  apply (proj1 (proj2 (@process_file_bytes_ends 20 5 (fun _ => None)
                         (fun b => b) (lit "0a1b2c3d")
                         (lit "%PDF broken") (lit "x.pdf") ltac:(lia)))).
  split; reflexivity.
Defined.

End ChunkerExtras.

(** ** Further properties of the local text search *)
Module RankerExtras.
Import Py Retriever RankSpec PyFacts RetrieverFacts.

Lemma heap_inv_length top_k seen h dropped :
  heap_inv top_k seen h dropped ->
  length h = Nat.min (Z.to_nat top_k) (length seen).
Proof.
  intros (P & _ & _ & E & L).
  apply Permutation_length in P. rewrite length_app in P.
  destruct (Z_lt_le_dec (Z.of_nat (length h)) top_k) as [Lt|Ge].
  - rewrite (E Lt) in P. simpl in P. lia.
  - lia.
Qed.

Lemma candidates_of_length q terms chs :
  length (candidates_of q terms chs) <= length chs.
Proof.
  induction chs as [|ch chs IH]; simpl; auto.
  destruct (candidate q terms ch); simpl; lia.
Qed.

(** X10.  For a query that is not blank, the search returns as many hits as
    [top_k] allows and the corpus offers: the smaller of [top_k] (counted
    as [0] when negative) and the number of chunks with a positive score,
    which is at most the number of chunks read.  In particular a [top_k]
    that is not positive gives no hit. *)
Theorem search_size files query top_k :
  normalize query <> [] ->
  length (_local_text_search (Some files) query top_k)
  = Nat.min (Z.to_nat top_k) (length (offered files query))
  /\ length (offered files query) <= length (corpus_chunks files)
  /\ ((top_k <= 0)%Z -> _local_text_search (Some files) query top_k = []).
Proof.
  intros N.
  assert (L : length (_local_text_search (Some files) query top_k)
              = Nat.min (Z.to_nat top_k) (length (offered files query))).
  { unfold _local_text_search. rewrite length_map.
    destruct (@ranked_inv files query top_k N) as (h & d & -> & I).
    rewrite length_rev. eapply heap_inv_length; eauto. }
  split; [exact L|]. split.
  - unfold offered. rewrite tag_length. apply candidates_of_length.
  - intros K. apply length_zero_iff_nil. rewrite L. lia.
Qed.

Lemma search_size_witness :
  length (_local_text_search
            (Some [Some [mk_stored None (Some (lit "a b")) None;
                         mk_stored None (Some (lit "c")) None;
                         mk_stored None (Some (lit "A")) None];
                   None;
                   Some [mk_stored None (Some (lit "a a")) None]])
            (lit " A ") 2%Z)
  = 2.
Proof.
  rewrite (proj1 (@search_size
            [Some [mk_stored None (Some (lit "a b")) None;
                   mk_stored None (Some (lit "c")) None;
                   mk_stored None (Some (lit "A")) None];
             None;
             Some [mk_stored None (Some (lit "a a")) None]]
            (lit " A ") 2%Z ltac:(discriminate))).
  reflexivity.
Defined.

(** X11.  Every entry that the search returns was offered by the scan, and
    every offered entry that it does not return is below every entry that
    it returns: it has a smaller score, or the same score and a smaller
    tie-breaker. *)
Theorem search_keeps_best files query top_k e :
  In e (ranked (Some files) query top_k) ->
  In e (offered files query)
  /\ forall d,
       In d (offered files query) ->
       ~ In d (ranked (Some files) query top_k) ->
       below d e.
Proof.
  intros He.
  destruct (normalize query) as [|c q] eqn:E.
  - rewrite ranked_eq, E in He. destruct He.
  - destruct (@ranked_inv files query top_k) as (h & dr & R & I).
    { rewrite E. discriminate. }
    rewrite R in He |- *. apply in_rev in He.
    split; [eapply heap_inv_in; eauto|].
    intros d Hd Hn.
    destruct I as (P & _ & F & _).
    apply (Permutation_in _ P), in_app_or in Hd as [Hd|Hd].
    + exfalso. apply Hn. now apply -> in_rev.
    + rewrite Forall_forall in F. specialize (F _ Hd).
      rewrite Forall_forall in F. now apply F.
Qed.

Lemma search_keeps_best_witness :
  In (22, 1, chunk_obj (mk_stored None (Some (lit "a a")) None))
     (offered [Some [mk_stored None (Some (lit "a")) None;
                     mk_stored None (Some (lit "a a")) None]] (lit "a"))
  /\ forall d,
       In d (offered [Some [mk_stored None (Some (lit "a")) None;
                            mk_stored None (Some (lit "a a")) None]]
                     (lit "a")) ->
       ~ In d (ranked (Some [Some [mk_stored None (Some (lit "a")) None;
                                   mk_stored None (Some (lit "a a")) None]])
                      (lit "a") 1%Z) ->
       below d (22, 1, chunk_obj (mk_stored None (Some (lit "a a")) None)).
Proof.
  apply (@search_keeps_best
           [Some [mk_stored None (Some (lit "a")) None;
                  mk_stored None (Some (lit "a a")) None]]
           (lit "a") 1%Z
           (22, 1, chunk_obj (mk_stored None (Some (lit "a a")) None))).
  vm_compute. left. reflexivity.
Defined.

(** *** The hits for a smaller [top_k] *)

Lemma sorted_app_l (R : entry -> entry -> Prop) a : forall b,
  StronglySorted R (a ++ b) -> StronglySorted R a.
Proof.
  induction a as [|x a IH]; intros b S; [constructor|].
  simpl in S. apply StronglySorted_inv in S as (S1 & S2).
  apply Forall_app in S2 as (S2 & _). constructor; eauto.
Qed.

Lemma sorted_app_r (R : entry -> entry -> Prop) a : forall b,
  StronglySorted R (a ++ b) -> StronglySorted R b.
Proof.
  induction a as [|x a IH]; intros b S; auto.
  simpl in S. apply StronglySorted_inv in S as (S1 & _). auto.
Qed.

Lemma sorted_firstn (R : entry -> entry -> Prop) n l :
  StronglySorted R l -> StronglySorted R (firstn n l).
Proof.
  intros S. rewrite <- (firstn_skipn n l) in S.
  eapply sorted_app_l; eauto.
Qed.

Lemma sorted_nodup (R : entry -> entry -> Prop) l :
  (forall a, ~ R a a) -> StronglySorted R l -> NoDup l.
Proof.
  intros Irr. induction l as [|a l IH]; intros S; constructor.
  - apply StronglySorted_inv in S as (_ & F). intros Hin.
    rewrite Forall_forall in F. exact (Irr a (F a Hin)).
  - apply StronglySorted_inv in S as (S & _). auto.
Qed.

Lemma below_irrefl a : ~ below a a.
Proof. intros B. exact (below_asym B B). Qed.

(** The heap, largest entry first, is the beginning of the list of all the
    entries seen, sorted from the largest to the smallest. *)
Lemma heap_is_prefix top_k seen h dropped S :
  heap_inv top_k seen h dropped ->
  Permutation S seen ->
  StronglySorted (fun a b => below b a) S ->
  rev h = firstn (length h) S.
Proof.
  intros I PS SS. pose proof I as (P & Sh & F & _ & _).
  assert (LS : length h <= length S).
  { apply Permutation_length in PS, P. rewrite length_app in P. lia. }
  symmetry. apply sorted_perm_unique.
  - apply NoDup_Permutation_bis.
    + eapply sorted_nodup; [|apply sorted_firstn; exact SS].
      intros a. apply below_irrefl.
    + rewrite length_rev, firstn_length_le; auto.
    + intros x Hx. destruct (in_split _ _ Hx) as (A & B & EA).
      assert (LA : length A < length h).
      { apply (f_equal (@length entry)) in EA.
        rewrite firstn_length_le, length_app in EA by assumption.
        simpl in EA. lia. }
      assert (ES : S = A ++ x :: (B ++ skipn (length h) S)).
      { rewrite <- (firstn_skipn (length h) S) at 1. rewrite EA.
        rewrite <- app_assoc. reflexivity. }
      assert (Hs : In x seen).
      { apply (Permutation_in _ PS). rewrite ES. apply in_elt. }
      apply (Permutation_in _ P), in_app_or in Hs as [Hs|Hs].
      * now apply -> in_rev.
      * exfalso. rewrite Forall_forall in F. specialize (F _ Hs).
        rewrite Forall_forall in F.
        assert (Inc : incl h A).
        { intros y Hy. pose proof (F _ Hy) as Bxy.
          assert (Hy' : In y S).
          { apply (Permutation_in _ (Permutation_sym PS)).
            apply (Permutation_in _ (Permutation_sym P)).
            apply in_or_app. now left. }
          rewrite ES in Hy'. apply in_app_or in Hy' as [Hy'|[Hy'|Hy']]; auto.
          - subst y. destruct (below_irrefl Bxy).
          - exfalso. rewrite ES in SS. apply sorted_app_r in SS.
            apply StronglySorted_inv in SS as (_ & SS).
            rewrite Forall_forall in SS.
            exact (below_asym Bxy (SS _ Hy')). }
        apply NoDup_incl_length in Inc; [lia|].
        eapply sorted_nodup; [|exact Sh]. intros a. apply below_irrefl.
  - apply sorted_firstn. exact SS.
  - apply sorted_rev. exact Sh.
Qed.

Lemma ranked_prefix files query top_k top_k' :
  (top_k <= top_k')%Z ->
  ranked (Some files) query top_k
  = firstn (Z.to_nat top_k) (ranked (Some files) query top_k').
Proof.
  intros K. destruct (normalize query) as [|c q] eqn:E.
  - rewrite !ranked_eq, E. simpl. now rewrite firstn_nil.
  - assert (N : normalize query <> []) by (rewrite E; discriminate).
    set (n := length (offered files query)).
    destruct (@ranked_inv files query top_k N) as (h1 & d1 & -> & I1).
    destruct (@ranked_inv files query top_k' N) as (h2 & d2 & -> & I2).
    destruct (@ranked_inv files query (Z.of_nat n + 1) N)
      as (h3 & d3 & _ & I3).
    pose proof (heap_inv_length I1) as L1.
    pose proof (heap_inv_length I2) as L2.
    pose proof (heap_inv_length I3) as L3. fold n in L1, L2, L3.
    assert (PS : Permutation (rev h3) (offered files query)).
    { destruct I3 as (P & _ & _ & E3 & _).
      rewrite E3, app_nil_r in P by lia.
      apply Permutation_sym.
      eapply Permutation_trans; [exact P | apply Permutation_rev]. }
    assert (SS : StronglySorted (fun a b => below b a) (rev h3)).
    { apply sorted_rev. apply I3. }
    rewrite (heap_is_prefix I1 PS SS), (heap_is_prefix I2 PS SS).
    rewrite firstn_firstn. f_equal. lia.
Qed.

(** X12.  Asking for fewer hits gives the beginning of the answer to
    asking for more: for [top_k <= top_k'] the hits for [top_k] are the
    first [top_k] hits for [top_k']. *)
Theorem search_prefix corpus query top_k top_k' :
  (top_k <= top_k')%Z ->
  _local_text_search corpus query top_k
  = firstn (Z.to_nat top_k) (_local_text_search corpus query top_k').
Proof.
  intros K. unfold _local_text_search. rewrite firstn_map.
  destruct corpus as [files|].
  - now rewrite (@ranked_prefix files query top_k top_k' K).
  - simpl. now rewrite firstn_nil.
Qed.

Lemma search_prefix_witness :
  _local_text_search
    (Some [Some [mk_stored None (Some (lit "a")) None;
                 mk_stored None (Some (lit "a a a")) None;
                 mk_stored None (Some (lit "a a")) None]])
    (lit "a") 1%Z
  = firstn 1
      (_local_text_search
         (Some [Some [mk_stored None (Some (lit "a")) None;
                      mk_stored None (Some (lit "a a a")) None;
                      mk_stored None (Some (lit "a a")) None]])
         (lit "a") 3%Z).
Proof.
  apply (@search_prefix
           (Some [Some [mk_stored None (Some (lit "a")) None;
                        mk_stored None (Some (lit "a a a")) None;
                        mk_stored None (Some (lit "a a")) None]])
           (lit "a") 1%Z 3%Z).
  lia.
Defined.

(** *** The normal form of the query *)

Ltac decide_comparisons :=
  repeat match goal with
         | |- context [N.leb ?a ?b] => destruct (N.leb_spec a b); try lia
         | |- context [N.eqb ?a ?b] => destruct (N.eqb_spec a b); try lia
         end.

Lemma lower_char_cases c :
  lower_char c = c
  \/ (lower_char c = (c + 32)%N
      /\ ((65 <= c <= 90)%N \/ (192 <= c <= 222)%N)).
Proof.
  unfold lower_char. decide_comparisons; simpl; auto; right; split; auto; lia.
Qed.

Lemma isspace_letter c :
  (65 <= c <= 122)%N \/ (192 <= c <= 254)%N -> isspace c = false.
Proof.
  intros [H|H]; unfold isspace; decide_comparisons; reflexivity.
Qed.

Lemma isspace_lower_char c : isspace (lower_char c) = isspace c.
Proof.
  destruct (lower_char_cases c) as [E|(E & H)]; rewrite E; auto.
  rewrite !isspace_letter; auto; lia.
Qed.

Lemma lower_char_idem c : lower_char (lower_char c) = lower_char c.
Proof.
  destruct (lower_char_cases c) as [E|(E & H)]; rewrite E; auto.
  unfold lower_char. destruct H; decide_comparisons; reflexivity.
Qed.

Lemma lower_idem s : lower (lower s) = lower s.
Proof.
  unfold lower. rewrite map_map. apply map_ext. apply lower_char_idem.
Qed.

Lemma lstrip_lower s : lstrip (lower s) = lower (lstrip s).
Proof.
  induction s as [|c s IH]; simpl; auto.
  rewrite isspace_lower_char. destruct (isspace c); auto.
Qed.

Lemma lower_rev s : rev (lower s) = lower (rev s).
Proof. unfold lower. symmetry. apply map_rev. Qed.

Lemma strip_lower s : strip (lower s) = lower (strip s).
Proof.
  unfold strip, rstrip.
  now rewrite lstrip_lower, lower_rev, lstrip_lower, lower_rev.
Qed.

Lemma forallb_rev (f : char -> bool) w :
  forallb f (rev w) = forallb f w.
Proof.
  induction w as [|c w IH]; simpl; auto.
  rewrite forallb_app, IH. simpl. rewrite andb_true_r. apply andb_comm.
Qed.

Lemma strip_padded w1 w2 s :
  forallb isspace w1 = true -> forallb isspace w2 = true ->
  strip (w1 ++ s ++ w2) = strip s.
Proof.
  intros H1 H2. unfold strip. rewrite (@lstrip_spaces w1 (s ++ w2) H1).
  destruct (lstrip_split s) as (w & Hs & Hw).
  destruct (lstrip s) as [|c r] eqn:E.
  - rewrite app_nil_r in Hs. subst s.
    rewrite lstrip_all_space; auto.
    rewrite forallb_app, Hw, H2. reflexivity.
  - assert (Hc : isspace c = false).
    { pose proof (lstrip_starts_clean s) as C. rewrite E in C.
      simpl in C. now apply negb_true_iff in C. }
    rewrite Hs at 1. rewrite <- app_assoc.
    rewrite (@lstrip_spaces w ((c :: r) ++ w2) Hw).
    simpl. rewrite Hc. unfold rstrip.
    change (c :: r ++ w2) with ((c :: r) ++ w2).
    rewrite rev_app_distr, lstrip_spaces; auto.
    now rewrite forallb_rev.
Qed.

(** X13.  Whitespace around the query never changes the hits, whatever
    the query; and for a query of characters below U+0100 neither does
    writing it in lower case: the search depends on the query only through
    [query.strip().lower()]. *)
Theorem search_query_normal_form corpus query top_k :
  (forall w1 w2,
      forallb isspace w1 = true -> forallb isspace w2 = true ->
      _local_text_search corpus (w1 ++ query ++ w2) top_k
      = _local_text_search corpus query top_k)
  /\ (Forall (fun c => (c < 256)%N) query ->
      _local_text_search corpus (lower query) top_k
      = _local_text_search corpus query top_k).
Proof.
  assert (R : forall q1 q2, normalize q1 = normalize q2 ->
                            _local_text_search corpus q1 top_k
                            = _local_text_search corpus q2 top_k).
  { intros q1 q2 E. unfold _local_text_search.
    destruct corpus as [files|]; auto.
    rewrite !ranked_eq. unfold offered. now rewrite E. }
  split.
  - intros w1 w2 H1 H2. apply R. unfold normalize.
    now rewrite strip_padded.
  - intros _. apply R. unfold normalize.
    now rewrite strip_lower, lower_idem.
Qed.

Lemma search_query_normal_form_witness :
  _local_text_search
    (Some [Some [mk_stored None (Some (lit "Brown Fox")) None]])
    (lit "  " ++ lit "brown FOX" ++ [10%N]) 5%Z
  = _local_text_search
      (Some [Some [mk_stored None (Some (lit "Brown Fox")) None]])
      (lit "brown FOX") 5%Z
  /\ _local_text_search
       (Some [Some [mk_stored None (Some (lit "Brown Fox")) None]])
       (lower (lit "brown FOX")) 5%Z
     = _local_text_search
         (Some [Some [mk_stored None (Some (lit "Brown Fox")) None]])
         (lit "brown FOX") 5%Z.
Proof.
  split.
  - apply (proj1 (@search_query_normal_form
                    (Some [Some [mk_stored None (Some (lit "Brown Fox"))
                                            None]])
                    (lit "brown FOX") 5%Z) (lit "  ") [10%N]);
      reflexivity.
  - apply (proj2 (@search_query_normal_form
                    (Some [Some [mk_stored None (Some (lit "Brown Fox"))
                                            None]])
                    (lit "brown FOX") 5%Z)).
    vm_compute. repeat constructor.
Defined.

(** *** What the scan skips *)

Lemma candidate_scored q terms ch :
  let t := lower (match st_text ch with Some t => t | None => [] end) in
  truthy t && (0 <? score_of q terms t)
  = match candidate q terms ch with Some _ => true | None => false end.
Proof.
  unfold candidate. cbv zeta.
  destruct (truthy (lower _)); simpl; auto.
  rewrite Nat.leb_antisym. now destruct (0 <? score_of q terms _).
Qed.

Lemma candidates_of_filter q terms chs :
  candidates_of q terms
    (filter (fun ch =>
               let t := lower (match st_text ch with
                               | Some t => t
                               | None => []
                               end) in
               truthy t && (0 <? score_of q terms t)) chs)
  = candidates_of q terms chs.
Proof.
  set (scored := fun ch : stored => _).
  induction chs as [|ch chs IH]; [reflexivity|].
  cbn [filter].
  assert (Hs : scored ch = match candidate q terms ch with
                           | Some _ => true
                           | None => false
                           end) by apply candidate_scored.
  rewrite Hs.
  destruct (candidate q terms ch) as [c|] eqn:E;
    cbn [candidates_of]; rewrite E; [now rewrite IH | exact IH].
Qed.

(** X14.  Files that cannot be read, the way the chunks are spread over
    the files, and chunks without text or with a score of zero have no
    influence on the hits or on their tie-breakers: the search gives the
    same entries on the single file that holds, in the order of the scan,
    the chunks with a text and a positive score. *)
Theorem search_ignores_skipped files query top_k :
  let q := normalize query in
  let terms := findall_words q in
  let scored ch :=
    let t := lower (match st_text ch with Some t => t | None => [] end) in
    truthy t && (0 <? score_of q terms t) in
  ranked (Some files) query top_k
  = ranked (Some [Some (filter scored (corpus_chunks files))]) query top_k.
Proof.
  intros q terms scored. rewrite !ranked_eq. unfold offered.
  fold q. fold terms. unfold corpus_chunks at 2. simpl map. simpl concat.
  rewrite app_nil_r. unfold scored. now rewrite candidates_of_filter.
Qed.

(** *** Hits and substrings *)

Lemma startswith_app sub b : startswith (sub ++ b) sub = true.
Proof.
  induction sub as [|c sub IH]; cbn [startswith app].
  - now destruct b.
  - now rewrite N.eqb_refl.
Qed.

Lemma startswith_split sub : forall s,
  startswith s sub = true -> exists b, s = sub ++ b.
Proof.
  induction sub as [|c sub IH]; intros s H.
  - exists s. reflexivity.
  - destruct s as [|x s]; cbn [startswith] in H; [discriminate|].
    apply andb_prop in H as (H1 & H2). apply N.eqb_eq in H1. subst x.
    destruct (IH _ H2) as (b & ->). exists b. reflexivity.
Qed.

Lemma count_scan_occurs sub b a :
  sub <> [] -> 1 <= count_scan sub 0 (a ++ sub ++ b).
Proof.
  intros N. induction a as [|x a IH].
  - destruct sub as [|c sub]; [congruence|].
    change ([] ++ (c :: sub) ++ b) with (c :: (sub ++ b)).
    cbn [count_scan].
    change (c :: sub ++ b) with ((c :: sub) ++ b).
    rewrite startswith_app. lia.
  - change ((x :: a) ++ sub ++ b) with (x :: (a ++ sub ++ b)).
    cbn [count_scan].
    destruct (startswith (x :: a ++ sub ++ b) sub); lia.
Qed.

Lemma count_scan_positive sub : forall s k,
  0 < count_scan sub k s -> SearchSpec.occurs sub s.
Proof.
  induction s as [|x s IH]; intros k H; cbn [count_scan] in H; [lia|].
  assert (R : forall k', 0 < count_scan sub k' s ->
                         SearchSpec.occurs sub (x :: s)).
  { intros k' H'. destruct (IH _ H') as (a & b & ->).
    exists (x :: a), b. reflexivity. }
  destruct k as [|k]; [|eauto].
  destruct (startswith (x :: s) sub) eqn:E; [|eauto].
  destruct (startswith_split _ _ E) as (b & ->). exists [], b. reflexivity.
Qed.

(** [s.count(sub)] is positive exactly when [sub] occurs in [s]. *)
Lemma count_positive s sub : 0 < count s sub <-> SearchSpec.occurs sub s.
Proof.
  split.
  - destruct sub as [|c sub]; [intros _; exists [], s; reflexivity|].
    apply count_scan_positive.
  - intros (a & b & ->). destruct sub as [|c sub]; simpl; [lia|].
    apply (@count_scan_occurs (c :: sub) b a). discriminate.
Qed.

Lemma list_sum_positive (A : Type) (f : A -> nat) l :
  0 < list_sum (map f l) -> exists x, In x l /\ 0 < f x.
Proof.
  induction l as [|x l IH]; simpl; [lia|]. intros H.
  destruct (f x) as [|n] eqn:E.
  - destruct (IH H) as (y & Hy & Fy). eauto.
  - exists x. split; auto. lia.
Qed.

Lemma candidates_of_keeps q terms chs ch c :
  In ch chs -> candidate q terms ch = Some c ->
  In c (candidates_of q terms chs).
Proof.
  induction chs as [|x chs IH]; simpl; [tauto|].
  intros [->|H] E.
  - rewrite E. now left.
  - destruct (candidate q terms x); [right|]; auto.
Qed.

Lemma tag_keeps l : forall n sc hh,
  In (sc, hh) l -> exists tie, In (sc, tie, hh) (tag n l).
Proof.
  induction l as [|(sc0, hh0) l IH]; intros n sc hh H; simpl in *; [tauto|].
  destruct H as [[= -> ->]|H].
  - exists n. now left.
  - destruct (IH (S n) _ _ H) as (tie & Ht). exists tie. now right.
Qed.

Lemma corpus_chunks_in files chs ch :
  In (Some chs) files -> In ch chs -> In ch (corpus_chunks files).
Proof.
  intros Hf Hc. unfold corpus_chunks. apply in_concat.
  exists chs. split; auto.
  apply in_map_iff. exists (Some chs). auto.
Qed.

(** X15.  The search finds what is there: when [top_k] is at least the
    number of chunks with a positive score, every chunk of a readable file
    whose lower-cased text holds the normal form of the query (not blank)
    is among the hits. *)
Theorem search_finds_match files query top_k chs ch t :
  In (Some chs) files -> In ch chs ->
  st_text ch = Some t ->
  normalize query <> [] ->
  SearchSpec.occurs (normalize query) (lower t) ->
  (Z.of_nat (length (offered files query)) <= top_k)%Z ->
  In (chunk_obj ch) (_local_text_search (Some files) query top_k).
Proof.
  intros Hf Hc Ht N O K.
  set (q := normalize query) in *. set (terms := findall_words q).
  assert (C : candidate q terms ch
              = Some (score_of q terms (lower t), chunk_obj ch)).
  { unfold candidate. rewrite Ht.
    assert (T : truthy (lower t) = true).
    { apply truthy_true. destruct O as (a & b & ->).
      destruct q; [congruence|]. now destruct a. }
    rewrite T. simpl.
    apply count_positive in O.
    assert (P : 0 < score_of q terms (lower t)).
    { rewrite score_of_sum. unfold score_sum. lia. }
    apply Nat.leb_gt in P. now rewrite P. }
  pose proof (candidates_of_keeps _ _ _ _ (corpus_chunks_in _ _ _ Hf Hc) C)
    as Hin.
  destruct (tag_keeps _ 0 _ _ Hin) as (tie & He).
  fold (offered files query) in He.
  destruct (@ranked_inv files query top_k N) as (h & d & R & I).
  unfold _local_text_search. rewrite R.
  apply in_map_iff. exists (score_of q terms (lower t), tie, chunk_obj ch).
  split; [reflexivity|]. apply -> in_rev.
  pose proof (heap_inv_length I) as L.
  destruct I as (P & _).
  pose proof (Permutation_length P) as PL. rewrite length_app in PL.
  assert (D : d = []) by (apply length_zero_iff_nil; lia).
  subst d. rewrite app_nil_r in P. exact (Permutation_in _ P He).
Qed.

Lemma search_finds_match_witness :
  In (chunk_obj (mk_stored None (Some (lit "The Quick Fox.")) None))
     (_local_text_search
        (Some [None; Some [mk_stored None (Some (lit "The Quick Fox.")) None]])
        (lit " quick FOX ") 1%Z).
Proof.
  apply (@search_finds_match
           [None; Some [mk_stored None (Some (lit "The Quick Fox.")) None]]
           (lit " quick FOX ") 1%Z
           [mk_stored None (Some (lit "The Quick Fox.")) None]
           (mk_stored None (Some (lit "The Quick Fox.")) None)
           (lit "The Quick Fox.")).
  - right. left. reflexivity.
  - left. reflexivity.
  - reflexivity.
  - discriminate.
  - exists (lit "the "), (lit "."). reflexivity.
  - vm_compute. discriminate.
Defined.

(** X16.  The search returns only what matches: every hit is the
    [chunk_obj] of a chunk of the corpus whose lower-cased text holds the
    normal form of the query or one of the words of that normal form. *)
Theorem search_hits_match files query top_k hh :
  In hh (_local_text_search (Some files) query top_k) ->
  exists ch t,
    In ch (corpus_chunks files) /\ hh = chunk_obj ch
    /\ st_text ch = Some t
    /\ (SearchSpec.occurs (normalize query) (lower t)
        \/ exists w, In w (findall_words (normalize query))
                     /\ SearchSpec.occurs w (lower t)).
Proof.
  unfold _local_text_search. intros H.
  apply in_map_iff in H as (e & <- & He).
  destruct (normalize query) as [|c0 q0] eqn:E.
  - rewrite ranked_eq, E in He. destruct He.
  - rewrite <- E in *.
    destruct (@ranked_inv files query top_k) as (h & d & R & I).
    { rewrite E. discriminate. }
    rewrite R in He. apply in_rev in He.
    pose proof (@heap_inv_in top_k _ h d e I He) as Ho.
    apply tag_in, candidates_of_in in Ho as (ch & Hch & C).
    apply candidate_some in C as (t & Ht & _ & Sc & P & Hh).
    exists ch, t. repeat split; auto.
    rewrite Sc, score_of_sum in P. unfold score_sum in P.
    destruct (count (lower t) (normalize query)) as [|n] eqn:Cq.
    + right. simpl in P. apply list_sum_positive in P as (w & Hw & Pw).
      exists w. split; auto. now apply count_positive.
    + left. apply count_positive. lia.
Qed.

Lemma search_hits_match_witness :
  exists ch t,
    In ch (corpus_chunks [Some [mk_stored None (Some (lit "A fox.")) None]])
    /\ chunk_obj (mk_stored None (Some (lit "A fox.")) None) = chunk_obj ch
    /\ st_text ch = Some t
    /\ (SearchSpec.occurs (normalize (lit "red fox")) (lower t)
        \/ exists w, In w (findall_words (normalize (lit "red fox")))
                     /\ SearchSpec.occurs w (lower t)).
Proof.
  apply (@search_hits_match
           [Some [mk_stored None (Some (lit "A fox.")) None]]
           (lit "red fox") 5%Z
           (chunk_obj (mk_stored None (Some (lit "A fox.")) None))).
  vm_compute. left. reflexivity.
Defined.

End RankerExtras.

(** ** Retrieval through the vector store, and the composed answer *)
Module AnswerExtras.
Import Py PyFacts Dict RagSpec.

Local Open Scope Z_scope.

(** *** [retrieve] *)

Section Retrieve.
Variable float : Type.
Variable div255 : N -> float.
Variable md5_digest : str -> option (list N).
Variable store : list float -> Z -> option (list dict).

(** X17.  A hit that [retrieve] takes from the vector store never has a
    [chunk_id], whatever the store answers, the properties that [upsert]
    sent included: [search] copies the four other properties only.  As
    soon as the store answers with one object, [retrieve] returns one hit
    for each object of the answer, with the [text], [source_id],
    [chunk_index] and [page] of the object, and the chunk files are not
    consulted; when the store fails or answers with no object, [retrieve]
    returns the hits of [_local_text_search]. *)
Theorem retrieve_vector_hits corpus query top_k qvec :
  EmbeddingAgent._hash_to_vector div255 md5_digest 128 query = Some qvec ->
  (forall objs,
      store qvec top_k = Some objs -> objs <> [] ->
      exists hits,
        RetrieverAgent.retrieve div255 md5_digest store corpus query top_k
        = Some hits
        /\ Forall2 (fun obj h =>
                      get h "text" = get obj "text"
                      /\ get h "source_id" = get obj "source_id"
                      /\ get h "chunk_index" = get obj "chunk_index"
                      /\ get h "page" = get obj "page"
                      /\ get h "chunk_id" = VNone) objs hits)
  /\ (store qvec top_k = None \/ store qvec top_k = Some [] ->
      RetrieverAgent.retrieve div255 md5_digest store corpus query top_k
      = Some (map RetrieverAgent.hit_dict
                  (Retriever._local_text_search corpus query top_k))).
Proof.
  intros Hq. unfold RetrieverAgent.retrieve. cbn [EmbeddingAgent.embed_texts].
  rewrite Hq. unfold VectorTool.search. split.
  - intros objs Hs N. rewrite Hs.
    destruct objs as [|o objs]; [congruence|]. clear N Hs.
    eexists. split; [reflexivity|].
    induction (o :: objs) as [|x l IH]; simpl; constructor; auto.
  - intros [-> | ->]; reflexivity.
Qed.

End Retrieve.

Lemma retrieve_vector_hits_witness :
  exists hits,
    RetrieverAgent.retrieve
      (fun b : N => b) (fun _ => Some [1; 2]%N)
      (fun _ _ =>
         Some [VectorTool.upsert_properties
                 (lit "a.txt::chunk::0::0a1b2c3d")
                 [("source_id", VStr (lit "a.txt")); ("chunk_index", VInt 0);
                  ("page", VNone); ("char_len", VInt 5)]%string
                 (lit "Hello")])
      None (lit "hello") 5
    = Some hits
    /\ Forall2 (fun obj h =>
                  get h "text" = get obj "text"
                  /\ get h "source_id" = get obj "source_id"
                  /\ get h "chunk_index" = get obj "chunk_index"
                  /\ get h "page" = get obj "page"
                  /\ get h "chunk_id" = VNone)
               [VectorTool.upsert_properties
                  (lit "a.txt::chunk::0::0a1b2c3d")
                  [("source_id", VStr (lit "a.txt")); ("chunk_index", VInt 0);
                   ("page", VNone); ("char_len", VInt 5)]%string
                  (lit "Hello")]
               hits.
Proof.
  apply (proj1 (@retrieve_vector_hits
                  N (fun b : N => b) (fun _ => Some [1; 2]%N)
                  (fun _ _ =>
                     Some [VectorTool.upsert_properties
                             (lit "a.txt::chunk::0::0a1b2c3d")
                             [("source_id", VStr (lit "a.txt"));
                              ("chunk_index", VInt 0);
                              ("page", VNone); ("char_len", VInt 5)]%string
                             (lit "Hello")])
                  None (lit "hello") 5
                  (slice_to (repeat_list [1; 2]%N 65) 128)
                  ltac:(reflexivity))).
  - reflexivity.
  - discriminate.
Defined.

(** *** [_build_context] *)

Lemma slice_prefix (t : str) n :
  0 < n < len t -> slice t 0 n = firstn (Z.to_nat n) t.
Proof.
  intros H. unfold slice, clip.
  destruct (Z.ltb_spec 0 0); [lia|].
  destruct (Z.ltb_spec n 0); [lia|].
  rewrite Z.min_l by (pose proof (len_nonneg t); lia).
  rewrite Z.min_l by lia. rewrite Z.sub_0_r. reflexivity.
Qed.

Lemma sum_len_nonneg ex : 0 <= sum_len ex.
Proof.
  induction ex as [|p ex IH]; simpl; [lia|].
  pose proof (len_nonneg (snd p)). lia.
Qed.

Section Context.
Variable max_context_chars : Z.

Lemma context_loop_spec hits : forall parts total,
  Forall readable hits -> 0 <= total ->
  exists ex,
    RAGAgent.context_loop max_context_chars hits parts total
    = Some (parts ++ labelled ex)
    /\ takes hits ex
    /\ total + sum_len ex <= Z.max total max_context_chars
    /\ (ex = [] <-> max_context_chars <= total \/ Forall no_text hits).
Proof.
  induction hits as [|h hits IH]; intros parts total R T.
  - exists []. simpl. rewrite app_nil_r.
    repeat split; auto; try constructor; lia.
  - apply Forall_cons_iff in R as (Rh & Rr).
    assert (Skip : no_text h ->
              exists ex,
                RAGAgent.context_loop max_context_chars hits parts total
                = Some (parts ++ labelled ex)
                /\ takes (h :: hits) ex
                /\ total + sum_len ex <= Z.max total max_context_chars
                /\ (ex = [] <-> max_context_chars <= total
                                \/ Forall no_text (h :: hits))).
    { intros Nh. destruct (IH parts total Rr T) as (ex & E & Tk & S & I).
      exists ex. repeat split; auto.
      - now constructor.
      - intros X. apply I in X as [X|X]; auto.
      - intros [X|X]; apply I; auto.
        apply Forall_cons_iff in X as (_ & X). auto. }
    cbn [RAGAgent.context_loop]. unfold readable in Rh.
    assert (Nt : no_text h <-> truthy_value (text_of h) = false)
      by reflexivity.
    unfold text_of in Rh, Nt.
    destruct (get_default h "text" (VStr [])) as [|t|z] eqn:E.
    + apply Skip. now apply Nt.
    + destruct t as [|c t]; [apply Skip; now apply Nt|].
      cbn [truthy negb]. set (t0 := c :: t) in *.
      assert (Lt : 0 < len t0).
      { unfold t0. rewrite len_cons. pose proof (len_nonneg t). lia. }
      assert (Has : ~ Forall no_text (h :: hits)).
      { intros X. apply Forall_cons_iff in X as (X & _).
        apply Nt in X. discriminate. }
      destruct (Z.gtb_spec (total + len t0) max_context_chars) as [G|G].
      * destruct (Z.leb_spec (max_context_chars - total) 0) as [B|B].
        -- exists []. simpl. rewrite app_nil_r.
           repeat split; auto; try constructor; try lia.
        -- set (remaining := max_context_chars - total) in *.
           rewrite slice_prefix by lia.
           set (t' := firstn (Z.to_nat remaining) t0).
           assert (Lt' : len t' = remaining).
           { unfold t', len. rewrite firstn_length_le; [lia|].
             unfold len in G. lia. }
           destruct (IH (parts ++ [RAGAgent.label h t']) (total + len t')
                        Rr ltac:(lia)) as (ex & Ex & _ & _ & I).
           assert (X : ex = []) by (apply I; left; lia). subst ex.
           exists [(h, t')]. split; [|split; [|split]].
           ++ rewrite Ex. simpl. now rewrite app_nil_r.
           ++ apply takes_keep with (rest := skipn (Z.to_nat remaining) t0).
              ** unfold text_of. rewrite E. unfold t'.
                 now rewrite firstn_skipn.
              ** intros X. rewrite X in Lt'. unfold len in Lt'.
                 simpl in Lt'. lia.
              ** reflexivity.
              ** constructor.
           ++ simpl. lia.
           ++ split; [discriminate|]. intros [X|X]; [lia | contradiction].
      * destruct (IH (parts ++ [RAGAgent.label h t0]) (total + len t0)
                     Rr ltac:(lia)) as (ex & Ex & Tk & S & _).
        exists ((h, t0) :: ex). split; [|split; [|split]].
        -- rewrite Ex, <- app_assoc. reflexivity.
        -- apply takes_keep with (rest := []); auto.
           ++ unfold text_of. now rewrite E, app_nil_r.
           ++ discriminate.
           ++ congruence.
        -- change (sum_len ((h, t0) :: ex)) with (len t0 + sum_len ex). lia.
        -- split; [discriminate|]. intros [X|X]; [lia | contradiction].
    + subst z. simpl. apply Skip. now apply Nt.
Qed.

(** X18.  For hits whose [text] is nothing that [len] rejects,
    [_build_context] returns the excerpts, each under its label
    [Source (source_id:chunk_index): ], joined by blank lines.  The
    excerpts are non-empty beginnings of the texts of hits, in the order of
    the hits, only the last of them possibly cut short; together they have
    at most [max_context_chars] characters; and there is none exactly when
    [max_context_chars] is not positive or no hit has a text. *)
Theorem build_context_budget query hits :
  Forall readable hits ->
  exists ex,
    RAGAgent._build_context max_context_chars query hits
    = Some (join_with [10; 10]%N (labelled ex))
    /\ takes hits ex
    /\ 0 <= sum_len ex <= Z.max 0 max_context_chars
    /\ (ex = [] <-> max_context_chars <= 0 \/ Forall no_text hits).
Proof.
  intros R. unfold RAGAgent._build_context.
  destruct (context_loop_spec [] R (Z.le_refl 0)) as (ex & E & Tk & S & I).
  rewrite E. exists ex. simpl app. split; [reflexivity|].
  split; [exact Tk|]. split; [|exact I].
  pose proof (sum_len_nonneg ex). lia.
Qed.

End Context.

Lemma build_context_budget_witness :
  exists ex,
    RAGAgent._build_context 8 (lit "q")
      [[("text", VStr (lit "Hello")); ("source_id", VStr (lit "a.txt"));
        ("chunk_index", VInt 0)];
       [("text", VNone)];
       [("text", VStr (lit "world again")); ("chunk_index", VInt 3)]]%string
    = Some (join_with [10; 10]%N (labelled ex))
    /\ takes
         [[("text", VStr (lit "Hello")); ("source_id", VStr (lit "a.txt"));
           ("chunk_index", VInt 0)];
          [("text", VNone)];
          [("text", VStr (lit "world again")); ("chunk_index", VInt 3)]]%string
         ex
    /\ 0 <= sum_len ex <= Z.max 0 8
    /\ (ex = [] <->
        8 <= 0
        \/ Forall no_text
             [[("text", VStr (lit "Hello")); ("source_id", VStr (lit "a.txt"));
               ("chunk_index", VInt 0)];
              [("text", VNone)];
              [("text", VStr (lit "world again"));
               ("chunk_index", VInt 3)]]%string).
Proof.
  apply (@build_context_budget 8 (lit "q")
           [[("text", VStr (lit "Hello")); ("source_id", VStr (lit "a.txt"));
             ("chunk_index", VInt 0)];
            [("text", VNone)];
            [("text", VStr (lit "world again"));
             ("chunk_index", VInt 3)]]%string).
  repeat constructor.
Defined.

(** *** [generate_answer] *)

Lemma split_on_cons sep s : exists x r, split_on sep s = x :: r.
Proof.
  induction s as [|c s (x & r & IH)]; simpl; eauto.
  destruct (N.eqb c sep); eauto. rewrite IH. eauto.
Qed.

Lemma split_on_prefix sep p s :
  Forall (fun c => c <> sep) p ->
  exists x r, split_on sep (p ++ s) = (p ++ x) :: r.
Proof.
  induction p as [|c p IH]; intros F.
  - apply split_on_cons.
  - apply Forall_cons_iff in F as (Hc & F).
    destruct (IH F) as (x & r & E). exists x, r.
    cbn [app split_on]. rewrite E.
    destruct (N.eqb_spec c sep); [contradiction | reflexivity].
Qed.

Lemma spaces_not_clean (x y : str) :
  forallb isspace x = true -> x <> [] -> Spec.starts_clean (x ++ y) = false.
Proof.
  destruct x as [|c x]; [congruence|]. simpl. intros H _.
  apply andb_prop in H as (-> & _). reflexivity.
Qed.

Lemma forallb_isspace_rev (w : str) :
  forallb isspace (rev w) = forallb isspace w.
Proof.
  induction w as [|c w IH]; simpl; auto.
  rewrite forallb_app, IH. simpl. rewrite andb_true_r. apply andb_comm.
Qed.

(** Stripping keeps a beginning that is itself stripped. *)
Lemma strip_keeps_prefix (p r : str) :
  Spec.tidy p -> exists r', strip (p ++ r) = p ++ r'.
Proof.
  intros (Hn & Hs & He). unfold strip.
  assert (C : Spec.starts_clean (p ++ r) = true)
    by (destruct p; [congruence | exact Hs]).
  rewrite (lstrip_id _ C). unfold rstrip.
  destruct (lstrip_split (rev (p ++ r))) as (w & Hw & Ws).
  set (k := lstrip (rev (p ++ r))) in *.
  apply (f_equal (@rev char)) in Hw.
  rewrite rev_involutive, rev_app_distr in Hw.
  apply app_eq_app in Hw as (l & [(H1 & H2)|(H1 & H2)]).
  - destruct l as [|c l].
    + exists []. rewrite app_nil_r in *. congruence.
    + exfalso. rewrite <- forallb_isspace_rev, H2, forallb_app in Ws.
      apply andb_prop in Ws as (Ws & _).
      rewrite <- forallb_isspace_rev in Ws.
      rewrite H1, rev_app_distr in He.
      rewrite spaces_not_clean in He; auto; [discriminate|].
      intros X. apply (f_equal (@length char)) in X.
      rewrite length_rev in X. discriminate.
  - exists l. exact H1.
Qed.

Lemma join_with_cons sep x l : exists y, join_with sep (x :: l) = x ++ y.
Proof.
  destruct l as [|z l].
  - exists []. simpl. now rewrite app_nil_r.
  - exists (sep ++ join_with sep (z :: l)). reflexivity.
Qed.

Lemma generate_answer_spec max_context_chars query hits :
  Forall readable hits ->
  exists r,
    RAGAgent.generate_answer max_context_chars query hits = Some r
    /\ length (RAGAgent.sources r) = length hits
    /\ (RAGAgent.answer r = RAGAgent.apology
        <-> max_context_chars <= 0 \/ Forall no_text hits)
    /\ (RAGAgent.answer r <> RAGAgent.apology ->
        exists rest, RAGAgent.answer r = lit "Source (" ++ rest).
Proof.
  intros R. unfold RAGAgent.generate_answer, RAGAgent._build_context.
  destruct (context_loop_spec max_context_chars [] R (Z.le_refl 0))
    as (ex & E & _ & _ & I).
  rewrite E. cbv beta iota zeta. cbn [app].
  eexists. split; [reflexivity|].
  cbn [RAGAgent.answer RAGAgent.sources]. rewrite length_map.
  split; [reflexivity|].
  destruct ex as [|(h, t) ex].
  - simpl. split; [|congruence].
    split; [intros _; now apply I | reflexivity].
  - set (P := lit "Source (").
    assert (TP : Spec.tidy P)
      by (repeat split; vm_compute; [discriminate | reflexivity..]).
    assert (FP : Forall (fun c => c <> 46%N) P)
      by (vm_compute; repeat constructor; discriminate).
    destruct (join_with_cons [10; 10]%N (RAGAgent.label h t) (labelled ex))
      as (y & Ey).
    change (labelled ((h, t) :: ex))
      with (RAGAgent.label h t :: labelled ex).
    rewrite Ey. unfold RAGAgent.label. fold P.
    rewrite <- !app_assoc.
    set (X := str_of (get h "source_id") ++ _).
    assert (Tr : truthy (P ++ X) = true) by reflexivity.
    rewrite Tr. cbn [negb].
    destruct (split_on_prefix X FP) as (x & r & Es). rewrite Es.
    cbn [nth].
    destruct (strip_keeps_prefix x TP) as (x' & ->).
    match goal with
    | |- context [if ?b then ?u else ?v] =>
        set (second := if b then u else v)
    end.
    rewrite <- app_assoc.
    destruct (strip_keeps_prefix (x' ++ lit ". " ++ second) TP)
      as (rest & ->).
    assert (D : P ++ rest <> RAGAgent.apology).
    { intros H. apply (f_equal (hd 0%N)) in H. vm_compute in H.
      discriminate. }
    split; [|intros _; now exists rest].
    split; [intros H; contradiction|].
    intros H. apply I in H. discriminate.
Qed.

(** X19.  For hits whose [text] is nothing that [len] rejects,
    [generate_answer] returns, with one source for each hit, used or not.
    The answer is the sentence of apology exactly when
    [max_context_chars] is not positive or no hit has a text; every other
    answer begins with the label [Source (] of the first excerpt. *)
Theorem generate_answer_apology max_context_chars query hits :
  Forall readable hits ->
  exists r,
    RAGAgent.generate_answer max_context_chars query hits = Some r
    /\ length (RAGAgent.sources r) = length hits
    /\ (RAGAgent.answer r = RAGAgent.apology
        <-> max_context_chars <= 0 \/ Forall no_text hits)
    /\ (RAGAgent.answer r <> RAGAgent.apology ->
        exists rest, RAGAgent.answer r = lit "Source (" ++ rest).
Proof. apply generate_answer_spec. Qed.

Lemma generate_answer_apology_witness :
  exists r,
    RAGAgent.generate_answer 2000 (lit "q")
      [[("text", VStr (lit "Hello there. Bye."));
        ("source_id", VStr (lit "notes.txt")); ("chunk_index", VInt 0)];
       [("text", VNone); ("chunk_id", VStr (lit "x"))]]%string
    = Some r
    /\ length (RAGAgent.sources r) = 2%nat
    /\ (RAGAgent.answer r = RAGAgent.apology
        <-> 2000 <= 0
            \/ Forall no_text
                 [[("text", VStr (lit "Hello there. Bye."));
                   ("source_id", VStr (lit "notes.txt"));
                   ("chunk_index", VInt 0)];
                  [("text", VNone); ("chunk_id", VStr (lit "x"))]]%string)
    /\ (RAGAgent.answer r <> RAGAgent.apology ->
        exists rest, RAGAgent.answer r = lit "Source (" ++ rest).
Proof.
  apply (@generate_answer_apology 2000 (lit "q")
           [[("text", VStr (lit "Hello there. Bye."));
             ("source_id", VStr (lit "notes.txt")); ("chunk_index", VInt 0)];
            [("text", VNone); ("chunk_id", VStr (lit "x"))]]%string).
  repeat constructor.
Defined.

(** *** [handle_query] *)

Lemma find_get_text (d : dict) :
  get_default d "text" (VStr []) = get d "text"
  \/ (get_default d "text" (VStr []) = VStr [] /\ get d "text" = VNone).
Proof.
  unfold get, get_default. destruct (find d "text"); auto.
Qed.

Lemma normalized_readable obj :
  readable obj ->
  readable (RetrieverAgent.normalized_hit
              [("text", get obj "text");
               ("source_id", get obj "source_id");
               ("chunk_index", get obj "chunk_index");
               ("page", get obj "page")]%string).
Proof.
  unfold readable, text_of. cbn.
  destruct (find_get_text obj) as [->|(-> & ->)]; auto.
Qed.

(** A hit of the local search has a text, which is not empty. *)
Lemma local_hit_has_text corpus query top_k hh :
  In hh (Retriever._local_text_search corpus query top_k) ->
  exists t, Retriever.text hh = Some t /\ t <> [].
Proof.
  unfold Retriever._local_text_search. intros H.
  apply in_map_iff in H as (e & <- & He).
  destruct corpus as [files|]; [|destruct He].
  destruct (Retriever.normalize query) as [|c0 q0] eqn:E.
  - rewrite RetrieverFacts.ranked_eq, E in He. destruct He.
  - destruct (@RetrieverFacts.ranked_inv files query top_k)
      as (h & d & R & I).
    { rewrite E. discriminate. }
    rewrite R in He. apply in_rev in He.
    pose proof (@RetrieverFacts.heap_inv_in top_k _ h d e I He) as Ho.
    apply RetrieverFacts.tag_in, RetrieverFacts.candidates_of_in in Ho
      as (ch & _ & C).
    apply RetrieverFacts.candidate_some in C as (t & Ht & Hl & _ & _ & Hh).
    exists t. rewrite Hh. split; [exact Ht|].
    intros ->. now apply Hl.
Qed.

Lemma local_hits_readable corpus query top_k :
  let hits := map RetrieverAgent.hit_dict
                  (Retriever._local_text_search corpus query top_k) in
  Forall readable hits
  /\ (Forall no_text hits ->
      Retriever._local_text_search corpus query top_k = []).
Proof.
  cbv zeta.
  pose proof (@local_hit_has_text corpus query top_k) as T.
  induction (Retriever._local_text_search corpus query top_k)
    as [|hh l IH]; [split; auto; constructor|].
  destruct (T hh (or_introl eq_refl)) as (t & Ht & Nt).
  destruct IH as (IH1 & IH2); [intros; apply T; now right|].
  split.
  - constructor; auto.
    unfold readable, text_of. cbn. now rewrite Ht.
  - intros F. apply Forall_cons_iff in F as (F & _). exfalso.
    unfold no_text, text_of in F. cbn in F. rewrite Ht in F.
    destruct t; [congruence | discriminate].
Qed.

Section Query.
Variable float : Type.
Variable div255 : N -> float.
Variable md5_digest : str -> option (list N).
Variable store : list float -> Z -> option (list dict).

Lemma search_eq qvec top_k :
  VectorTool.search store qvec top_k
  = match store qvec top_k with
    | Some objs => map properties objs
    | None => []
    end.
Proof. reflexivity. Qed.

Lemma retrieve_eq corpus query top_k qvec :
  EmbeddingAgent._hash_to_vector div255 md5_digest 128 query = Some qvec ->
  RetrieverAgent.retrieve div255 md5_digest store corpus query top_k
  = Some match VectorTool.search store qvec top_k with
         | [] => map RetrieverAgent.hit_dict
                     (Retriever._local_text_search corpus query top_k)
         | hits => map RetrieverAgent.normalized_hit hits
         end.
Proof.
  intros Hq. unfold RetrieverAgent.retrieve.
  cbn [EmbeddingAgent.embed_texts]. rewrite Hq.
  now destruct (VectorTool.search store qvec top_k).
Qed.

(** X21.  When the vector store fails or has nothing to offer,
    [handle_query] answers from the chunk files: it returns, lists one
    source for each hit of [_local_text_search], and its answer is the
    sentence of apology exactly when that search has no hit, which is the
    case for every blank query.  When the store does answer with objects
    whose [text] is nothing that [len] rejects, there is one source for
    each object, and none of the sources has a [chunk_id]. *)
Theorem handle_query_sources corpus query top_k qvec :
  EmbeddingAgent._hash_to_vector div255 md5_digest 128 query = Some qvec ->
  (store qvec top_k = None \/ store qvec top_k = Some [] ->
   exists r,
     RootAgent.handle_query div255 md5_digest store corpus query top_k
     = Some r
     /\ length (RAGAgent.sources r)
        = length (Retriever._local_text_search corpus query top_k)
     /\ (RAGAgent.answer r = RAGAgent.apology
         <-> Retriever._local_text_search corpus query top_k = [])
     /\ (strip query = [] ->
         RAGAgent.answer r = RAGAgent.apology /\ RAGAgent.sources r = []))
  /\ (forall objs,
         store qvec top_k = Some objs -> objs <> [] ->
         Forall readable objs ->
         exists r,
           RootAgent.handle_query div255 md5_digest store corpus query top_k
           = Some r
           /\ length (RAGAgent.sources r) = length objs
           /\ Forall (fun src => get src "chunk_id" = VNone)
                     (RAGAgent.sources r)).
Proof.
  intros Hq. unfold RootAgent.handle_query.
  rewrite (@retrieve_eq corpus query top_k qvec Hq), search_eq.
  split.
  - intros Hs.
    assert (E : match store qvec top_k with
                | Some objs => map properties objs
                | None => []
                end = []) by (destruct Hs as [-> | ->]; reflexivity).
    rewrite E.
    destruct (local_hits_readable corpus query top_k) as (R & Nt).
    destruct (generate_answer_spec 2000 query R) as (r & Er & L & A & _).
    exists r. split; [exact Er|]. rewrite length_map in L.
    split; [exact L|].
    assert (Iff : RAGAgent.answer r = RAGAgent.apology
                  <-> Retriever._local_text_search corpus query top_k = []).
    { rewrite A. split.
      - intros [X|X]; [lia | now apply Nt].
      - intros ->. right. constructor. }
    split; [exact Iff|].
    intros B.
    assert (Z0 : Retriever._local_text_search corpus query top_k = []).
    { unfold Retriever._local_text_search.
      destruct corpus as [files|]; [|reflexivity].
      rewrite RetrieverFacts.ranked_eq. unfold Retriever.normalize.
      rewrite B. reflexivity. }
    split; [now apply Iff|].
    apply length_zero_iff_nil. rewrite L, Z0. reflexivity.
  - intros objs Hs N R. rewrite Hs.
    set (hits := map RetrieverAgent.normalized_hit (map properties objs)).
    assert (M : match map properties objs with
                | [] => map RetrieverAgent.hit_dict
                            (Retriever._local_text_search corpus query top_k)
                | hs => map RetrieverAgent.normalized_hit hs
                end = hits)
      by (destruct objs; [congruence | reflexivity]).
    rewrite M.
    assert (Rh : Forall readable hits).
    { unfold hits. clear -R.
      induction objs as [|x l IH]; [constructor|].
      apply Forall_cons_iff in R as (R1 & R2). cbn [map].
      constructor; [now apply normalized_readable | auto]. }
    destruct (generate_answer_spec 2000 query Rh) as (r & Er & L & _).
    exists r. split; [exact Er|].
    assert (Sr : RAGAgent.sources r = map RAGAgent.source_of hits).
    { unfold RAGAgent.generate_answer in Er.
      destruct (RAGAgent._build_context 2000 query hits); [|discriminate].
      injection Er as <-. reflexivity. }
    split.
    + rewrite L. unfold hits. rewrite !length_map. reflexivity.
    + rewrite Sr. unfold hits. rewrite !map_map.
      apply Forall_forall. intros x Hx.
      apply in_map_iff in Hx as (obj & <- & _). reflexivity.
Qed.

End Query.

Lemma handle_query_sources_witness :
  exists r,
    RootAgent.handle_query
      (fun b : N => b) (fun _ => Some [1; 2]%N) (fun _ _ => None)
      (Some [Some [Retriever.mk_stored
                     (Some (lit "a::chunk::0::0a1b2c3d"))
                     (Some (lit "A fox."))
                     (Some (Retriever.mk_meta (Some (lit "a")) (Some 0)
                                              None))]])
      (lit "fox") 5
    = Some r
    /\ length (RAGAgent.sources r)
       = length (Retriever._local_text_search
                   (Some [Some [Retriever.mk_stored
                                  (Some (lit "a::chunk::0::0a1b2c3d"))
                                  (Some (lit "A fox."))
                                  (Some (Retriever.mk_meta
                                           (Some (lit "a")) (Some 0)
                                           None))]])
                   (lit "fox") 5)
    /\ (RAGAgent.answer r = RAGAgent.apology
        <-> Retriever._local_text_search
              (Some [Some [Retriever.mk_stored
                             (Some (lit "a::chunk::0::0a1b2c3d"))
                             (Some (lit "A fox."))
                             (Some (Retriever.mk_meta
                                      (Some (lit "a")) (Some 0) None))]])
              (lit "fox") 5 = [])
    /\ (strip (lit "fox") = [] ->
        RAGAgent.answer r = RAGAgent.apology /\ RAGAgent.sources r = []).
Proof.
  apply (proj1 (@handle_query_sources
                  N (fun b : N => b) (fun _ => Some [1; 2]%N)
                  (fun _ _ => None)
                  (Some [Some [Retriever.mk_stored
                                 (Some (lit "a::chunk::0::0a1b2c3d"))
                                 (Some (lit "A fox."))
                                 (Some (Retriever.mk_meta
                                          (Some (lit "a")) (Some 0)
                                          None))]])
                  (lit "fox") 5
                  (slice_to (repeat_list [1; 2]%N 65) 128)
                  ltac:(reflexivity))).
  left. reflexivity.
Defined.

End AnswerExtras.

(** ** The placeholder embedding *)
Module EmbeddingExtras.
Import Py PyFacts Dict.

Lemma repeat_concat_length (A : Type) (l : list A) k :
  length (concat (repeat l k)) = k * length l.
Proof.
  induction k as [|k IH]; simpl; auto.
  rewrite length_app, IH. reflexivity.
Qed.

Lemma repeat_concat_nth (A : Type) (l : list A) k : forall i,
  i < k * length l ->
  nth_error (concat (repeat l k)) i = nth_error l (i mod length l).
Proof.
  induction k as [|k IH]; intros i H; simpl in *; [lia|].
  rewrite nth_error_app. destruct (Nat.ltb_spec i (length l)) as [L|L].
  - now rewrite Nat.mod_small.
  - rewrite IH by lia. f_equal.
    replace i with ((i - length l) + 1 * length l) at 2 by lia.
    now rewrite Nat.Div0.mod_add.
Qed.

Section Embedding.
Variable float : Type.
Variable div255 : N -> float.
Variable md5_digest : str -> option (list N).

(** X20.  The vector that [_hash_to_vector] makes of a text whose digest
    has [n > 0] bytes has exactly [dim] components (none when [dim] is
    negative), and its component [i] is byte [i mod n] of the digest,
    divided by 255: the numbers of the digest, repeated in a cycle and cut
    at [dim]. *)
Theorem hash_to_vector_cycles dim text digest :
  md5_digest text = Some digest -> digest <> [] ->
  exists vec,
    EmbeddingAgent._hash_to_vector div255 md5_digest dim text = Some vec
    /\ length vec = Z.to_nat dim
    /\ forall i,
         i < Z.to_nat dim ->
         nth_error vec i
         = nth_error (map div255 digest) (i mod length digest).
Proof.
  intros Hd Hn. unfold EmbeddingAgent._hash_to_vector. rewrite Hd.
  rewrite length_map.
  set (n := length digest).
  assert (Pn : 0 < n) by (unfold n; destruct digest; [congruence | simpl; lia]).
  destruct (Z.eqb_spec (Z.of_nat n) 0) as [X|_]; [lia|].
  eexists. split; [reflexivity|].
  unfold slice_to, repeat_list.
  set (k := (dim / Z.of_nat n + 1)%Z).
  set (L := concat (repeat (map div255 digest) (Z.to_nat k))).
  assert (LL : length L = Z.to_nat k * n).
  { unfold L. now rewrite repeat_concat_length, length_map. }
  destruct (Z_lt_le_dec dim 0) as [Neg|Pos].
  - assert (K : (k <= 0)%Z).
    { unfold k. assert (dim / Z.of_nat n < 0)%Z; [|lia].
      apply Z.div_lt_upper_bound; lia. }
    assert (E : L = []).
    { apply length_zero_iff_nil. rewrite LL. lia. }
    rewrite E. rewrite firstn_nil. split; [simpl; lia|].
    intros i Hi. lia.
  - assert (Kb : (dim < k * Z.of_nat n)%Z).
    { unfold k. pose proof (Z.div_mod dim (Z.of_nat n) ltac:(lia)).
      pose proof (Z.mod_pos_bound dim (Z.of_nat n) ltac:(lia)). nia. }
    assert (K0 : (0 < k)%Z) by nia.
    assert (El : Z.of_nat (length L) = (k * Z.of_nat n)%Z).
    { rewrite LL, Nat2Z.inj_mul, Z2Nat.id; lia. }
    assert (C : clip (Z.of_nat (length L)) dim = dim).
    { unfold clip. destruct (Z.ltb_spec dim 0); lia. }
    rewrite C. split.
    + rewrite firstn_length_le; lia.
    + intros i Hi. rewrite nth_error_firstn.
      destruct (Nat.ltb_spec i (Z.to_nat dim)); [|lia].
      unfold L. rewrite repeat_concat_nth, length_map; [reflexivity|].
      rewrite length_map. fold n. lia.
Qed.

End Embedding.

Lemma hash_to_vector_cycles_witness :
  exists vec,
    EmbeddingAgent._hash_to_vector (fun b : N => b)
                                   (fun _ => Some [7; 8; 9]%N) 7 (lit "x")
    = Some vec
    /\ length vec = Z.to_nat 7
    /\ forall i,
         i < Z.to_nat 7 ->
         nth_error vec i
         = nth_error (map (fun b : N => b) [7; 8; 9]%N)
                     (i mod length [7; 8; 9]%N).
Proof.
  apply (@hash_to_vector_cycles N (fun b : N => b)
           (fun _ => Some [7; 8; 9]%N) 7 (lit "x") [7; 8; 9]%N).
  - reflexivity.
  - discriminate.
Defined.

End EmbeddingExtras.

(** ** Ingestion through the root agent *)
Module RootExtras.
Import Py PyFacts Dict Ingest IngestFacts Files FileSpec.

Local Open Scope Z_scope.

Lemma process_text_source_id csc mcc t sid out :
  process_text csc mcc t sid = Some out ->
  Forall (fun c => source_id c = sid) out.
Proof.
  intros H.
  destruct (process_text_cases _ _ _ _ H) as [(_ & ->)|(_ & Hc & A)].
  - repeat constructor.
  - destruct (@ChunkerExtras.aggregate_meta_spec
                csc mcc (_split_into_sentences t) sid None Hc)
      as (o & Ho & F).
    rewrite A in Ho. injection Ho as <-.
    eapply Forall_impl; [|exact F]. now intros c (X & _).
Qed.

Lemma pdf_loop_nil csc mcc sid pages :
  1 <= csc ->
  exists out,
    pdf_loop csc mcc sid 0 pages [] = Some out
    /\ Forall (fun c => source_id c = sid) out
    /\ (out = [] <-> Forall (fun page_text => strip page_text = []) pages).
Proof.
  intros Hc.
  destruct (ChunkerExtras.pdf_loop_spec mcc sid Hc pages 0 [])
    as (out & Ho & Fo & No & _).
  exists out. split; [exact Ho|]. split.
  - eapply Forall_impl; [|exact Fo]. now intros c (X & _).
  - rewrite <- ChunkerExtras.nonws_concat_nil, <- No. split.
    + now intros ->.
    + destruct out as [|c out]; auto. intros H. exfalso.
      apply Forall_cons_iff in Fo as ((_ & T & _) & _).
      apply ChunkerExtras.tidy_nonws in T. simpl in H.
      rewrite nonws_app in H. now apply app_eq_nil in H.
Qed.

Section Ingestion.
Variable float : Type.
Variable div255 : N -> float.
Variable md5_digest : str -> option (list N).
Variable parse_pdf_bytes : bytes -> option (list str).
Variable decode_text : bytes -> str.
Variable upsert_returns : nat -> bool.
Variable write_returns : str -> bool.

Lemma upsert_all_calls chunks : forall i calls,
  RootAgent.upsert_all upsert_returns i chunks = (calls, true) ->
  calls = (i + length chunks)%nat.
Proof.
  induction chunks as [|c chunks IH]; intros i calls H; simpl in H.
  - injection H as <-. simpl. lia.
  - destruct (upsert_returns i); [|discriminate].
    apply IH in H. simpl. lia.
Qed.

(** The chunks of a file, for the sizes of the root agent. *)
Lemma file_chunks fresh file_bytes filename :
  let r := process_file_bytes 800 200 parse_pdf_bytes decode_text fresh
                              file_bytes filename in
  r <> Loops
  /\ (forall out,
         r = Returns out ->
         (exists sid, Forall (fun c => source_id c = sid) out)
         /\ (out = [] ->
             exists pages,
               detect_file_type_from_bytes file_bytes filename = lit "pdf"
               /\ parse_pdf_bytes file_bytes = Some pages
               /\ Forall (fun page_text => strip page_text = []) pages))
  /\ (forall pages,
         detect_file_type_from_bytes file_bytes filename = lit "pdf" ->
         parse_pdf_bytes file_bytes = Some pages ->
         Forall (fun page_text => strip page_text = []) pages ->
         r = Returns []).
Proof.
  cbv zeta. unfold process_file_bytes.
  set (sid := if truthy filename then filename else lit "file-" ++ fresh).
  destruct (ChunkerExtras.detect_pdf_or_text file_bytes filename) as [E|E];
    rewrite E.
  - change (seq_eqb (lit "pdf") (lit "pdf")) with true. cbv iota.
    destruct (parse_pdf_bytes file_bytes) as [pages|].
    + destruct (@pdf_loop_nil 800 200 sid pages ltac:(lia))
        as (out & Ho & Fo & Io).
      rewrite Ho. split; [discriminate|]. split.
      * intros o [= <-]. split; [now exists sid|].
        intros X. exists pages. repeat split; auto. now apply Io.
      * intros pages' _ [= <-] B. f_equal. now apply Io.
    + split; [discriminate|]. split; intros; discriminate.
  - change (seq_eqb (lit "text") (lit "pdf")) with false. cbv iota.
    unfold parse_text_bytes. simpl text_loop.
    destruct (@process_text_total 800 200 (decode_text file_bytes) sid
                ltac:(lia)) as (out & Ho).
    rewrite Ho. simpl. split; [discriminate|]. split.
    + intros o [= <-]. split.
      * exists sid. eapply process_text_source_id; eauto.
      * intros X. exfalso.
        eapply ChunkerExtras.process_text_nonempty; eauto.
    + intros pages X. vm_compute in X. discriminate.
Qed.

(** X22.  [handle_ingest] with the sizes of the root agent always ends.
    When it returns, either the status is [error], with no chunk
    ingested, no call of [upsert] made and no file written, and that
    happens only for a file taken for a PDF whose pages are all blank; or
    the status is [ok], and then there is at least one chunk, all chunks
    carry the source id of the answer, every chunk went to [upsert], the
    chunk file of that source id holds them, and [ingested_chunks] is
    their number.  Text passed as [content] never gives the status
    [error], and a PDF without text always does. *)
Theorem handle_ingest_status fresh content file_bytes filename :
  let o := RootAgent.handle_ingest div255 md5_digest parse_pdf_bytes
             decode_text upsert_returns write_returns
             fresh content file_bytes filename in
  RootAgent.result o <> Loops
  /\ (forall r,
         RootAgent.result o = Returns r ->
         (r = [("status", VStr (lit "error"));
               ("ingested_chunks", VInt 0)]%string
          /\ RootAgent.upsert_calls o = 0%nat
          /\ RootAgent.written o = None
          /\ exists fb pages,
               file_bytes = Some fb /\ fb <> []
               /\ detect_file_type_from_bytes fb filename = lit "pdf"
               /\ parse_pdf_bytes fb = Some pages
               /\ Forall (fun page_text => strip page_text = []) pages)
         \/ (exists sid chunks,
                r = [("status", VStr (lit "ok"));
                     ("ingested_chunks", VInt (Z.of_nat (length chunks)));
                     ("source_id", VStr sid)]%string
                /\ chunks <> []
                /\ Forall (fun c => source_id c = sid) chunks
                /\ RootAgent.upsert_calls o = length chunks
                /\ RootAgent.written o = Some (sid, chunks)))
  /\ (forall fb pages,
         file_bytes = Some fb -> fb <> [] ->
         detect_file_type_from_bytes fb filename = lit "pdf" ->
         parse_pdf_bytes fb = Some pages ->
         Forall (fun page_text => strip page_text = []) pages ->
         RootAgent.result o
         = Returns [("status", VStr (lit "error"));
                    ("ingested_chunks", VInt 0)]%string).
Proof.
  cbv zeta. unfold RootAgent.handle_ingest.
  set (cr := match file_bytes with
             | Some (b :: fb) => _
             | _ => _
             end).
  assert (C : cr <> Loops
              /\ (forall out,
                     cr = Returns out ->
                     (exists sid, Forall (fun c => source_id c = sid) out)
                     /\ (out = [] ->
                         exists fb pages,
                           file_bytes = Some fb /\ fb <> []
                           /\ detect_file_type_from_bytes fb filename
                              = lit "pdf"
                           /\ parse_pdf_bytes fb = Some pages
                           /\ Forall (fun page_text => strip page_text = [])
                                     pages))
              /\ (forall fb pages,
                     file_bytes = Some fb -> fb <> [] ->
                     detect_file_type_from_bytes fb filename = lit "pdf" ->
                     parse_pdf_bytes fb = Some pages ->
                     Forall (fun page_text => strip page_text = []) pages ->
                     cr = Returns [])).
  { assert (T : match content with
                | Some text =>
                    match process_text 800 200 text (lit "txt-" ++ fresh) with
                    | Some chunks => Returns chunks
                    | None => Loops
                    end
                | None => Raises
                end <> Loops
                /\ forall out,
                    match content with
                    | Some text =>
                        match process_text 800 200 text (lit "txt-" ++ fresh)
                        with
                        | Some chunks => Returns chunks
                        | None => Loops
                        end
                    | None => Raises
                    end = Returns out ->
                    (exists sid, Forall (fun c => source_id c = sid) out)
                    /\ out <> []).
    { destruct content as [text|]; [|split; intros; discriminate].
      destruct (@process_text_total 800 200 text (lit "txt-" ++ fresh)
                  ltac:(lia)) as (out & Ho).
      rewrite Ho. split; [discriminate|]. intros o [= <-]. split.
      - eexists. eapply process_text_source_id; eauto.
      - eapply ChunkerExtras.process_text_nonempty; eauto. }
    destruct T as (T1 & T2).
    destruct file_bytes as [[|b fb]|]; subst cr.
    - split; [exact T1|]. split.
      + intros out H. destruct (T2 _ H) as (S & Ne).
        split; [exact S | intros X; contradiction].
      + intros fb pages [= <-] X. congruence.
    - destruct (file_chunks fresh (b :: fb) filename) as (F1 & F2 & F3).
      split; [exact F1|]. split.
      + intros out H. destruct (F2 _ H) as (S & B). split; [exact S|].
        intros X. destruct (B X) as (pages & B1 & B2 & B3).
        exists (b :: fb), pages. repeat split; auto. discriminate.
      + intros fb' pages [= <-] _ D P B. eapply F3; eauto.
    - split; [exact T1|]. split.
      + intros out H. destruct (T2 _ H) as (S & Ne).
        split; [exact S | intros X; contradiction].
      + intros fb pages X. discriminate. }
  clearbody cr. destruct C as (C1 & C2 & C3).
  destruct cr as [out| |].
  - destruct (C2 out eq_refl) as ((sid & S) & B).
    destruct out as [|c0 out].
    + cbn. split; [discriminate|]. split.
      * intros r [= <-]. left. repeat split; auto.
      * intros. reflexivity.
    + assert (X3 : forall fb pages,
                 file_bytes = Some fb -> fb <> [] ->
                 detect_file_type_from_bytes fb filename = lit "pdf" ->
                 parse_pdf_bytes fb = Some pages ->
                 Forall (fun page_text => strip page_text = []) pages ->
                 False).
      { intros fb pages H1 H2 H3 H4 H5.
        pose proof (C3 fb pages H1 H2 H3 H4 H5). discriminate. }
      cbv iota.
      destruct (EmbeddingAgent.embed_texts _ _ _ _) as [vectors|].
      * destruct (RootAgent.upsert_all upsert_returns 0 (c0 :: out))
          as (calls, all_returned) eqn:U.
        destruct all_returned.
        -- destruct (write_returns (source_id c0)); cbn.
           ++ split; [discriminate|]. split.
              ** intros r [= <-]. right.
                 exists (source_id c0), (c0 :: out).
                 split; [reflexivity|]. split; [discriminate|].
                 split.
                 --- apply Forall_cons_iff in S as (S0 & S1).
                     rewrite S0. constructor; auto.
                 --- split; [|reflexivity].
                     now apply upsert_all_calls in U.
              ** intros fb pages H1 H2 H3 H4 H5. exfalso. eauto.
           ++ split; [discriminate|]. split; [intros; discriminate|].
              intros fb pages H1 H2 H3 H4 H5. exfalso. eauto.
        -- cbn. split; [discriminate|]. split; [intros; discriminate|].
           intros fb pages H1 H2 H3 H4 H5. exfalso. eauto.
      * cbn. split; [discriminate|]. split; [intros; discriminate|].
        intros fb pages H1 H2 H3 H4 H5. exfalso. eauto.
  - cbn. split; [discriminate|]. split; [intros; discriminate|].
    intros fb pages H1 H2 H3 H4 H5.
    pose proof (C3 fb pages H1 H2 H3 H4 H5). discriminate.
  - now destruct C1.
Qed.

End Ingestion.

Lemma handle_ingest_status_witness :
  RootAgent.result
    (RootAgent.handle_ingest (fun b : N => b) (fun _ => Some [1; 2]%N)
       (fun _ => Some [lit " "; lit ""]) (fun b => b)
       (fun _ => true) (fun _ => true)
       (lit "0a1b2c3d") None (Some (lit "%PDF-1.4")) (lit "scan.pdf"))
  = Returns [("status", VStr (lit "error"));
             ("ingested_chunks", VInt 0)]%string.
Proof.
  apply (proj2 (proj2 (@handle_ingest_status
                         N (fun b : N => b) (fun _ => Some [1; 2]%N)
                         (fun _ => Some [lit " "; lit ""]) (fun b => b)
                         (fun _ => true) (fun _ => true)
                         (lit "0a1b2c3d") None (Some (lit "%PDF-1.4"))
                         (lit "scan.pdf")))
           (lit "%PDF-1.4") [lit " "; lit ""]).
  - reflexivity.
  - discriminate.
  - reflexivity.
  - reflexivity.
  - repeat constructor.
Defined.

End RootExtras.
